(** * The L2-atomics counting barrier of [fastBarrierBGQ.hh]

    A shallow embedding of the barrier ([L2_Barrier_t], [L2_BarrierHandle_t]
    and the [L2_BarrierWithSync_*] functions) and the properties of its
    round protocol.

    - 64-bit unsigned fields are integers of [Z] with the wrap-around
      written out ([wrap64]); the [int] argument [eventNum] is converted
      as C does before the unsigned addition ([int_to_u64]).
    - The store maps the address of each barrier object to its two
      counters; a handle holds the encoded pointer that
      [__l2_op_tid_ptr] builds, so the barrier a handle increments is the
      one it was initialised for, whatever barrier a call is given.
    - Every function is the composition of its atomic steps (the L2
      load-increment, the store to [start], one reading of [start] in the
      loop); the thread machine of the second part interleaves the same
      steps under an arbitrary schedule.
    - The interleavings are sequentially consistent, so [__lwsync ()] and
      [__isync ()] are steps that do nothing and are left out. *)

From Stdlib Require Import ZArith Lia.
From stdpp Require Import base option list gmap.

#[local] Open Scope Z_scope.

(** ** Machine integers *)

Definition wrap64 (z : Z) : Z := z mod 2 ^ 64.

(** Conversion of an [int] to [uint64_t] (usual arithmetic conversions). *)
Definition int_to_u64 (i : Z) : Z := i mod 2 ^ 64.

Definition u64 (z : Z) : Prop := 0 <= z < 2 ^ 64.

(** ** Data *)

(** Address of an [L2_Barrier_t] object. *)
Abbreviation addr := positive.

Record L2_Barrier_t := mkBarrier {
  start : Z;   (* thread count at start of current round *)
  count : Z    (* current thread count *)
}.

(** The pointer [__l2_op_tid_ptr (&b->count, L2_ATOMIC_OPCODE_LOAD_INCREMENT,
    tid)]: the barrier whose [count] it designates and the thread id
    encoded in it. The opcode is always load-increment in this file. *)
Record l2_ptr := mkPtr {
  l2_word : addr;
  l2_tid : Z
}.

Record L2_BarrierHandle_t := mkHandle {
  localStart : Z;
  localCountPtr : l2_ptr
}.

Abbreviation mem := (gmap addr L2_Barrier_t).

(** State seen by one call: the shared store and the caller's handle. *)
Abbreviation st := (mem * L2_BarrierHandle_t)%type.

(** ** Results: a call returns, dereferences a pointer to no barrier, or is
    still in its loop when the fuel is spent. *)

Inductive res (A : Type) : Type :=
| Ok (a : A)
| Fault
| Timeout.
Arguments Ok {A} a.
Arguments Fault {A}.
Arguments Timeout {A}.

#[global] Instance res_bind : MBind res := fun A B f r =>
  match r with
  | Ok a => f a
  | Fault => Fault
  | Timeout => Timeout
  end.

(** ** Atomic steps on the store *)

(** A load through a load-increment pointer: returns the old value of the
    word and adds one to it, in one L2 operation. *)
Definition load_increment (m : mem) (p : l2_ptr) : res (Z * mem) :=
  match m !! l2_word p with
  | Some bar =>
      Ok (count bar,
          <[l2_word p := mkBarrier (start bar) (wrap64 (count bar + 1))]> m)
  | None => Fault
  end.

(** [b->start = v] *)
Definition store_start (m : mem) (b : addr) (v : Z) : res mem :=
  match m !! b with
  | Some bar => Ok (<[b := mkBarrier v (count bar)]> m)
  | None => Fault
  end.

(** reading [b->start] *)
Definition load_start (m : mem) (b : addr) : res Z :=
  match m !! b with
  | Some bar => Ok (start bar)
  | None => Fault
  end.

(** ** The functions of the header *)

(** [b->start = b->count = 0;] *)
Definition L2_BarrierWithSync_Init (m : mem) (b : addr) : res mem :=
  match m !! b with
  | Some _ => Ok (<[b := mkBarrier 0 0]> m)
  | None => Fault
  end.

Definition L2_BarrierWithSync_InitInThread (b : addr) (tid : Z) (s : st) : st :=
  let '(m, h) := s in
  (m, mkHandle 0 (mkPtr b tid)).

(** Lines 184-189 of [Arrive], after the fetch-and-increment returned
    [count]: the second component tells whether [start] was written. *)
Definition Arrive_publish (b : addr) (eventNum : Z) (cnt : Z) (s : st)
  : res (st * option Z) :=
  let '(m, h) := s in
  let current := wrap64 (cnt + 1) in
  let target := wrap64 (localStart h + int_to_u64 eventNum) in
  if current =? target then
    m' ← store_start m b current; Ok ((m', h), Some current)
  else Ok ((m, h), None).

Definition L2_BarrierWithSync_Arrive (b : addr) (eventNum : Z) (s : st) : res st :=
  let '(m, h) := s in
  '(cnt, m1) ← load_increment m (localCountPtr h);
  p ← Arrive_publish b eventNum cnt (m1, h);
  Ok (fst p).

(** Lines 211-213 of [WaitAndReset] (and the whole of [Reset]). *)
Definition advance_localStart (eventNum : Z) (h : L2_BarrierHandle_t)
  : Z * L2_BarrierHandle_t :=
  let target := wrap64 (localStart h + int_to_u64 eventNum) in
  (target, mkHandle target (localCountPtr h)).

(** The loop condition [b->start < target], an unsigned comparison. *)
Definition spin_test (start_now target : Z) : bool := start_now <? target.

(** The loop of line 215. [env k] is what the other threads do to the store
    between the [k]-th and the next reading of [b->start] by this thread;
    the identity when the thread runs alone. *)
Fixpoint WaitAndReset_spin (env : nat -> mem -> mem) (fuel : nat) (k : nat)
    (b : addr) (target : Z) (m : mem) : res mem :=
  match fuel with
  | O => Timeout
  | S fuel' =>
      v ← load_start m b;
      if spin_test v target
      then WaitAndReset_spin env fuel' (S k) b target (env k m)
      else Ok m
  end.

Definition L2_BarrierWithSync_WaitAndReset (env : nat -> mem -> mem) (fuel : nat)
    (b : addr) (eventNum : Z) (s : st) : res st :=
  let '(m, h) := s in
  let '(target, h') := advance_localStart eventNum h in
  m' ← WaitAndReset_spin env fuel 0 b target m;
  Ok (m', h').

Definition L2_BarrierWithSync_Reset (b : addr) (eventNum : Z) (s : st) : st :=
  let '(m, h) := s in
  (m, snd (advance_localStart eventNum h)).

Definition L2_BarrierWithSync_Barrier (env : nat -> mem -> mem) (fuel : nat)
    (b : addr) (eventNum : Z) (s : st) : res st :=
  s1 ← L2_BarrierWithSync_Arrive b eventNum s;
  L2_BarrierWithSync_WaitAndReset env fuel b eventNum s1.

(** The store as this thread sees it at its [k]-th reading of [b->start]. *)
Fixpoint seen (env : nat -> mem -> mem) (k : nat) (m : mem) : mem :=
  match k with
  | O => m
  | S k' => env k' (seen env k' m)
  end.

(** What the [i]-th reading of [b->start] finds, against [target]. *)
Definition reading_below (env : nat → mem → mem) (b : addr) (target : Z)
    (m0 : mem) (i : nat) : Prop :=
  ∃ bar, seen env i m0 !! b = Some bar ∧ start bar < target.

Definition reading_reached (env : nat → mem → mem) (b : addr) (target : Z)
    (m0 : mem) (i : nat) : Prop :=
  ∃ bar, seen env i m0 !! b = Some bar ∧ target <= start bar.

(** A handle is bound to the barrier [b] when its pointer designates
    [b]'s [count], as [InitInThread (b, h)] leaves it. *)
Definition bound_to (b : addr) (h : L2_BarrierHandle_t) : Prop :=
  l2_word (localCountPtr h) = b.

(** ** Threads

    The calls a thread makes on its barrier [th_b] with its private handle
    [th_h], and where it stands inside the call it is executing. *)

Inductive call : Type :=
| InitInThread
| Arrive (eventNum : Z)
| WaitAndReset (eventNum : Z)
| Reset (eventNum : Z)
| Barrier (eventNum : Z).

Inductive pc : Type :=
| Idle                                  (* between two calls *)
| Arrive_loaded (cnt : Z) (eventNum : Z) (* line 183 done, 184-189 to do *)
| Waiting (target : Z)                   (* in the loop of line 215 *)
| Faulted.                               (* dereferenced a pointer to no barrier *)

Record thread := mkThread {
  th_b : addr;                 (* the barrier passed to every call *)
  th_tid : Z;                  (* Kernel_ProcessorThreadID () *)
  th_h : L2_BarrierHandle_t;
  th_pc : pc;
  th_prog : list call          (* the calls still to make *)
}.

(** One store to a [start] field: the thread, the barrier, the value. *)
Abbreviation event := (nat * addr * Z)%type.

Record sys := mkSys {
  sys_mem : mem;
  sys_threads : list thread;
  sys_log : list event         (* the stores to [start], oldest first *)
}.

Definition faulted (t : thread) : thread :=
  mkThread (th_b t) (th_tid t) (th_h t) Faulted (th_prog t).

(** Line 183 of [Arrive]; [k] is what the thread does after the call. *)
Definition begin_Arrive (m : mem) (t : thread) (eventNum : Z) (k : list call)
  : mem * thread * option Z :=
  match load_increment m (localCountPtr (th_h t)) with
  | Ok (cnt, m') =>
      (m', mkThread (th_b t) (th_tid t) (th_h t) (Arrive_loaded cnt eventNum) k, None)
  | _ => (m, faulted t, None)
  end.

(** One atomic step of a thread; the third component is the value the step
    stored to [th_b]'s [start], if it stored one. *)
Definition step_thread (m : mem) (t : thread) : mem * thread * option Z :=
  match th_pc t with
  | Faulted => (m, t, None)
  | Arrive_loaded cnt eventNum =>
      match Arrive_publish (th_b t) eventNum cnt (m, th_h t) with
      | Ok ((m', h'), w) =>
          (m', mkThread (th_b t) (th_tid t) h' Idle (th_prog t), w)
      | _ => (m, faulted t, None)
      end
  | Waiting target =>
      match load_start m (th_b t) with
      | Ok v =>
          if spin_test v target then (m, t, None)
          else (m, mkThread (th_b t) (th_tid t) (th_h t) Idle (th_prog t), None)
      | _ => (m, faulted t, None)
      end
  | Idle =>
      match th_prog t with
      | [] => (m, t, None)
      | InitInThread :: k =>
          let '(m', h') :=
            L2_BarrierWithSync_InitInThread (th_b t) (th_tid t) (m, th_h t) in
          (m', mkThread (th_b t) (th_tid t) h' Idle k, None)
      | Arrive eventNum :: k => begin_Arrive m t eventNum k
      | Barrier eventNum :: k => begin_Arrive m t eventNum (WaitAndReset eventNum :: k)
      | Reset eventNum :: k =>
          let '(m', h') := L2_BarrierWithSync_Reset (th_b t) eventNum (m, th_h t) in
          (m', mkThread (th_b t) (th_tid t) h' Idle k, None)
      | WaitAndReset eventNum :: k =>
          let '(target, h') := advance_localStart eventNum (th_h t) in
          (m, mkThread (th_b t) (th_tid t) h' (Waiting target) k, None)
      end
  end.

Definition log_of (i : nat) (b : addr) (w : option Z) : list event :=
  match w with
  | Some v => [(i, b, v)]
  | None => []
  end.

(** Thread [i] takes one step (nothing happens when there is no thread [i]). *)
Definition step_sys (i : nat) (σ : sys) : sys :=
  match sys_threads σ !! i with
  | Some t =>
      let '(m', t', w) := step_thread (sys_mem σ) t in
      mkSys m' (<[i := t']> (sys_threads σ)) (sys_log σ ++ log_of i (th_b t) w)
  | None => σ
  end.

(** The system after the threads stepped in the order of the schedule. *)
Definition exec (sched : list nat) (σ : sys) : sys :=
  fold_left (fun s i => step_sys i s) sched σ.

(** A thread that made all its calls and returned from the last. *)
Definition finished (t : thread) : Prop := th_pc t = Idle ∧ th_prog t = [].

(** [Barrier] written as the two calls of its body. *)
Fixpoint inline_Barrier (p : list call) : list call :=
  match p with
  | [] => []
  | Barrier n :: k => Arrive n :: WaitAndReset n :: inline_Barrier k
  | c :: k => c :: inline_Barrier k
  end.

Definition inline_thread (t : thread) : thread :=
  mkThread (th_b t) (th_tid t) (th_h t) (th_pc t) (inline_Barrier (th_prog t)).

Definition inline_sys (σ : sys) : sys :=
  mkSys (sys_mem σ) (inline_thread <$> sys_threads σ) (sys_log σ).

(** The number of rounds in a list of calls: each [Reset], [WaitAndReset]
    and [Barrier] closes one for the caller. *)
Fixpoint rounds (p : list call) : Z :=
  match p with
  | [] => 0
  | (Reset _ | WaitAndReset _ | Barrier _) :: k => 1 + rounds k
  | _ :: k => rounds k
  end.

(** The calls of a thread that uses [eventNum] in every round and does not
    initialise its handle again. *)
Definition round_call (eventNum : Z) (c : call) : Prop :=
  c = Arrive eventNum ∨ c = Reset eventNum ∨
  c = WaitAndReset eventNum ∨ c = Barrier eventNum.

(** No [Arrive] (or [Barrier]) with a handle that [InitInThread] has not
    bound to the thread's barrier. *)
Fixpoint arrives_bound (bound : bool) (p : list call) : bool :=
  match p with
  | [] => true
  | InitInThread :: k => arrives_bound true k
  | (Arrive _ | Barrier _) :: k => bound && arrives_bound bound k
  | _ :: k => arrives_bound bound k
  end.

Definition is_bound (t : thread) : bool :=
  bool_decide (l2_word (localCountPtr (th_h t)) = th_b t).

(** The invariant of the data model on one barrier. *)
Definition count_ge_start (bar : L2_Barrier_t) : Prop := start bar <= count bar.

Definition mem_ok (m : mem) : Prop :=
  ∀ a bar, m !! a = Some bar → count_ge_start bar.

(** [Arrive] called [k] times in a row by one thread. *)
Fixpoint Arrive_times (k : nat) (b : addr) (eventNum : Z) (s : st) : res st :=
  match k with
  | O => Ok s
  | S k' => s1 ← L2_BarrierWithSync_Arrive b eventNum s; Arrive_times k' b eventNum s1
  end.

(** A thread that is between calls and has only [InitInThread] to do. *)
Definition only_InitInThread (t : thread) : Prop :=
  th_pc t = Idle ∧ Forall (eq InitInThread) (th_prog t).

(** ** One round of arrivals *)

Definition total (f : thread → Z) (ts : list thread) : Z :=
  foldr (λ t acc, f t + acc) 0 ts.

(** The calls a thread has not begun. *)
Definition calls_left (t : thread) : Z := Z.of_nat (length (th_prog t)).

(** 1 for a thread that incremented [count] to [target] and has not yet
    stored it to [start]. *)
Definition pending_publish (target : Z) (t : thread) : Z :=
  match th_pc t with
  | Arrive_loaded cnt _ => if wrap64 (cnt + 1) =? target then 1 else 0
  | _ => 0
  end.

(** A participant at the beginning of the round that starts at [s]: its
    handle is the one of [b], its [localStart] is [s], and all it will do
    is call [Arrive (b, h, N)]. *)
Definition arrives_only (b : addr) (s N : Z) (t : thread) : Prop :=
  th_b t = b ∧ bound_to b (th_h t) ∧ localStart (th_h t) = s ∧
  th_pc t = Idle ∧ Forall (eq (Arrive N)) (th_prog t).

(** The beginning of a round of [N] arrivals: both counters of [b] are [s],
    nothing has been stored yet, and the participants have [N] calls of
    [Arrive] to make between them. *)
Definition round_begins (b : addr) (s N : Z) (σ : sys) : Prop :=
  sys_mem σ !! b = Some (mkBarrier s s) ∧ sys_log σ = [] ∧
  Forall (arrives_only b s N) (sys_threads σ) ∧
  total calls_left (sys_threads σ) = N.

Definition in_round (b : addr) (s N : Z) (t : thread) : Prop :=
  th_b t = b ∧ bound_to b (th_h t) ∧ localStart (th_h t) = s ∧
  Forall (eq (Arrive N)) (th_prog t) ∧
  (th_pc t = Idle ∨ ∃ cnt, th_pc t = Arrive_loaded cnt N).

Definition writes_target (b : addr) (v : Z) (e : event) : Prop :=
  e.1.2 = b ∧ e.2 = v.

(** What holds all along the round: [count] has advanced by the calls
    begun, and the store of [s + N] to [start] is either done, or pending
    in the thread that made the last increment, or still to come. *)
Definition round_inv (b : addr) (s N : Z) (σ : sys) : Prop :=
  let left := total calls_left (sys_threads σ) in
  (∃ bar, sys_mem σ !! b = Some bar ∧ count bar = wrap64 (s + (N - left))) ∧
  left <= N ∧
  Forall (in_round b s N) (sys_threads σ) ∧
  Z.of_nat (length (sys_log σ)) +
    total (pending_publish (wrap64 (s + N))) (sys_threads σ) =
    (if left =? 0 then 1 else 0) ∧
  Forall (writes_target b (wrap64 (s + N))) (sys_log σ).

(** The store all along the round that began in the store [m0]: the
    [start] of [b] is [s] as long as no store to it has been made and
    [s + N] from then on, and every other barrier is as it was. *)
Definition round_store (b : addr) (s N : Z) (m0 : mem) (σ : sys) : Prop :=
  (∃ bar, sys_mem σ !! b = Some bar ∧
          start bar = match sys_log σ with [] => s | _ => wrap64 (s + N) end) ∧
  ∀ a, a ≠ b → sys_mem σ !! a = m0 !! a.

(** The steps a participant of the round still has to take: two for each
    call not begun, one to finish a call whose increment is done. *)
Definition steps_left (t : thread) : Z :=
  2 * calls_left t + match th_pc t with Arrive_loaded _ _ => 1 | _ => 0 end.

(** ** The invariant [count >= start] *)

(** The store [m'] has the barriers of [m], none with a smaller [count]. *)
Definition mem_le (m m' : mem) : Prop :=
  ∀ a bar, m !! a = Some bar → ∃ bar', m' !! a = Some bar' ∧ count bar <= count bar'.

(** A thread uses its handle only once it is bound to its barrier, and the
    value a thread has fetched from [count] is below the [count] of now. *)
Definition thread_ok (m : mem) (t : thread) : Prop :=
  arrives_bound (is_bound t) (th_prog t) = true ∧
  match th_pc t with
  | Arrive_loaded cnt _ =>
      is_bound t = true ∧
      ∃ bar, m !! th_b t = Some bar ∧ 0 <= cnt ∧ cnt + 1 <= count bar
  | _ => True
  end.

(** A value stored to [start] is one that [count] has reached. *)
Definition event_ok (m : mem) (e : event) : Prop :=
  ∃ bar, m !! e.1.2 = Some bar ∧ e.2 <= count bar.

(** Every counter can take [r] more increments without wrapping. *)
Definition counters_ok (r : Z) (m : mem) : Prop :=
  ∀ a bar, m !! a = Some bar →
    start bar <= count bar ∧ 0 <= count bar ∧ count bar + r < 2 ^ 64.

Definition no_wrap_inv (r : Z) (σ : sys) : Prop :=
  counters_ok r (sys_mem σ) ∧
  Forall (thread_ok (sys_mem σ)) (sys_threads σ) ∧
  Forall (event_ok (sys_mem σ)) (sys_log σ).

(** A thread about to make its calls, none of them an [Arrive] with a
    handle not bound to its barrier. *)
Definition ready (t : thread) : Prop :=
  th_pc t = Idle ∧ arrives_bound (is_bound t) (th_prog t) = true.

(** ** Rounds of one thread *)

(** A thread that began with [localStart = 0] and [R0] rounds to make, all
    of [eventNum] arrivals: its [localStart] counts the rounds it has
    begun to close, and while it waits its target is its [localStart]. *)
Definition rounds_inv (eventNum R0 : Z) (t : thread) : Prop :=
  Forall (round_call eventNum) (th_prog t) ∧
  rounds (th_prog t) <= R0 ∧
  localStart (th_h t) = wrap64 ((R0 - rounds (th_prog t)) * eventNum) ∧
  (∀ target, th_pc t = Waiting target → target = localStart (th_h t)).

(** An interference that lets readings 0 to [K] find the store as it was
    and then stores [v] to [b->start], as a last arriver does. *)
Definition release_after (K : nat) (b : addr) (v : Z) (k : nat) (m : mem) : mem :=
  if (k <? K)%nat then m
  else match store_start m b v with Ok m' => m' | _ => m end.

(** An interference used in the examples: while this thread waits, another
    one publishes 2, 4, 6, ... in the barrier at address 1. *)
Definition sample_env (k : nat) (m : gmap positive L2_Barrier_t)
  : gmap positive L2_Barrier_t :=
  <[ 1%positive := mkBarrier (2 * Z.of_nat (S k)) 4 ]> m.

(** ** A team of threads at a barrier, round after round *)

(** The arrivals a list of calls still has to begin. *)
Fixpoint arrivals_left (p : list call) : Z :=
  match p with
  | [] => 0
  | (Arrive _ | Barrier _) :: k => 1 + arrivals_left k
  | _ :: k => arrivals_left k
  end.

(** Of the [R] barriers a thread has to go through: the number at which it
    has arrived (its increment of [count] is done), and the number it has
    passed (its call has returned). *)
Definition arrived (R : Z) (t : thread) : Z := R - arrivals_left (th_prog t).

Definition passed (R : Z) (t : thread) : Z :=
  R - rounds (th_prog t) - match th_pc t with Waiting _ => 1 | _ => 0 end.

(** A team of [N] threads on the barrier [b], as the header's typical
    sequence starts it: the counters as [Init] leaves them, and every
    thread about to call [InitInThread] and then [Barrier (b, h, N)] [R]
    times. *)
Definition team_begins (b : addr) (N : Z) (R : nat) (σ : sys) : Prop :=
  sys_mem σ !! b = Some (mkBarrier 0 0) ∧ sys_log σ = [] ∧
  Z.of_nat (length (sys_threads σ)) = N ∧
  Forall (λ t, th_b t = b ∧ th_pc t = Idle ∧
               th_prog t = InitInThread :: replicate R (Barrier N))
         (sys_threads σ).

(** Where a thread of the team can stand when [p] rounds are complete
    ([start = p * N]): it has arrived [p] or [p + 1] times. *)
Inductive team_thread (b : addr) (N : Z) (R : nat) (p : Z) (t : thread) : Prop :=
| tt_init :
    th_b t = b → th_pc t = Idle →
    th_prog t = InitInThread :: replicate R (Barrier N) → p = 0 →
    team_thread b N R p t
| tt_between (k : nat) :
    th_b t = b → bound_to b (th_h t) →
    th_pc t = Idle → th_prog t = replicate k (Barrier N) →
    Z.of_nat R - Z.of_nat k = p →
    localStart (th_h t) = p * N →
    team_thread b N R p t
| tt_loaded (k : nat) (c a : Z) :
    th_b t = b → bound_to b (th_h t) →
    th_pc t = Arrive_loaded c N →
    th_prog t = WaitAndReset N :: replicate k (Barrier N) →
    a = Z.of_nat R - Z.of_nat k → p <= a <= p + 1 → 1 <= a →
    localStart (th_h t) = (a - 1) * N →
    0 <= c → c + 1 <= a * N → (a = p → c + 1 ≠ p * N) →
    team_thread b N R p t
| tt_arrived (k : nat) (a : Z) :
    th_b t = b → bound_to b (th_h t) →
    th_pc t = Idle →
    th_prog t = WaitAndReset N :: replicate k (Barrier N) →
    a = Z.of_nat R - Z.of_nat k → p <= a <= p + 1 → 1 <= a →
    localStart (th_h t) = (a - 1) * N →
    team_thread b N R p t
| tt_waiting (k : nat) (a : Z) :
    th_b t = b → bound_to b (th_h t) →
    th_pc t = Waiting (a * N) → th_prog t = replicate k (Barrier N) →
    a = Z.of_nat R - Z.of_nat k → p <= a <= p + 1 → 1 <= a →
    localStart (th_h t) = a * N →
    team_thread b N R p t.

(** The values stored to [start], oldest first. *)
Definition stored_values (σ : sys) : list Z := (λ e : event, e.2) <$> sys_log σ.

(** What holds of the team under every schedule, with [p] the number of
    complete rounds: [start = p * N], [count] is the number of arrivals,
    and the store of [(p + 1) * N] is pending in one thread exactly when
    [count] has reached that value. *)
Definition team_at (b : addr) (N : Z) (R : nat) (p : Z) (σ : sys) : Prop :=
  0 <= p <= Z.of_nat R ∧
  sys_mem σ !! b =
    Some (mkBarrier (p * N) (total (arrived (Z.of_nat R)) (sys_threads σ))) ∧
  Z.of_nat (length (sys_threads σ)) = N ∧
  Forall (team_thread b N R p) (sys_threads σ) ∧
  total (pending_publish ((p + 1) * N)) (sys_threads σ) =
    (if total (arrived (Z.of_nat R)) (sys_threads σ) =? (p + 1) * N then 1 else 0) ∧
  stored_values σ = (λ q, q * N) <$> seqZ 1 p ∧
  Forall (λ e : event, e.1.2 = b) (sys_log σ).

Definition team_inv (b : addr) (N : Z) (R : nat) (σ : sys) : Prop :=
  ∃ p, team_at b N R p σ.

(** The steps a thread takes to finish its calls when no wait has to be
    repeated. *)
Fixpoint work_of (p : list call) : Z :=
  match p with
  | [] => 0
  | InitInThread :: k => 1 + work_of k
  | Arrive _ :: k => 2 + work_of k
  | WaitAndReset _ :: k => 2 + work_of k
  | Reset _ :: k => 1 + work_of k
  | Barrier _ :: k => 4 + work_of k
  end.

Definition work_left (t : thread) : Z :=
  work_of (th_prog t) +
  match th_pc t with Arrive_loaded _ _ | Waiting _ => 1 | _ => 0 end.

(** A thread whose next step is not a repeated reading in the loop of
    [WaitAndReset] (nor nothing at all). *)
Definition runnable (m : mem) (t : thread) : bool :=
  match th_pc t with
  | Idle => match th_prog t with [] => false | _ => true end
  | Arrive_loaded _ _ => true
  | Waiting target =>
      match m !! th_b t with
      | Some bar => negb (spin_test (start bar) target)
      | None => true
      end
  | Faulted => false
  end.

(** ** One round with producers and consumers *)

(** The calls of one thread in one round of [N] arrivals, as in the
    header's typical sequence: [Arrive (b, h, N)] any number of times, then
    nothing more, or [Reset], or [WaitAndReset], or [Barrier]. *)
Fixpoint one_round (N : Z) (p : list call) : bool :=
  match p with
  | [] => true
  | Arrive n :: k => (n =? N) && one_round N k
  | Reset n :: [] | WaitAndReset n :: [] | Barrier n :: [] => n =? N
  | _ => false
  end.

Definition arrivals_to_make (t : thread) : Z := arrivals_left (th_prog t).

Definition joins_round (b : addr) (s N : Z) (t : thread) : Prop :=
  th_b t = b ∧ bound_to b (th_h t) ∧ localStart (th_h t) = s ∧
  th_pc t = Idle ∧ one_round N (th_prog t) = true.

(** The beginning of a round of [N] arrivals with producers and
    consumers: both counters of [b] are [s], every handle has
    [localStart = s], and the threads have [N] arrivals to make between
    them. *)
Definition mixed_round_begins (b : addr) (s N : Z) (σ : sys) : Prop :=
  sys_mem σ !! b = Some (mkBarrier s s) ∧ sys_log σ = [] ∧
  Forall (joins_round b s N) (sys_threads σ) ∧
  total arrivals_to_make (sys_threads σ) = N.

Inductive round_thread (b : addr) (s N : Z) (t : thread) : Prop :=
| rt_idle :
    th_b t = b → bound_to b (th_h t) → localStart (th_h t) = s →
    th_pc t = Idle → one_round N (th_prog t) = true →
    round_thread b s N t
| rt_loaded (c : Z) :
    th_b t = b → bound_to b (th_h t) → localStart (th_h t) = s →
    th_pc t = Arrive_loaded c N → one_round N (th_prog t) = true →
    0 <= c → c + 1 <= s + N →
    round_thread b s N t
| rt_waiting :
    th_b t = b → localStart (th_h t) = s + N →
    th_pc t = Waiting (s + N) → th_prog t = [] →
    round_thread b s N t
| rt_done :
    th_b t = b → localStart (th_h t) = s + N →
    th_pc t = Idle → th_prog t = [] →
    round_thread b s N t.

Definition mixed_inv (b : addr) (s N : Z) (σ : sys) : Prop :=
  let left := total arrivals_to_make (sys_threads σ) in
  left <= N ∧
  Forall (round_thread b s N) (sys_threads σ) ∧
  Z.of_nat (length (sys_log σ)) +
    total (pending_publish (s + N)) (sys_threads σ) =
    (if left =? 0 then 1 else 0) ∧
  ((sys_log σ = [] ∧ sys_mem σ !! b = Some (mkBarrier s (s + N - left))) ∨
   (∃ i, sys_log σ = [(i, b, s + N)] ∧ left = 0 ∧
         sys_mem σ !! b = Some (mkBarrier (s + N) (s + N)))).

(** ** [L2_BarrierWithSync_InitShared]

    [malloc] either fails (the null pointer, [None]) or returns the address
    of a block that holds anything ([junk]); [Kernel_L2AtomicsAllocate]
    does not touch the counters and its result is not looked at; the
    pointer is passed to [Init] without a test and returned. *)
Definition L2_BarrierWithSync_InitShared (malloc : option (addr * L2_Barrier_t))
    (m : mem) : res (addr * mem) :=
  match malloc with
  | Some (bb, junk) =>
      m' ← L2_BarrierWithSync_Init (<[bb := junk]> m) bb; Ok (bb, m')
  | None => Fault
  end.

(** A thread about to initialise its handle for [b] and go [R] times
    through the barrier of [N] threads. *)
Definition team_member (b : addr) (N : Z) (R : nat) (t : thread) : Prop :=
  th_b t = b ∧ th_pc t = Idle ∧
  th_prog t = InitInThread :: replicate R (Barrier N).

(** ** The state vector of [TT06Func.hh] *)

Module TT06Func.

Inductive TT06STATE : Type :=
| Ca_i | K_i | Na_i | Ca_ss | Ca_SR | R_prime | fCass
| m_gate | h_gate | j_gate | Xr1_gate | Xr2_gate | Xs_gate
| r_gate | d_gate | f_gate | f2_gate | jL_gate | s_gate.

(** The value of each enumerator; [nStateVar], the last enumerator of the
    [enum], is the length of [TT06DevState.state]. *)
Definition index (s : TT06STATE) : Z :=
  match s with
  | Ca_i => 0 | K_i => 1 | Na_i => 2 | Ca_ss => 3 | Ca_SR => 4
  | R_prime => 5 | fCass => 6 | m_gate => 7 | h_gate => 8 | j_gate => 9
  | Xr1_gate => 10 | Xr2_gate => 11 | Xs_gate => 12 | r_gate => 13
  | d_gate => 14 | f_gate => 15 | f2_gate => 16 | jL_gate => 17 | s_gate => 18
  end.

Definition nStateVar : Z := 19.

Definition gateFitOffset : Z := 7.
Definition nGateVar : Z := 12.
Definition gateOffset : Z := 7.
Definition dVK_i : TT06STATE := K_i.

(** The enumerators whose name says they are gates. *)
Definition named_gate (s : TT06STATE) : bool :=
  match s with
  | m_gate | h_gate | j_gate | Xr1_gate | Xr2_gate | Xs_gate
  | r_gate | d_gate | f_gate | f2_gate | jL_gate | s_gate => true
  | _ => false
  end.

End TT06Func.

(** A thread that makes no arrival: it is not inside [Arrive] and has no
    [Arrive] or [Barrier] among its calls. *)
Definition never_arrives (t : thread) : Prop :=
  arrivals_to_make t = 0 ∧ ∀ c n, th_pc t ≠ Arrive_loaded c n.

(** ** A round with too few arrivals *)

(** What holds all along a round in which only [M < N] arrivals are made:
    nothing is stored, and no thread holds the value that would complete
    the round. *)
Definition short_inv (b : addr) (s N M : Z) (σ : sys) : Prop :=
  let left := total arrivals_to_make (sys_threads σ) in
  left <= M ∧
  Forall (round_thread b s N) (sys_threads σ) ∧
  Forall (λ t, pending_publish (s + N) t = 0) (sys_threads σ) ∧
  sys_log σ = [] ∧
  sys_mem σ !! b = Some (mkBarrier s (s + M - left)).

(** * Properties *)

(** ** Arithmetic of the 64-bit fields *)

Lemma wrap64_int_to_u64 (a i : Z) : wrap64 (a + int_to_u64 i) = wrap64 (a + i).
Proof. unfold wrap64, int_to_u64. apply Zplus_mod_idemp_r. Qed.

Lemma wrap64_small (z : Z) : u64 z → wrap64 z = z.
Proof. unfold u64, wrap64. intros H. apply Z.mod_small. exact H. Qed.

(** Two sums less than [2^64] apart wrap to the same value only when
    equal. *)
Lemma wrap64_inj_near (s i j : Z) :
  0 <= i < 2 ^ 64 → 0 <= j < 2 ^ 64 →
  wrap64 (s + i) = wrap64 (s + j) → i = j.
Proof.
  unfold wrap64. intros Hi Hj H.
  assert (E : (i - j) mod 2 ^ 64 = 0).
  { replace (i - j) with ((s + i) - (s + j)) by lia.
    rewrite Zminus_mod, H, Z.sub_diag. reflexivity. }
  apply Z.mod_divide in E; [|lia].
  destruct E as [q E]. nia.
Qed.

Ltac unfold_res := unfold mbind, res_bind in *.

#[local] Arguments Arrive_publish : simpl never.
#[local] Arguments load_start : simpl never.
#[local] Arguments load_increment : simpl never.
#[local] Arguments store_start : simpl never.

(** ** The calls, one at a time *)

Lemma load_increment_at m p bar :
  m !! l2_word p = Some bar →
  load_increment m p =
    Ok (count bar, <[l2_word p := mkBarrier (start bar) (wrap64 (count bar + 1))]> m).
Proof. intros H. unfold load_increment. rewrite H. reflexivity. Qed.

Lemma Arrive_at m b bar h eventNum :
  m !! b = Some bar → bound_to b h →
  L2_BarrierWithSync_Arrive b eventNum (m, h) =
    Ok (<[b := mkBarrier
                 (if wrap64 (count bar + 1) =? wrap64 (localStart h + eventNum)
                  then wrap64 (count bar + 1) else start bar)
                 (wrap64 (count bar + 1))]> m, h).
Proof.
  intros Hm Hb. unfold bound_to in Hb. subst b.
  unfold L2_BarrierWithSync_Arrive. rewrite (load_increment_at _ _ _ Hm).
  unfold_res. unfold Arrive_publish. rewrite wrap64_int_to_u64.
  destruct (wrap64 (count bar + 1) =? wrap64 (localStart h + eventNum)).
  - unfold_res. unfold store_start. rewrite lookup_insert_eq. simpl.
    rewrite insert_insert_eq. reflexivity.
  - simpl. reflexivity.
Qed.

(** A thread that runs [Arrive] takes the two steps of the function: the
    load-increment, then lines 184-189. *)
Lemma Arrive_in_two_steps m b tid h eventNum k :
  let '(m1, t1, _) := step_thread m (mkThread b tid h Idle (Arrive eventNum :: k)) in
  match L2_BarrierWithSync_Arrive b eventNum (m, h) with
  | Ok (m', h') => ∃ w, step_thread m1 t1 = (m', mkThread b tid h' Idle k, w)
  | _ => th_pc t1 = Faulted ∨ th_pc (step_thread m1 t1).1.2 = Faulted
  end.
Proof.
  unfold step_thread at 1. simpl. unfold begin_Arrive, L2_BarrierWithSync_Arrive.
  simpl. destruct (load_increment m (localCountPtr h)) as [[cnt m1]| |]; simpl;
    [|left; reflexivity..].
  unfold_res. unfold step_thread. simpl.
  destruct (Arrive_publish b eventNum cnt (m1, h)) as [[[m' h'] w]| |]; simpl;
    [eauto|right; reflexivity..].
Qed.

(** C1. [Arrive (b, h, eventNum)], with [h] the handle of [b]: the
    load-increment is one step that returns the old [count] and leaves
    [count + 1] (in 64 bits) in [b]; the call returns with [b.count] that
    post-increment value [current], with [b.start = current] when
    [current = localStart + eventNum] and [b.start] as it was otherwise;
    no other barrier and nothing of the handle changes. *)
Theorem Arrive_increments_and_publishes m b bar h eventNum :
  m !! b = Some bar → bound_to b h →
  let current := wrap64 (count bar + 1) in
  let target := wrap64 (localStart h + eventNum) in
  load_increment m (localCountPtr h) =
    Ok (count bar, <[b := mkBarrier (start bar) current]> m) ∧
  ∃ m', L2_BarrierWithSync_Arrive b eventNum (m, h) = Ok (m', h) ∧
        (∃ bar', m' !! b = Some bar' ∧ count bar' = current ∧
                 (current = target → start bar' = current) ∧
                 (current ≠ target → start bar' = start bar)) ∧
        ∀ a, a ≠ b → m' !! a = m !! a.
Proof.
  intros Hm Hb current target. split.
  - unfold bound_to in Hb. subst b. apply load_increment_at, Hm.
  - eexists. split; [apply Arrive_at; eassumption|]. split.
    + eexists. split; [apply lookup_insert_eq|]. simpl.
      fold current target. split; [reflexivity|].
      split; intros E.
      * apply Z.eqb_eq in E. rewrite E. reflexivity.
      * apply Z.eqb_neq in E. rewrite E. reflexivity.
    + intros a Ha. apply lookup_insert_ne. congruence.
Qed.

Lemma Arrive_increments_and_publishes_witness :
  let m : gmap positive L2_Barrier_t := {[ 1%positive := mkBarrier 0 3 ]} in
  let h := mkHandle 0 (mkPtr 1%positive 7) in
  ∃ m', L2_BarrierWithSync_Arrive 1%positive 4 (m, h) = Ok (m', h) ∧
        ∃ bar', m' !! 1%positive = Some bar' ∧ count bar' = 4 ∧ start bar' = 4.
Proof.
  intros m h.
  destruct (Arrive_increments_and_publishes m 1%positive (mkBarrier 0 3) h 4)
    as [_ [m' [E [[bar' [L [C [S1 _]]]] _]]]]; [reflexivity | reflexivity |].
  exists m'. split; [exact E|]. exists bar'. split; [exact L|].
  split; [exact C|]. apply S1. reflexivity.
Defined.

Lemma Arrive_handle b eventNum m h m' h' :
  L2_BarrierWithSync_Arrive b eventNum (m, h) = Ok (m', h') → h' = h.
Proof.
  unfold L2_BarrierWithSync_Arrive, Arrive_publish. unfold_res.
  destruct (load_increment m (localCountPtr h)) as [[cnt m1]| |]; try discriminate.
  destruct (_ =? _).
  - destruct (store_start m1 b _); try discriminate.
    simpl. intros E. injection E as _ E. congruence.
  - simpl. intros E. injection E as _ E. congruence.
Qed.

(** C9. [Arrive] never writes the handle: after any number of [Arrive]
    calls in a row the handle, and so its [localStart], is the one the
    thread had; and a step of a thread whose next call does not initialise
    the handle changes [localStart] only when it begins a [Reset] or a
    [WaitAndReset]. *)
Theorem Arrive_keeps_handle :
  (∀ k b eventNum s s', Arrive_times k b eventNum s = Ok s' → snd s' = snd s) ∧
  (∀ m t m' t' w,
     step_thread m t = (m', t', w) →
     localStart (th_h t') ≠ localStart (th_h t) →
     head (th_prog t) ≠ Some InitInThread →
     th_pc t = Idle ∧
     ∃ n, head (th_prog t) = Some (Reset n) ∨ head (th_prog t) = Some (WaitAndReset n)).
Proof.
  split.
  - induction k as [|k IH]; intros b eventNum [m h] s' H;
      cbn [Arrive_times] in H.
    + congruence.
    + unfold_res.
      destruct (L2_BarrierWithSync_Arrive b eventNum (m, h)) as [[m1 h1]| |] eqn:E;
        try discriminate.
      apply Arrive_handle in E. subst h1. exact (IH _ _ _ _ H).
  - intros m t m' t' w Hs Hne Hinit. unfold step_thread in Hs.
    destruct (th_pc t) eqn:Hpc.
    + split; [reflexivity|].
      destruct (th_prog t) as [|[| n | n | n | n] k] eqn:Hp; simpl in *.
      * injection Hs as _ <- _. congruence.
      * congruence.
      * unfold begin_Arrive in Hs.
        destruct (load_increment m _) as [[c m1]| |];
          injection Hs as _ <- _; simpl in Hne; congruence.
      * eauto.
      * eauto.
      * unfold begin_Arrive in Hs.
        destruct (load_increment m _) as [[c m1]| |];
          injection Hs as _ <- _; simpl in Hne; congruence.
    + exfalso. unfold Arrive_publish in Hs. unfold_res.
      destruct (_ =? _); [destruct (store_start m (th_b t) _)|];
        simpl in Hs; injection Hs as _ <- _; simpl in Hne; congruence.
    + exfalso. destruct (load_start m (th_b t)) as [v| |];
        [destruct (spin_test v target)|..];
        injection Hs as _ <- _; simpl in Hne; congruence.
    + injection Hs as _ <- _. congruence.
Qed.

Lemma Arrive_keeps_handle_witness :
  let m : gmap positive L2_Barrier_t := {[ 1%positive := mkBarrier 0 0 ]} in
  let h := mkHandle 0 (mkPtr 1%positive 7) in
  ∃ s', Arrive_times 2 1%positive 2 (m, h) = Ok s' ∧ snd s' = h.
Proof.
  intros m h. exists (<[ 1%positive := mkBarrier 2 2 ]> m, h).
  assert (E : Arrive_times 2 1%positive 2 (m, h) =
              Ok (<[ 1%positive := mkBarrier 2 2 ]> m, h))
    by (vm_compute; reflexivity).
  split; [exact E|].
  exact (proj1 Arrive_keeps_handle 2%nat 1%positive 2 (m, h) _ E).
Defined.

(** C6. [Reset (b, h, eventNum)] sets [h.localStart] to its old value plus
    [eventNum] (in 64 bits) and returns the store it was given; it has no
    loop: in a thread it is one step, whatever the store holds, after which
    the thread is between calls again. *)
Theorem Reset_advances_localStart_only b eventNum m h :
  L2_BarrierWithSync_Reset b eventNum (m, h) =
    (m, mkHandle (wrap64 (localStart h + eventNum)) (localCountPtr h)) ∧
  ∀ tid k,
    step_thread m (mkThread b tid h Idle (Reset eventNum :: k)) =
      (m, mkThread b tid
            (mkHandle (wrap64 (localStart h + eventNum)) (localCountPtr h)) Idle k,
       None).
Proof.
  split; [|intros tid k; unfold step_thread; simpl];
    unfold L2_BarrierWithSync_Reset, advance_localStart; simpl;
    rewrite wrap64_int_to_u64; reflexivity.
Qed.

Lemma step_only_InitInThread i σ :
  Forall only_InitInThread (sys_threads σ) →
  Forall only_InitInThread (sys_threads (step_sys i σ)) ∧
  sys_mem (step_sys i σ) = sys_mem σ ∧ sys_log (step_sys i σ) = sys_log σ.
Proof.
  intros H. unfold step_sys.
  destruct (sys_threads σ !! i) as [t|] eqn:Hi; [|auto].
  pose proof (Forall_lookup_1 _ _ _ _ H Hi) as [Hpc Hp].
  unfold step_thread. rewrite Hpc.
  destruct (th_prog t) as [|c k] eqn:Ep.
  - simpl. rewrite app_nil_r. split; [|split; reflexivity].
    apply Forall_insert; [exact H|]. split; [exact Hpc|]. rewrite Ep. constructor.
  - inversion Hp as [|c' k' Hc Hk]; subst. simpl. rewrite app_nil_r.
    split; [|split; reflexivity].
    apply Forall_insert; [exact H|]. split; [reflexivity|exact Hk].
Qed.

(** C10. [InitInThread (b, h)] sets [h.localStart = 0] and points the
    handle at [b]'s [count]; it returns the store it was given, and while
    the threads only initialise their handles, in any order, no field of
    any barrier changes. *)
Theorem InitInThread_binds_handle_only :
  (∀ b tid m h,
     L2_BarrierWithSync_InitInThread b tid (m, h) = (m, mkHandle 0 (mkPtr b tid)) ∧
     bound_to b (snd (L2_BarrierWithSync_InitInThread b tid (m, h))) ∧
     ∀ k, step_thread m (mkThread b tid h Idle (InitInThread :: k)) =
            (m, mkThread b tid (mkHandle 0 (mkPtr b tid)) Idle k, None)) ∧
  (∀ sched σ,
     Forall only_InitInThread (sys_threads σ) →
     sys_mem (exec sched σ) = sys_mem σ ∧ sys_log (exec sched σ) = sys_log σ).
Proof.
  split.
  - intros b tid m h. repeat split.
  - induction sched as [|i sched IH]; intros σ H; [split; reflexivity|].
    destruct (step_only_InitInThread i σ H) as (H' & Em & El).
    destruct (IH _ H') as [E1 E2]. simpl. split; congruence.
Qed.

Lemma InitInThread_binds_handle_only_witness :
  let σ := mkSys {[ 1%positive := mkBarrier 0 0 ]}
             [ mkThread 1%positive 0 (mkHandle 9 (mkPtr 5%positive 3)) Idle [InitInThread];
               mkThread 1%positive 1 (mkHandle 8 (mkPtr 6%positive 2)) Idle [InitInThread] ]
             [] in
  sys_mem (exec [1%nat; 0%nat] σ) = sys_mem σ ∧ sys_log (exec [1%nat; 0%nat] σ) = sys_log σ.
Proof.
  intros σ. apply (proj2 InitInThread_binds_handle_only).
  repeat constructor.
Defined.

(** ** The loop of [WaitAndReset] *)

Section Spin.
Variable env : nat → gmap positive L2_Barrier_t → gmap positive L2_Barrier_t.
Variables (b : positive) (target : Z) (m0 : gmap positive L2_Barrier_t).

Lemma spin_Ok fuel : ∀ k m',
  WaitAndReset_spin env fuel k b target (seen env k m0) = Ok m' →
  ∃ j, (k ≤ j < k + fuel)%nat ∧ m' = seen env j m0 ∧
       reading_reached env b target m0 j ∧
       ∀ i, (k ≤ i < j)%nat → reading_below env b target m0 i.
Proof.
  induction fuel as [|fuel IH]; intros k m' H; [discriminate|].
  cbn [WaitAndReset_spin] in H. unfold load_start in H.
  destruct (seen env k m0 !! b) as [bar|] eqn:Hk; [|discriminate].
  cbn in H. unfold spin_test in H.
  destruct (start bar <? target) eqn:Hlt.
  - apply Z.ltb_lt in Hlt.
    destruct (IH (S k) m' H) as (j & Hj & Em & Hr & Hb).
    exists j. split; [lia|]. split; [exact Em|]. split; [exact Hr|].
    intros i Hi. destruct (decide (i = k)) as [->|Hne].
    + exists bar. auto.
    + apply Hb. lia.
  - apply Z.ltb_ge in Hlt. injection H as <-.
    exists k. split; [lia|]. split; [reflexivity|]. split.
    + exists bar. auto.
    + intros i Hi. lia.
Qed.

Lemma spin_exits j :
  reading_reached env b target m0 j →
  (∀ i, (i < j)%nat → is_Some (seen env i m0 !! b)) →
  ∀ fuel k, (k ≤ j < k + fuel)%nat →
    ∃ m', WaitAndReset_spin env fuel k b target (seen env k m0) = Ok m'.
Proof.
  intros (bar & Hbar & Hge) Hmapped.
  induction fuel as [|fuel IH]; intros k Hk; [lia|].
  cbn [WaitAndReset_spin]. unfold load_start.
  destruct (decide (k = j)) as [->|Hne].
  - rewrite Hbar. cbn. unfold spin_test.
    replace (start bar <? target) with false by (symmetry; apply Z.ltb_ge; lia).
    eauto.
  - destruct (Hmapped k) as [bk Hbk]; [lia|]. rewrite Hbk. cbn.
    destruct (spin_test (start bk) target); [|eauto].
    apply (IH (S k)). lia.
Qed.

Lemma spin_Timeout_upto :
  ∀ fuel k, (∀ i, (k ≤ i < k + fuel)%nat → reading_below env b target m0 i) →
    WaitAndReset_spin env fuel k b target (seen env k m0) = Timeout.
Proof.
  induction fuel as [|fuel IH]; intros k Hall; [reflexivity|].
  cbn [WaitAndReset_spin]. unfold load_start.
  destruct (Hall k) as (bar & Hbar & Hlt); [lia|]. rewrite Hbar. cbn.
  unfold spin_test.
  replace (start bar <? target) with true by (symmetry; apply Z.ltb_lt; lia).
  apply (IH (S k)). intros i Hi. apply Hall. lia.
Qed.

Lemma spin_Timeout :
  (∀ i, reading_below env b target m0 i) →
  ∀ fuel k, WaitAndReset_spin env fuel k b target (seen env k m0) = Timeout.
Proof. intros Hall fuel k. apply spin_Timeout_upto. intros i _. apply Hall. Qed.

Lemma spin_first j :
  reading_reached env b target m0 j →
  ∀ fuel k, (k ≤ j < k + fuel)%nat →
    (∀ i, (k ≤ i < j)%nat → reading_below env b target m0 i) →
    WaitAndReset_spin env fuel k b target (seen env k m0) = Ok (seen env j m0).
Proof.
  intros (bar & Hbar & Hge).
  induction fuel as [|fuel IH]; intros k Hk Hall; [lia|].
  cbn [WaitAndReset_spin]. unfold load_start.
  destruct (decide (k = j)) as [->|Hne].
  - rewrite Hbar. cbn. unfold spin_test.
    replace (start bar <? target) with false by (symmetry; apply Z.ltb_ge; lia).
    reflexivity.
  - destruct (Hall k) as (bk & Hbk & Hlt); [lia|]. rewrite Hbk. cbn.
    unfold spin_test.
    replace (start bk <? target) with true by (symmetry; apply Z.ltb_lt; lia).
    apply (IH (S k)); [lia|]. intros i Hi. apply Hall. lia.
Qed.

End Spin.

Lemma WaitAndReset_Ok env fuel b eventNum m h m' h' :
  L2_BarrierWithSync_WaitAndReset env fuel b eventNum (m, h) = Ok (m', h') →
  h' = mkHandle (wrap64 (localStart h + eventNum)) (localCountPtr h) ∧
  WaitAndReset_spin env fuel 0 b (wrap64 (localStart h + eventNum)) m = Ok m'.
Proof.
  unfold L2_BarrierWithSync_WaitAndReset, advance_localStart.
  rewrite wrap64_int_to_u64. unfold_res.
  destruct (WaitAndReset_spin env fuel 0 b _ m) as [m1| |]; try discriminate.
  intros E. injection E as <- <-. auto.
Qed.

(** C3. [WaitAndReset (b, h, eventNum)] computes [target] from the
    [localStart] it finds and stores it in [h.localStart] in its first
    step, before any reading of [b.start]; each later step reads [b.start]
    once, stays in the loop when [b.start < target] and leaves it
    otherwise; so when the call returns, the last reading found
    [b.start >= target] and every reading before it found
    [b.start < target]. *)
Theorem WaitAndReset_advances_then_waits env fuel b eventNum m h :
  let target := wrap64 (localStart h + eventNum) in
  (∀ tid k,
     step_thread m (mkThread b tid h Idle (WaitAndReset eventNum :: k)) =
       (m, mkThread b tid (mkHandle target (localCountPtr h)) (Waiting target) k, None)) ∧
  (∀ tid k h1 m1 bar tg,
     m1 !! b = Some bar →
     step_thread m1 (mkThread b tid h1 (Waiting tg) k) =
       (m1, mkThread b tid h1 (if start bar <? tg then Waiting tg else Idle) k, None)) ∧
  (∀ m' h',
     L2_BarrierWithSync_WaitAndReset env fuel b eventNum (m, h) = Ok (m', h') →
     h' = mkHandle target (localCountPtr h) ∧
     ∃ j, (j < fuel)%nat ∧ m' = seen env j m ∧
          (∃ bar, m' !! b = Some bar ∧ target <= start bar) ∧
          ∀ i, (i < j)%nat →
               ∃ bar, seen env i m !! b = Some bar ∧ start bar < target).
Proof.
  intros target. split; [|split].
  - intros tid k. unfold step_thread, advance_localStart. simpl.
    rewrite wrap64_int_to_u64. reflexivity.
  - intros tid k h1 m1 bar tg Hm. unfold step_thread, load_start, spin_test. simpl.
    rewrite Hm. destruct (start bar <? tg); reflexivity.
  - intros m' h' H. apply WaitAndReset_Ok in H as [Eh Hs]. split; [exact Eh|].
    destruct (spin_Ok env b target m fuel 0 m' Hs) as (j & Hj & Em & Hr & Hb).
    exists j. split; [lia|]. split; [exact Em|]. split.
    + rewrite Em. exact Hr.
    + intros i Hi. apply Hb. lia.
Qed.

Lemma WaitAndReset_advances_then_waits_witness :
  let m : gmap positive L2_Barrier_t := {[ 1%positive := mkBarrier 0 4 ]} in
  let h := mkHandle 0 (mkPtr 1%positive 7) in
  ∃ j, (j < 5)%nat ∧
       ∃ bar, seen sample_env j m !! 1%positive = Some bar ∧ 4 <= start bar.
Proof.
  intros m h.
  destruct (WaitAndReset_advances_then_waits sample_env 5 1%positive 4 m h)
    as (_ & _ & H).
  destruct (H (seen sample_env 2 m) (mkHandle 4 (mkPtr 1%positive 7)))
    as (_ & j & Hj & Em & Hr & _); [vm_compute; reflexivity|].
  exists j. split; [exact Hj|]. rewrite <- Em. exact Hr.
Defined.

Lemma seen_release_after K b v m :
  ∀ j, (j ≤ K)%nat → seen (release_after K b v) j m = m.
Proof.
  induction j as [|j IH]; intros Hj; [reflexivity|].
  cbn [seen]. rewrite IH by lia. unfold release_after.
  replace (j <? K)%nat with true by (symmetry; apply Nat.ltb_lt; lia).
  reflexivity.
Qed.

(** C8. While [b] stays a barrier, [WaitAndReset (b, h, eventNum)] returns
    (given enough fuel) exactly when some reading of [b.start] finds a
    value [>= localStart + eventNum]: at once when that holds on entry;
    and when every reading finds [b.start] below the target the call is
    still in its loop after any number of iterations. The number of
    iterations has no bound: for every [K] the call is still in its loop
    after [K + 1] readings when the target is stored only then, and
    returns at the next one. *)
Theorem WaitAndReset_returns_iff_start_reaches_target env b eventNum m h :
  (∀ k, is_Some (seen env k m !! b)) →
  let target := wrap64 (localStart h + eventNum) in
  ((∃ fuel s', L2_BarrierWithSync_WaitAndReset env fuel b eventNum (m, h) = Ok s') ↔
   (∃ k bar, seen env k m !! b = Some bar ∧ target <= start bar)) ∧
  ((∀ k bar, seen env k m !! b = Some bar → start bar < target) →
   ∀ fuel, L2_BarrierWithSync_WaitAndReset env fuel b eventNum (m, h) = Timeout) ∧
  (∀ bar, m !! b = Some bar → target <= start bar →
   ∀ fuel, L2_BarrierWithSync_WaitAndReset env (S fuel) b eventNum (m, h) =
             Ok (m, mkHandle target (localCountPtr h))) ∧
  (∀ K bar, m !! b = Some bar → start bar < target →
   (∀ fuel, (fuel ≤ S K)%nat →
      L2_BarrierWithSync_WaitAndReset (release_after K b target) fuel b eventNum
        (m, h) = Timeout) ∧
   L2_BarrierWithSync_WaitAndReset (release_after K b target) (S (S K)) b eventNum
     (m, h) =
     Ok (<[b := mkBarrier target (count bar)]> m, mkHandle target (localCountPtr h))).
Proof.
  intros Hmapped target. split; [split|split; [|split]].
  - intros (fuel & [m' h'] & H). apply WaitAndReset_Ok in H as [_ Hs].
    destruct (spin_Ok env b target m fuel 0 m' Hs) as (j & _ & _ & (bar & Hr) & _).
    exists j, bar. exact Hr.
  - intros (k & bar & Hbar & Hge).
    destruct (spin_exits env b target m k) with (fuel := S k) (k := 0%nat)
      as [m' Hs]; [exists bar; auto | intros; apply Hmapped | lia |].
    exists (S k), (m', mkHandle target (localCountPtr h)).
    unfold L2_BarrierWithSync_WaitAndReset, advance_localStart.
    rewrite wrap64_int_to_u64. fold target.
    change (seen env 0 m) with m in Hs. rewrite Hs. reflexivity.
  - intros Hbelow fuel.
    unfold L2_BarrierWithSync_WaitAndReset, advance_localStart.
    rewrite wrap64_int_to_u64. fold target.
    rewrite (spin_Timeout env b target m) with (k := 0%nat); [reflexivity|].
    intros i. destruct (Hmapped i) as [bar Hbar]. exists bar. split; [exact Hbar|].
    exact (Hbelow i bar Hbar).
  - intros bar Hbar Hge fuel.
    unfold L2_BarrierWithSync_WaitAndReset, advance_localStart.
    rewrite wrap64_int_to_u64. fold target.
    cbn [WaitAndReset_spin]. unfold load_start, spin_test. rewrite Hbar. cbn.
    replace (start bar <? target) with false by (symmetry; apply Z.ltb_ge; lia).
    reflexivity.
  - intros K bar Hbar Hlt.
    assert (Hbelow : ∀ i, (i ≤ K)%nat →
              reading_below (release_after K b target) b target m i).
    { intros i Hi. exists bar. rewrite seen_release_after by exact Hi. auto. }
    assert (Elast : seen (release_after K b target) (S K) m =
                    <[b := mkBarrier target (count bar)]> m).
    { cbn [seen]. rewrite seen_release_after by lia. unfold release_after.
      replace (K <? K)%nat with false by (symmetry; apply Nat.ltb_ge; lia).
      unfold store_start. rewrite Hbar. reflexivity. }
    split.
    + intros fuel Hfuel.
      unfold L2_BarrierWithSync_WaitAndReset, advance_localStart.
      rewrite wrap64_int_to_u64. fold target.
      assert (E : WaitAndReset_spin (release_after K b target) fuel 0 b target m
                  = Timeout).
      { apply (spin_Timeout_upto (release_after K b target) b target m fuel 0).
        intros i Hi. apply Hbelow. lia. }
      rewrite E. reflexivity.
    + unfold L2_BarrierWithSync_WaitAndReset, advance_localStart.
      rewrite wrap64_int_to_u64. fold target.
      assert (E : WaitAndReset_spin (release_after K b target) (S (S K)) 0 b
                    target m = Ok (seen (release_after K b target) (S K) m)).
      { apply (spin_first (release_after K b target) b target m (S K)).
        - exists (mkBarrier target (count bar)).
          rewrite Elast, lookup_insert_eq. simpl. split; [reflexivity|lia].
        - lia.
        - intros i Hi. apply Hbelow. lia. }
      rewrite E, Elast. reflexivity.
Qed.

Lemma WaitAndReset_returns_iff_start_reaches_target_witness :
  let m : gmap positive L2_Barrier_t := {[ 1%positive := mkBarrier 0 4 ]} in
  let h := mkHandle 0 (mkPtr 1%positive 7) in
  ∃ fuel s', L2_BarrierWithSync_WaitAndReset sample_env fuel 1%positive 4 (m, h) = Ok s'.
Proof.
  intros m h.
  destruct (WaitAndReset_returns_iff_start_reaches_target sample_env 1%positive 4 m h)
    as [[_ H] _].
  - intros [|k].
    + exists (mkBarrier 0 4). reflexivity.
    + cbn [seen]. unfold sample_env at 1. rewrite lookup_insert_eq. eauto.
  - apply H. exists 2%nat, (mkBarrier 4 4). split; [reflexivity|].
    vm_compute. discriminate.
Defined.

(** ** [Barrier] *)

Lemma step_thread_inline m t :
  step_thread m (inline_thread t) =
    let '(m', t', w) := step_thread m t in (m', inline_thread t', w).
Proof.
  destruct t as [b tid h p prog]. unfold step_thread, inline_thread. simpl.
  destruct p as [|cnt n|target|].
  - destruct prog as [|[| n | n | n | n] k]; simpl; try reflexivity;
      unfold begin_Arrive; simpl;
      destruct (load_increment m (localCountPtr h)) as [[c m1]| |]; reflexivity.
  - destruct (Arrive_publish b n cnt (m, h)) as [[[m' h'] w]| |]; reflexivity.
  - destruct (load_start m b) as [v| |]; [destruct (spin_test v target)|..];
      reflexivity.
  - reflexivity.
Qed.

Lemma step_sys_inline i σ :
  step_sys i (inline_sys σ) = inline_sys (step_sys i σ).
Proof.
  unfold step_sys, inline_sys. simpl. rewrite list_lookup_fmap.
  destruct (sys_threads σ !! i) as [t|]; simpl; [|reflexivity].
  rewrite step_thread_inline.
  destruct (step_thread (sys_mem σ) t) as [[m' t'] w]. simpl.
  rewrite list_fmap_insert. reflexivity.
Qed.

(** C5. [Barrier (b, h, eventNum)] is [Arrive (b, h, eventNum)] followed by
    [WaitAndReset (b, h, eventNum)]: as a call it has the same result
    (store, handle, fault, or still waiting) for every store, handle,
    interference and fuel; and in a system of threads, under every
    schedule, writing each [Barrier] as the two calls changes neither the
    store, nor any handle, nor where any thread stands, nor the stores made
    to [start]. *)
Theorem Barrier_is_Arrive_then_WaitAndReset :
  (∀ env fuel b eventNum s,
     L2_BarrierWithSync_Barrier env fuel b eventNum s =
       match L2_BarrierWithSync_Arrive b eventNum s with
       | Ok s1 => L2_BarrierWithSync_WaitAndReset env fuel b eventNum s1
       | Fault => Fault
       | Timeout => Timeout
       end) ∧
  (∀ sched σ, exec sched (inline_sys σ) = inline_sys (exec sched σ)).
Proof.
  split.
  - reflexivity.
  - induction sched as [|i sched IH]; intros σ; [reflexivity|].
    simpl. rewrite step_sys_inline. apply IH.
Qed.

(** ** One round of arrivals *)

Lemma total_insert f (l : list thread) i t t' :
  l !! i = Some t → total f (<[i := t']> l) = total f l - f t + f t'.
Proof.
  revert i. induction l as [|x l IH]; intros [|i] H; simpl in *; try discriminate.
  - injection H as ->. lia.
  - rewrite (IH i H). lia.
Qed.

Lemma total_nonneg f (l : list thread) : (∀ t, 0 <= f t) → 0 <= total f l.
Proof.
  intros Hf. induction l as [|x l IH]; simpl; [lia|]. specialize (Hf x). lia.
Qed.

Lemma total_ge f (l : list thread) i t :
  (∀ t, 0 <= f t) → l !! i = Some t → f t <= total f l.
Proof.
  intros Hf. revert i. induction l as [|x l IH]; intros [|i] H; simpl in *;
    try discriminate.
  - injection H as ->. pose proof (total_nonneg f l Hf). lia.
  - specialize (IH i H). specialize (Hf x). lia.
Qed.

Lemma calls_left_nonneg t : 0 <= calls_left t.
Proof. unfold calls_left. lia. Qed.

Lemma wrap64_succ z : wrap64 (wrap64 z + 1) = wrap64 (z + 1).
Proof. unfold wrap64. apply Zplus_mod_idemp_l. Qed.

Lemma round_begins_inv b s N σ :
  u64 s → 1 <= N → round_begins b s N σ → round_inv b s N σ.
Proof.
  intros Hs HN (Hm & Hl & Ht & Hn). unfold round_inv. rewrite Hn, Hl.
  split; [|split; [lia|split; [|split]]].
  - exists (mkBarrier s s). split; [exact Hm|]. simpl.
    replace (s + (N - N)) with s by lia. symmetry. apply wrap64_small, Hs.
  - eapply Forall_impl; [exact Ht|]. intros t (?&?&?&?&?).
    unfold in_round. auto 6.
  - simpl. replace (N =? 0) with false by (symmetry; apply Z.eqb_neq; lia).
    assert (E : total (pending_publish (wrap64 (s + N))) (sys_threads σ) = 0).
    { clear Hn. induction Ht as [|t l (_&_&_&Hpc&_) _ IH]; simpl; [reflexivity|].
      unfold pending_publish at 1. rewrite Hpc. lia. }
    lia.
  - constructor.
Qed.

Ltac name_new_thread t' :=
  match goal with |- context [<[_ := ?x]> (sys_threads _)] => set (t' := x) in * end.

Lemma round_inv_step b s N σ i :
  1 <= N < 2 ^ 64 → round_inv b s N σ → round_inv b s N (step_sys i σ).
Proof.
  intros HN Hinv. pose proof Hinv as ((bar & Hm & Hc) & Hle & Hts & Hsum & Hlog).
  unfold step_sys. destruct (sys_threads σ !! i) as [t|] eqn:Hi; [|exact Hinv].
  pose proof (Forall_lookup_1 _ _ _ _ Hts Hi) as (Hb & Hbd & Hls & Hp & Hpc).
  pose proof (total_ge calls_left _ _ _ calls_left_nonneg Hi) as Hge.
  pose proof (total_nonneg calls_left (sys_threads σ) calls_left_nonneg) as H0.
  set (left := total calls_left (sys_threads σ)) in *.
  set (tgt := wrap64 (s + N)) in *.
  unfold bound_to in Hbd.
  unfold step_thread. destruct Hpc as [Hpc|[cnt Hpc]]; rewrite Hpc.
  - (* between calls *)
    assert (Ep0 : pending_publish tgt t = 0).
    { unfold pending_publish. rewrite Hpc. reflexivity. }
    destruct (th_prog t) as [|c k] eqn:Ep.
    + simpl. rewrite app_nil_r, list_insert_id by exact Hi.
      destruct σ; exact Hinv.
    + inversion Hp as [|c' k' Hc' Hk]; subst c' k' c.
      unfold begin_Arrive.
      rewrite (load_increment_at (sys_mem σ) _ bar) by (rewrite Hbd; exact Hm).
      simpl. rewrite app_nil_r. unfold round_inv. simpl. name_new_thread t'.
      rewrite !(total_insert _ _ _ _ _ Hi). fold left tgt.
      assert (El : calls_left t = 1 + calls_left t').
      { unfold calls_left. rewrite Ep. simpl length. lia. }
      pose proof (calls_left_nonneg t') as Hn'.
      assert (Ecur : wrap64 (count bar + 1) = wrap64 (s + (N - left + 1))).
      { rewrite Hc, wrap64_succ. f_equal. lia. }
      assert (Ep1 : pending_publish tgt t' =
                    if left - 1 =? 0 then 1 else 0).
      { unfold pending_publish. simpl. rewrite Ecur. unfold tgt.
        destruct (Z.eqb_spec (left - 1) 0) as [E1|E1];
          destruct (Z.eqb_spec (wrap64 (s + (N - left + 1))) (wrap64 (s + N)))
            as [E|E]; try reflexivity.
        - exfalso. apply E. f_equal. lia.
        - apply wrap64_inj_near in E; lia. }
      replace (left - calls_left t + calls_left t') with (left - 1) by lia.
      split; [|split; [lia|split; [|split]]].
      * eexists. rewrite Hbd, lookup_insert_eq. split; [reflexivity|].
        simpl. rewrite Ecur. f_equal. lia.
      * apply Forall_insert; [exact Hts|]. unfold in_round. simpl.
        split; [exact Hb|]. split; [exact Hbd|]. split; [exact Hls|].
        split; [exact Hk|]. right. eauto.
      * replace (left =? 0) with false in Hsum by (symmetry; apply Z.eqb_neq; lia).
        rewrite Ep1, Ep0. lia.
      * exact Hlog.
  - (* the increment is done *)
    unfold Arrive_publish. rewrite wrap64_int_to_u64, Hls. fold tgt.
    assert (Epend : pending_publish tgt t =
                    if wrap64 (cnt + 1) =? tgt then 1 else 0).
    { unfold pending_publish. rewrite Hpc. reflexivity. }
    destruct (wrap64 (cnt + 1) =? tgt) eqn:Eq.
    + apply Z.eqb_eq in Eq. unfold_res. unfold store_start. rewrite Hb, Hm.
      simpl. unfold round_inv. simpl. name_new_thread t'.
      rewrite !(total_insert _ _ _ _ _ Hi). fold left tgt.
      assert (El : calls_left t' = calls_left t) by reflexivity.
      assert (Ep1 : pending_publish tgt t' = 0) by reflexivity.
      rewrite El, Ep1, Epend.
      replace (left - calls_left t + calls_left t) with left by lia.
      split; [|split; [lia|split; [|split]]].
      * eexists. rewrite lookup_insert_eq. split; [reflexivity|]. exact Hc.
      * apply Forall_insert; [exact Hts|]. unfold in_round. simpl. auto 6.
      * rewrite length_app. simpl length. lia.
      * apply Forall_app. split; [exact Hlog|]. constructor; [|constructor].
        split; [reflexivity|exact Eq].
    + simpl. rewrite app_nil_r. unfold round_inv. simpl. name_new_thread t'.
      rewrite !(total_insert _ _ _ _ _ Hi). fold left tgt.
      assert (El : calls_left t' = calls_left t) by reflexivity.
      assert (Ep1 : pending_publish tgt t' = 0) by reflexivity.
      rewrite El, Ep1, Epend.
      replace (left - calls_left t + calls_left t) with left by lia.
      split; [|split; [lia|split; [|split]]].
      * eauto.
      * apply Forall_insert; [exact Hts|]. unfold in_round. simpl. auto 6.
      * lia.
      * exact Hlog.
Qed.

Lemma round_inv_exec b s N sched : ∀ σ,
  1 <= N < 2 ^ 64 → round_inv b s N σ → round_inv b s N (exec sched σ).
Proof.
  induction sched as [|i sched IH]; intros σ HN H; [exact H|].
  simpl. apply IH; [exact HN|]. apply round_inv_step; assumption.
Qed.

Lemma steps_left_nonneg t : 0 <= steps_left t.
Proof.
  unfold steps_left. pose proof (calls_left_nonneg t). destruct (th_pc t); lia.
Qed.

Lemma total_pos f (l : list thread) :
  (∀ t, 0 <= f t) → 0 < total f l → ∃ i t, l !! i = Some t ∧ 0 < f t.
Proof.
  intros Hf. induction l as [|x l IH]; simpl; [lia|]. intros H.
  destruct (Z_lt_le_dec 0 (f x)) as [Hx|Hx].
  - exists 0%nat, x. auto.
  - destruct IH as (i & t & Hi & Ht); [specialize (Hf x); lia|].
    exists (S i), t. auto.
Qed.

Lemma total_zero f (l : list thread) t :
  (∀ t, 0 <= f t) → total f l = 0 → t ∈ l → f t = 0.
Proof.
  intros Hf. induction l as [|x l IH]; simpl; intros H Hin.
  - inversion Hin.
  - pose proof (total_nonneg f l Hf). pose proof (Hf x).
    inversion Hin; subst; [lia|]. apply IH; [lia|assumption].
Qed.

(** A participant that is not finished takes a step that brings it
    closer to the end of its calls. *)
Lemma round_step_progress b s N σ i t :
  round_inv b s N σ → sys_threads σ !! i = Some t → 0 < steps_left t →
  total steps_left (sys_threads (step_sys i σ)) =
    total steps_left (sys_threads σ) - 1.
Proof.
  intros ((bar & Hm & Hc) & Hle & Hts & Hsum & Hlog) Hi Hpos.
  pose proof (Forall_lookup_1 _ _ _ _ Hts Hi) as (Hb & Hbd & Hls & Hp & Hpc).
  unfold bound_to in Hbd.
  unfold step_sys. rewrite Hi. unfold step_thread.
  destruct Hpc as [Hpc|[cnt Hpc]]; rewrite Hpc.
  - destruct (th_prog t) as [|c k] eqn:Ep.
    + exfalso. unfold steps_left, calls_left in Hpos. rewrite Hpc, Ep in Hpos.
      simpl in Hpos. lia.
    + inversion Hp as [|c' k' Hc' Hk]; subst c' k' c.
      unfold begin_Arrive.
      rewrite (load_increment_at (sys_mem σ) _ bar) by (rewrite Hbd; exact Hm).
      simpl. rewrite (total_insert _ _ _ _ _ Hi).
      unfold steps_left, calls_left. rewrite Hpc, Ep. simpl th_prog. simpl th_pc.
      simpl length. lia.
  - unfold Arrive_publish. unfold_res. unfold store_start. rewrite Hb, Hm.
    destruct (wrap64 (cnt + 1) =? _); simpl;
      rewrite (total_insert _ _ _ _ _ Hi);
      unfold steps_left, calls_left; rewrite Hpc; simpl; lia.
Qed.

Lemma round_can_finish b s N :
  1 <= N < 2 ^ 64 →
  ∀ n σ, round_inv b s N σ → total steps_left (sys_threads σ) = Z.of_nat n →
    ∃ sched, Forall finished (sys_threads (exec sched σ)).
Proof.
  intros HN. induction n as [|n IH]; intros σ Hinv Hn.
  - exists []. simpl. apply Forall_forall. intros t Hin.
    pose proof (total_zero steps_left _ t steps_left_nonneg Hn Hin) as Ht.
    destruct Hinv as (_ & _ & Hts & _).
    pose proof (proj1 (Forall_forall _ _) Hts t Hin) as (_ & _ & _ & _ & Hpc).
    unfold steps_left, calls_left in Ht. unfold finished.
    destruct Hpc as [Hpc|[cnt Hpc]]; rewrite Hpc in *.
    + split; [reflexivity|]. destruct (th_prog t); [reflexivity|].
      simpl in Ht. lia.
    + lia.
  - destruct (total_pos steps_left (sys_threads σ) steps_left_nonneg)
      as (i & t & Hi & Ht); [lia|].
    destruct (IH (step_sys i σ)) as [sched Hs].
    + apply round_inv_step; assumption.
    + rewrite (round_step_progress b s N σ i t Hinv Hi Ht). lia.
    + exists (i :: sched). exact Hs.
Qed.

Lemma round_store_step b s N m0 σ i :
  1 <= N < 2 ^ 64 → round_inv b s N σ →
  round_store b s N m0 σ → round_store b s N m0 (step_sys i σ).
Proof.
  intros HN ((bar & Hm & Hc) & _ & Hts & _ & _) ((bar0 & Hm0 & Hst) & Hfr).
  assert (bar0 = bar) as -> by congruence.
  unfold step_sys. destruct (sys_threads σ !! i) as [t|] eqn:Hi;
    [|split; [exists bar; auto|exact Hfr]].
  pose proof (Forall_lookup_1 _ _ _ _ Hts Hi) as (Hb & Hbd & Hls & Hp & Hpc).
  unfold bound_to in Hbd.
  unfold step_thread. destruct Hpc as [Hpc|[cnt Hpc]]; rewrite Hpc.
  - (* between calls: line 183 leaves [start] as it is *)
    destruct (th_prog t) as [|c k] eqn:Ep.
    + unfold round_store. cbn [sys_mem sys_log log_of]. rewrite app_nil_r.
      split; [exists bar; auto|exact Hfr].
    + inversion Hp as [|c' k' Hc' Hk]; subst c' k' c.
      unfold begin_Arrive.
      rewrite (load_increment_at (sys_mem σ) _ bar) by (rewrite Hbd; exact Hm).
      unfold round_store. cbn [sys_mem sys_log log_of]. rewrite app_nil_r. split.
      * eexists. rewrite Hbd, lookup_insert_eq. split; [reflexivity|exact Hst].
      * intros a Ha. rewrite Hbd, lookup_insert_ne by congruence. apply Hfr, Ha.
  - (* lines 184-189 *)
    unfold Arrive_publish. rewrite wrap64_int_to_u64, Hls.
    destruct (wrap64 (cnt + 1) =? wrap64 (s + N)) eqn:Eq.
    + apply Z.eqb_eq in Eq. unfold_res. unfold store_start. rewrite Hb, Hm.
      unfold round_store. cbn [sys_mem sys_log log_of]. split.
      * eexists. rewrite lookup_insert_eq. split; [reflexivity|].
        cbn [start]. rewrite Eq. destruct (sys_log σ); reflexivity.
      * intros a Ha. rewrite lookup_insert_ne by congruence. apply Hfr, Ha.
    + unfold round_store. cbn [sys_mem sys_log log_of]. rewrite app_nil_r.
      split; [exists bar; auto|exact Hfr].
Qed.

Lemma round_store_exec b s N m0 sched : ∀ σ,
  1 <= N < 2 ^ 64 → round_inv b s N σ →
  round_store b s N m0 σ → round_store b s N m0 (exec sched σ).
Proof.
  induction sched as [|i sched IH]; intros σ HN Hinv H; [exact H|].
  simpl. apply IH; [exact HN| |].
  - apply round_inv_step; assumption.
  - apply round_store_step; assumption.
Qed.

Lemma finished_totals tgt (l : list thread) :
  Forall finished l → total calls_left l = 0 ∧ total (pending_publish tgt) l = 0.
Proof.
  induction 1 as [|t l [Hpc Hp] _ [IH1 IH2]]; simpl; [auto|].
  unfold calls_left at 1, pending_publish at 1. rewrite Hpc, Hp. simpl.
  split; lia.
Qed.

(** C2. In a round that begins with [b.start = b.count = s], every
    participant's handle at [localStart = s], and [N >= 1] calls
    [Arrive (b, h, N)] to be made in all: under every schedule at most one
    store to [start] is made, and only of the value [s + N] (in 64 bits);
    in the store, [b.start] is [s] as long as no call has written it and
    [s + N] from then on, and every other barrier is as it was; when all
    the calls have returned exactly one call has stored to [b.start], the
    value [s + N], and the store has [b.start = b.count = s + N]; and the
    calls can always all return. *)
Theorem round_start_written_exactly_once b s N σ sched :
  u64 s → 1 <= N < 2 ^ 31 → round_begins b s N σ →
  (length (sys_log (exec sched σ)) ≤ 1)%nat ∧
  Forall (writes_target b (wrap64 (s + N))) (sys_log (exec sched σ)) ∧
  (∃ bar, sys_mem (exec sched σ) !! b = Some bar ∧
          start bar = match sys_log (exec sched σ) with
                      | [] => s
                      | _ => wrap64 (s + N)
                      end) ∧
  (∀ a, a ≠ b → sys_mem (exec sched σ) !! a = sys_mem σ !! a) ∧
  (Forall finished (sys_threads (exec sched σ)) →
   (∃ i, sys_log (exec sched σ) = [(i, b, wrap64 (s + N))]) ∧
   sys_mem (exec sched σ) !! b =
     Some (mkBarrier (wrap64 (s + N)) (wrap64 (s + N)))) ∧
  (∃ more, Forall finished (sys_threads (exec more (exec sched σ)))).
Proof.
  intros Hs HN Hbegin.
  assert (HN' : 1 <= N < 2 ^ 64) by lia.
  pose proof (round_inv_exec b s N sched σ HN'
                (round_begins_inv b s N σ Hs (proj1 HN) Hbegin)) as Hinv.
  assert (Hstore : round_store b s N (sys_mem σ) (exec sched σ)).
  { apply round_store_exec;
      [exact HN'|exact (round_begins_inv b s N σ Hs (proj1 HN) Hbegin)|].
    destruct Hbegin as (Hm0 & Hl0 & _). split; [|reflexivity].
    exists (mkBarrier s s). rewrite Hl0. split; [exact Hm0|reflexivity]. }
  destruct Hstore as ((bar1 & Hm1 & Hst1) & Hfr).
  pose proof Hinv as ((bar2 & Hm2 & Hc2) & _ & Hts & Hsum & Hlog).
  assert (bar2 = bar1) as -> by congruence.
  pose proof (total_nonneg (pending_publish (wrap64 (s + N)))
                (sys_threads (exec sched σ))) as Hp0.
  assert (Hlen : (length (sys_log (exec sched σ)) ≤ 1)%nat).
  { destruct (_ =? 0) in Hsum.
    - assert (0 <= total (pending_publish (wrap64 (s + N)))
                     (sys_threads (exec sched σ))); [|lia].
      apply Hp0. intros t. unfold pending_publish.
      destruct (th_pc t); try lia. destruct (_ =? _); lia.
    - assert (0 <= total (pending_publish (wrap64 (s + N)))
                     (sys_threads (exec sched σ))); [|lia].
      apply Hp0. intros t. unfold pending_publish.
      destruct (th_pc t); try lia. destruct (_ =? _); lia. }
  split; [exact Hlen|]. split; [exact Hlog|].
  split; [exists bar1; auto|]. split; [exact Hfr|]. split.
  - intros Hfin.
    destruct (finished_totals (wrap64 (s + N)) _ Hfin) as [E1 E2].
    rewrite E1 in Hc2. rewrite E1, E2 in Hsum. simpl in Hsum. clear Hlen.
    replace (s + (N - 0)) with (s + N) in Hc2 by lia.
    remember (sys_log (exec sched σ)) as lg eqn:El. clear El.
    destruct lg as [|[[i a] v] [|e l]]; simpl in Hsum; try lia.
    apply Forall_cons in Hlog as [[Ha Hv] _]. simpl in Ha, Hv. subst a v.
    split; [exists i; reflexivity|].
    rewrite Hm1. destruct bar1 as [st1 ct1]. simpl in Hst1, Hc2.
    rewrite Hst1, Hc2. reflexivity.
  - apply (round_can_finish b s N HN'
             (Z.to_nat (total steps_left (sys_threads (exec sched σ))))
             _ Hinv).
    pose proof (total_nonneg steps_left (sys_threads (exec sched σ))
                  steps_left_nonneg). lia.
Qed.

Lemma round_start_written_exactly_once_witness :
  let h := mkHandle 6 (mkPtr 1%positive 0) in
  let σ := mkSys {[ 1%positive := mkBarrier 6 6 ]}
             [ mkThread 1%positive 0 h Idle [Arrive 3; Arrive 3];
               mkThread 1%positive 1 h Idle [Arrive 3] ] [] in
  let sched := [0%nat; 1%nat; 1%nat; 0%nat; 0%nat] in
  Forall finished (sys_threads (exec (sched ++ [0%nat]) σ)) ∧
  (∃ i, sys_log (exec (sched ++ [0%nat]) σ) = [(i, 1%positive, wrap64 (6 + 3))]) ∧
  sys_mem (exec (sched ++ [0%nat]) σ) !! 1%positive =
    Some (mkBarrier (wrap64 (6 + 3)) (wrap64 (6 + 3))).
Proof.
  intros h σ sched.
  assert (Hfin : Forall finished (sys_threads (exec (sched ++ [0%nat]) σ))).
  { vm_compute. repeat constructor. }
  split; [exact Hfin|].
  apply (round_start_written_exactly_once 1%positive 6 3 σ (sched ++ [0%nat]));
    [unfold u64; lia | lia | | exact Hfin].
  unfold round_begins. split; [reflexivity|]. split; [reflexivity|].
  split; [|reflexivity]. unfold arrives_only, bound_to.
  repeat constructor.
Defined.

(** ** The invariant [count >= start] *)

Lemma mem_le_refl m : mem_le m m.
Proof. intros a bar H. exists bar. split; [exact H|lia]. Qed.

Lemma mem_le_insert m a bar bar' :
  m !! a = Some bar → count bar <= count bar' → mem_le m (<[a := bar']> m).
Proof.
  intros Hm Hc x barx Hx. destruct (decide (a = x)) as [->|Hne].
  - exists bar'. rewrite lookup_insert_eq. split; [reflexivity|]. congruence.
  - exists barx. rewrite lookup_insert_ne by exact Hne. split; [exact Hx|lia].
Qed.

Lemma thread_ok_mono m m' t : mem_le m m' → thread_ok m t → thread_ok m' t.
Proof.
  intros Hle [Hp Hpc]. split; [exact Hp|].
  destruct (th_pc t); try exact I.
  destruct Hpc as (Hb & bar & Hm & H0 & Hc). split; [exact Hb|].
  destruct (Hle _ _ Hm) as (bar' & Hm' & Hc'). exists bar'.
  split; [exact Hm'|]. lia.
Qed.

Lemma event_ok_mono m m' e : mem_le m m' → event_ok m e → event_ok m' e.
Proof.
  intros Hle (bar & Hm & Hc). destruct (Hle _ _ Hm) as (bar' & Hm' & Hc').
  exists bar'. split; [exact Hm'|]. lia.
Qed.

Lemma counters_ok_weaken r m : 0 <= r → counters_ok (r + 1) m → counters_ok r m.
Proof. intros Hr H a bar Ha. specialize (H a bar Ha). lia. Qed.

Lemma counters_ok_insert r m a bar :
  counters_ok r m →
  start bar <= count bar ∧ 0 <= count bar ∧ count bar + r < 2 ^ 64 →
  counters_ok r (<[a := bar]> m).
Proof.
  intros H Hbar x barx Hx. destruct (decide (a = x)) as [->|Hne].
  - rewrite lookup_insert_eq in Hx. injection Hx as <-. exact Hbar.
  - rewrite lookup_insert_ne in Hx by exact Hne. exact (H x barx Hx).
Qed.

(** The system after a step, from what the step did. *)
Lemma no_wrap_inv_update r σ i t m' t' w :
  0 <= r → no_wrap_inv (r + 1) σ →
  mem_le (sys_mem σ) m' → counters_ok r m' → thread_ok m' t' →
  Forall (event_ok m') (log_of i (th_b t) w) →
  no_wrap_inv r (mkSys m' (<[i := t']> (sys_threads σ))
                       (sys_log σ ++ log_of i (th_b t) w)).
Proof.
  intros Hr (Hc & Hts & Hlog) Hle Hc' Ht' Hw. split; [exact Hc'|]. split; simpl.
  - apply Forall_insert; [|exact Ht'].
    eapply Forall_impl; [exact Hts|]. intros x. apply thread_ok_mono, Hle.
  - apply Forall_app. split; [|exact Hw].
    eapply Forall_impl; [exact Hlog|]. intros x. apply event_ok_mono, Hle.
Qed.

Lemma is_bound_true t : is_bound t = true → l2_word (localCountPtr (th_h t)) = th_b t.
Proof. unfold is_bound. apply bool_decide_eq_true_1. Qed.

Lemma begin_Arrive_ok r m t n k m' t' w :
  0 <= r → counters_ok (r + 1) m →
  is_bound t = true → arrives_bound (is_bound t) k = true →
  arrives_bound (is_bound t) (th_prog t) = true →
  begin_Arrive m t n k = (m', t', w) →
  mem_le m m' ∧ counters_ok r m' ∧ thread_ok m' t' ∧ w = None.
Proof.
  intros Hr Hc Hb Hk Hp. unfold begin_Arrive, load_increment.
  pose proof (is_bound_true t Hb) as Eb.
  destruct (m !! l2_word (localCountPtr (th_h t))) as [bar|] eqn:Hm.
  - intros E. injection E as <- <- <-.
    destruct (Hc _ _ Hm) as (Hsc & H0 & Hlt).
    assert (Ew : wrap64 (count bar + 1) = count bar + 1).
    { apply wrap64_small. unfold u64. lia. }
    rewrite Ew. split; [|split; [|split; [|reflexivity]]].
    + eapply mem_le_insert; [exact Hm|]. simpl. lia.
    + apply counters_ok_insert; [apply counters_ok_weaken; assumption|].
      simpl. lia.
    + split; simpl.
      * exact Hk.
      * split; [exact Hb|]. rewrite <- Eb, lookup_insert_eq.
        eexists. split; [reflexivity|]. simpl. lia.
  - intros E. injection E as <- <- <-.
    split; [apply mem_le_refl|]. split; [apply counters_ok_weaken; assumption|].
    split; [|reflexivity]. split; [exact Hp|exact I].
Qed.

Lemma step_thread_ok r m t m' t' w i :
  0 <= r → counters_ok (r + 1) m → thread_ok m t →
  step_thread m t = (m', t', w) →
  mem_le m m' ∧ counters_ok r m' ∧ thread_ok m' t' ∧
  Forall (event_ok m') (log_of i (th_b t) w).
Proof.
  intros Hr Hc [Hp Hpc] Hs.
  assert (Hsame : (m', w) = (m, None) → thread_ok m t' →
            mem_le m m' ∧ counters_ok r m' ∧ thread_ok m' t' ∧
            Forall (event_ok m') (log_of i (th_b t) w)).
  { intros E Ht'. injection E as -> ->.
    split; [apply mem_le_refl|]. split; [apply counters_ok_weaken; assumption|].
    split; [exact Ht'|constructor]. }
  unfold step_thread in Hs. destruct (th_pc t) as [|cnt n|target|] eqn:Epc.
  - destruct (th_prog t) as [|[| n | n | n | n] k] eqn:Ep; simpl in Hp.
    + injection Hs as <- <- <-. apply Hsame; [reflexivity|].
      split; [rewrite Ep; reflexivity|rewrite Epc; exact I].
    + simpl in Hs. injection Hs as <- <- <-. apply Hsame; [reflexivity|].
      split; [|exact I]. simpl. unfold is_bound. simpl.
      rewrite bool_decide_eq_true_2 by reflexivity. exact Hp.
    + pose proof Hp as Hp0. apply andb_prop in Hp as [Hb Hk].
      destruct (begin_Arrive_ok r m t n k m' t' w Hr Hc Hb Hk) as (?&?&?&->);
        [rewrite Ep; exact Hp0 | exact Hs |].
      split; [assumption|]. split; [assumption|]. split; [assumption|].
      constructor.
    + simpl in Hs. injection Hs as <- <- <-. apply Hsame; [reflexivity|].
      split; [exact Hp|exact I].
    + simpl in Hs. injection Hs as <- <- <-. apply Hsame; [reflexivity|].
      split; [exact Hp|exact I].
    + pose proof Hp as Hp0. apply andb_prop in Hp as [Hb Hk].
      destruct (begin_Arrive_ok r m t n (WaitAndReset n :: k) m' t' w Hr Hc Hb Hk)
        as (?&?&?&->);
        [rewrite Ep; exact Hp0 | exact Hs |].
      split; [assumption|]. split; [assumption|]. split; [assumption|].
      constructor.
  - destruct Hpc as (Hb & bar & Hm & H0 & Hle).
    destruct (Hc _ _ Hm) as (Hsc & Hc0 & Hlt).
    unfold Arrive_publish in Hs.
    assert (Ew : wrap64 (cnt + 1) = cnt + 1).
    { apply wrap64_small. unfold u64. lia. }
    rewrite Ew in Hs. destruct (cnt + 1 =? _).
    + unfold_res. unfold store_start in Hs. rewrite Hm in Hs.
      injection Hs as <- <- <-.
      split; [eapply mem_le_insert; [exact Hm|simpl; lia]|].
      split; [apply counters_ok_insert;
                [apply counters_ok_weaken; assumption|simpl; lia]|].
      split; [split; [exact Hp|exact I]|].
      constructor; [|constructor]. unfold event_ok. simpl.
      rewrite lookup_insert_eq. eexists. split; [reflexivity|]. simpl. lia.
    + simpl in Hs. injection Hs as <- <- <-. apply Hsame; [reflexivity|].
      split; [exact Hp|exact I].
  - destruct (load_start m (th_b t)) as [v| |];
      [destruct (spin_test v target)|..];
      injection Hs as <- <- <-; apply Hsame; try reflexivity;
      (split; [exact Hp|]); simpl; try rewrite Epc; exact I.
  - injection Hs as <- <- <-. apply Hsame; [reflexivity|].
    split; [exact Hp|rewrite Epc; exact I].
Qed.

Lemma no_wrap_inv_step r σ i :
  0 <= r → no_wrap_inv (r + 1) σ → no_wrap_inv r (step_sys i σ).
Proof.
  intros Hr Hinv. pose proof Hinv as (Hc & Hts & Hlog). unfold step_sys.
  destruct (sys_threads σ !! i) as [t|] eqn:Hi.
  - destruct (step_thread (sys_mem σ) t) as [[m' t'] w] eqn:Hs.
    destruct (step_thread_ok r _ _ _ _ _ i Hr Hc (Forall_lookup_1 _ _ _ _ Hts Hi) Hs)
      as (Hle & Hc' & Ht' & Hw).
    apply no_wrap_inv_update; assumption.
  - split; [apply counters_ok_weaken; assumption|]. split; assumption.
Qed.

Lemma no_wrap_inv_exec sched : ∀ σ,
  no_wrap_inv (Z.of_nat (length sched)) σ → no_wrap_inv 0 (exec sched σ).
Proof.
  induction sched as [|i sched IH]; intros σ H; [exact H|].
  simpl. apply IH. apply no_wrap_inv_step; [lia|].
  replace (Z.of_nat (length sched) + 1) with (Z.of_nat (length (i :: sched)))
    by (simpl length; lia).
  exact H.
Qed.

(** C4, while no [count] wraps. After [Init] both counters are 0, so [count >= start];
    and from a store where every barrier has [count >= start], under every
    schedule of threads calling [InitInThread], [Arrive], [Reset],
    [WaitAndReset] and [Barrier] (each with a handle initialised for its
    barrier before it arrives), every barrier has [count >= start] and
    every value stored to a [start] is one its [count] has reached, as
    long as no [count] wraps: the schedule is shorter than the room left
    below [2^64]. *)
Theorem count_ge_start_until_wrap :
  (∀ m b m', L2_BarrierWithSync_Init m b = Ok m' →
             ∃ bar, m' !! b = Some bar ∧ start bar = 0 ∧ count bar = 0 ∧
                    count_ge_start bar) ∧
  (∀ sched σ,
     counters_ok (Z.of_nat (length sched)) (sys_mem σ) →
     Forall ready (sys_threads σ) → sys_log σ = [] →
     mem_ok (sys_mem (exec sched σ)) ∧
     Forall (event_ok (sys_mem (exec sched σ))) (sys_log (exec sched σ))).
Proof.
  split.
  - intros m b m'. unfold L2_BarrierWithSync_Init.
    destruct (m !! b); [|discriminate]. intros E. injection E as <-.
    exists (mkBarrier 0 0). rewrite lookup_insert_eq. unfold count_ge_start.
    simpl. repeat split; lia.
  - intros sched σ Hc Hts Hlog.
    destruct (no_wrap_inv_exec sched σ) as (Hc' & _ & Hlog').
    + split; [exact Hc|]. split; [|rewrite Hlog; constructor].
      eapply Forall_impl; [exact Hts|]. intros t [Hpc Hp].
      split; [exact Hp|rewrite Hpc; exact I].
    + split; [|exact Hlog']. intros a bar Ha. apply (Hc' a bar Ha).
Qed.

Lemma count_ge_start_until_wrap_witness :
  let h := mkHandle 5 (mkPtr 9%positive 0) in
  let m0 : gmap positive L2_Barrier_t := {[ 1%positive := mkBarrier 0 0 ]} in
  let σ := mkSys m0
             [ mkThread 1%positive 0 h Idle [InitInThread; Barrier 2];
               mkThread 1%positive 1 h Idle [InitInThread; Arrive 2; Reset 2] ] [] in
  let sched := [0%nat; 0%nat; 1%nat; 1%nat; 1%nat; 0%nat; 0%nat; 1%nat] in
  (∃ bar, m0 !! 1%positive = Some bar ∧ start bar = 0 ∧ count bar = 0 ∧
          count_ge_start bar) ∧
  mem_ok (sys_mem (exec sched σ)) ∧
  Forall (event_ok (sys_mem (exec sched σ))) (sys_log (exec sched σ)).
Proof.
  intros h m0 σ sched. split.
  - apply (proj1 count_ge_start_until_wrap {[ 1%positive := mkBarrier 7 3 ]}).
    reflexivity.
  - apply (proj2 count_ge_start_until_wrap sched σ).
    + intros a bar Ha. change (sys_mem σ) with m0 in Ha.
      apply lookup_singleton_Some in Ha as [_ <-].
      simpl. split; [lia|]. split; [lia|]. reflexivity.
    + repeat constructor.
    + reflexivity.
Defined.

(** *** What happens when [count] wraps *)

Lemma Arrive_first (h : L2_BarrierHandle_t) :
  h = mkHandle 0 (mkPtr 1%positive 0) →
  L2_BarrierWithSync_Arrive 1%positive 1 ({[ 1%positive := mkBarrier 0 0 ]}, h) =
    Ok ({[ 1%positive := mkBarrier 1 1 ]}, h).
Proof. intros ->. reflexivity. Qed.

(** Once [start] is 1, arrivals of a thread that never advances its
    [localStart] only count. *)
Lemma Arrive_past_target (h : L2_BarrierHandle_t) :
  h = mkHandle 0 (mkPtr 1%positive 0) →
  ∀ (k : nat) (c : Z), 1 <= c → c + Z.of_nat k < 2 ^ 64 →
    Arrive_times k 1%positive 1 ({[ 1%positive := mkBarrier 1 c ]}, h) =
      Ok ({[ 1%positive := mkBarrier 1 (c + Z.of_nat k) ]}, h).
Proof.
  intros Eh. induction k as [|k IH]; intros c Hc Hk.
  - cbn [Arrive_times]. rewrite Nat2Z.inj_0, Z.add_0_r. reflexivity.
  - cbn [Arrive_times].
    rewrite (Arrive_at _ 1%positive (mkBarrier 1 c) h 1)
      by (subst h; first [apply lookup_singleton_eq | reflexivity]).
    unfold_res. rewrite insert_singleton_eq.
    cbn [count start]. rewrite Eh at 1. cbn [localStart].
    rewrite (wrap64_small (c + 1)) by (unfold u64; lia).
    rewrite (wrap64_small (0 + 1)) by (unfold u64; lia).
    replace (c + 1 =? 0 + 1) with false by (symmetry; apply Z.eqb_neq; lia).
    rewrite IH by lia. do 3 f_equal. f_equal. lia.
Qed.

(** After [Init], [2^64 - 1] calls of [Arrive (b, h, 1)] by a thread that
    does not reset its handle leave [count = 2^64 - 1 >= start = 1]; the
    next one wraps [count] to [0], below [start]. *)
Lemma count_ge_start_lost_at_wrap :
  let h := mkHandle 0 (mkPtr 1%positive 0) in
  ∃ m0 m1 m2 : gmap positive L2_Barrier_t,
    L2_BarrierWithSync_Init {[ 1%positive := mkBarrier 7 3 ]} 1%positive = Ok m0 ∧
    Arrive_times (Z.to_nat (2 ^ 64 - 1)) 1%positive 1 (m0, h) = Ok (m1, h) ∧
    mem_ok m1 ∧
    L2_BarrierWithSync_Arrive 1%positive 1 (m1, h) = Ok (m2, h) ∧
    ¬ mem_ok m2.
Proof.
  intros h.
  exists {[ 1%positive := mkBarrier 0 0 ]},
         {[ 1%positive := mkBarrier 1 (2 ^ 64 - 1) ]},
         {[ 1%positive := mkBarrier 1 0 ]}.
  split; [reflexivity|]. split; [|split; [|split]].
  - replace (Z.to_nat (2 ^ 64 - 1)) with (S (Z.to_nat (2 ^ 64 - 2))) by lia.
    cbn [Arrive_times]. rewrite (Arrive_first h eq_refl). unfold_res.
    rewrite (Arrive_past_target h eq_refl) by lia.
    rewrite Z2Nat.id by lia. reflexivity.
  - intros a bar Ha. apply lookup_singleton_Some in Ha as [_ <-].
    unfold count_ge_start. simpl. lia.
  - rewrite (Arrive_at _ 1%positive (mkBarrier 1 (2 ^ 64 - 1)) h 1)
      by first [apply lookup_singleton_eq | reflexivity].
    rewrite insert_singleton_eq. reflexivity.
  - intros H.
    specialize (H 1%positive (mkBarrier 1 0) (lookup_singleton_eq _ _)).
    unfold count_ge_start in H. simpl in H. lia.
Qed.

(** ** Rounds of one thread *)

Lemma rounds_nonneg p : 0 <= rounds p.
Proof. induction p as [|[| n | n | n | n] k IH]; simpl; lia. Qed.

Lemma wrap64_advance r n :
  wrap64 (wrap64 (r * n) + int_to_u64 n) = wrap64 ((r + 1) * n).
Proof.
  rewrite wrap64_int_to_u64. unfold wrap64.
  rewrite Zplus_mod_idemp_l. f_equal. lia.
Qed.

Lemma rounds_inv_faulted n R0 t : rounds_inv n R0 t → rounds_inv n R0 (faulted t).
Proof.
  intros (Hp & Hle & Hls & Hw). split; [exact Hp|]. split; [exact Hle|].
  split; [exact Hls|]. discriminate.
Qed.

Lemma begin_Arrive_rounds n R0 m t e k m' t' w :
  rounds_inv n R0 t → Forall (round_call n) k → rounds k = rounds (th_prog t) →
  begin_Arrive m t e k = (m', t', w) →
  rounds_inv n R0 t' ∧ th_b t' = th_b t.
Proof.
  intros Hinv Hk Er. pose proof Hinv as (Hp & Hle & Hls & Hw).
  unfold begin_Arrive.
  destruct (load_increment m _) as [[c m1]| |]; intros Hs;
    injection Hs as <- <- <-; (split; [|reflexivity]);
    try (apply rounds_inv_faulted; exact Hinv).
  unfold rounds_inv. simpl. rewrite Er.
  split; [exact Hk|]. split; [exact Hle|]. split; [exact Hls|]. discriminate.
Qed.

Lemma step_thread_rounds n R0 m t m' t' w :
  rounds_inv n R0 t → step_thread m t = (m', t', w) →
  rounds_inv n R0 t' ∧ th_b t' = th_b t.
Proof.
  intros Hinv Hs. pose proof Hinv as (Hp & Hle & Hls & Hw).
  unfold step_thread in Hs.
  destruct (th_pc t) as [|cnt e|target|] eqn:Epc.
  - destruct (th_prog t) as [|c k] eqn:Ep.
    + injection Hs as <- <- <-. split; [exact Hinv|reflexivity].
    + apply Forall_cons in Hp as [Hc Hk].
      pose proof (rounds_nonneg k) as Hk0.
      destruct Hc as [-> | [-> | [-> | ->]]]; simpl in Hle, Hls.
      * apply (begin_Arrive_rounds n R0 m t n k m' t' w Hinv Hk);
          [rewrite Ep; reflexivity|exact Hs].
      * simpl in Hs. injection Hs as <- <- <-. split; [|reflexivity].
        unfold rounds_inv. simpl. split; [exact Hk|]. split; [lia|].
        split; [|discriminate].
        rewrite Hls, wrap64_advance. f_equal. lia.
      * simpl in Hs. injection Hs as <- <- <-. split; [|reflexivity].
        unfold rounds_inv. simpl. split; [exact Hk|]. split; [lia|].
        split; [|intros tg E; injection E as <-; reflexivity].
        rewrite Hls, wrap64_advance. f_equal. lia.
      * apply (begin_Arrive_rounds n R0 m t n (WaitAndReset n :: k) m' t' w Hinv);
          [|rewrite Ep; reflexivity|exact Hs].
        constructor; [|exact Hk]. right. right. left. reflexivity.
  - unfold Arrive_publish in Hs. unfold_res.
    destruct (_ =? _); [destruct (store_start m (th_b t) _)|];
      simpl in Hs; injection Hs as <- <- <-; (split; [|reflexivity]);
      try (apply rounds_inv_faulted; exact Hinv);
      unfold rounds_inv; simpl;
      (split; [exact Hp|]); (split; [exact Hle|]); (split; [exact Hls|]);
      discriminate.
  - destruct (load_start m (th_b t)) as [v| |];
      [destruct (spin_test v target)|..];
      injection Hs as <- <- <-; (split; [|reflexivity]);
      try (apply rounds_inv_faulted; exact Hinv); try exact Hinv.
    unfold rounds_inv; simpl.
    split; [exact Hp|]. split; [exact Hle|]. split; [exact Hls|]. discriminate.
  - injection Hs as <- <- <-. split; [exact Hinv|reflexivity].
Qed.

Lemma step_sys_lookup_ne i j σ :
  i ≠ j → sys_threads (step_sys j σ) !! i = sys_threads σ !! i.
Proof.
  intros Hne. unfold step_sys. destruct (sys_threads σ !! j) as [t|]; [|reflexivity].
  destruct (step_thread (sys_mem σ) t) as [[m' t'] w]. simpl.
  apply list_lookup_insert_ne. congruence.
Qed.

Lemma step_sys_lookup_eq i σ t :
  sys_threads σ !! i = Some t →
  ∃ m' t' w, step_thread (sys_mem σ) t = (m', t', w) ∧
             sys_threads (step_sys i σ) !! i = Some t' ∧
             sys_mem (step_sys i σ) = m'.
Proof.
  intros Hi. unfold step_sys. rewrite Hi.
  destruct (step_thread (sys_mem σ) t) as [[m' t'] w]. exists m', t', w.
  simpl. split; [reflexivity|]. split; [|reflexivity].
  apply list_lookup_insert_eq. eapply lookup_lt_Some, Hi.
Qed.

Lemma rounds_inv_exec n R0 i sched : ∀ σ t,
  sys_threads σ !! i = Some t → rounds_inv n R0 t →
  ∃ t', sys_threads (exec sched σ) !! i = Some t' ∧ rounds_inv n R0 t' ∧
        th_b t' = th_b t.
Proof.
  induction sched as [|j sched IH]; intros σ t Hi Hinv; [eauto|].
  simpl. destruct (decide (i = j)) as [<-|Hne].
  - destruct (step_sys_lookup_eq i σ t Hi) as (m' & t' & w & Hs & Hi' & _).
    destruct (step_thread_rounds n R0 _ _ _ _ _ Hinv Hs) as [Hinv' Eb].
    destruct (IH _ _ Hi' Hinv') as (t'' & ? & ? & ?).
    exists t''. split; [assumption|]. split; [assumption|]. congruence.
  - apply (IH (step_sys j σ) t); [|exact Hinv].
    rewrite step_sys_lookup_ne by exact Hne. exact Hi.
Qed.

(** C7, with [start >= localStart] at the return of [WaitAndReset]. A
    thread that starts with [localStart = 0], as
    [InitInThread] leaves it, and makes its calls with the same [eventNum]
    without initialising the handle again, under every schedule and
    whatever the other threads do: once it has begun to close [r] rounds
    (by [Reset], [WaitAndReset] or [Barrier]) its [localStart] is
    [r * eventNum] (in 64 bits); and when its step leaves the loop of
    [WaitAndReset], [b.start >= localStart] holds in the store of that
    moment. Nothing is said of [b.start] after a [Reset]. *)
Theorem rounds_advance_localStart eventNum sched σ i t :
  sys_threads σ !! i = Some t → th_pc t = Idle → localStart (th_h t) = 0 →
  Forall (round_call eventNum) (th_prog t) →
  ∃ t', sys_threads (exec sched σ) !! i = Some t' ∧
        let r := rounds (th_prog t) - rounds (th_prog t') in
        0 <= r <= rounds (th_prog t) ∧
        localStart (th_h t') = wrap64 (r * eventNum) ∧
        ∀ target t'',
          th_pc t' = Waiting target →
          sys_threads (step_sys i (exec sched σ)) !! i = Some t'' →
          th_pc t'' = Idle →
          ∃ bar, sys_mem (step_sys i (exec sched σ)) !! th_b t'' = Some bar ∧
                 localStart (th_h t'') <= start bar.
Proof.
  intros Hi Hpc Hls Hp.
  assert (Hinv : rounds_inv eventNum (rounds (th_prog t)) t).
  { split; [exact Hp|]. split; [lia|]. split.
    - rewrite Hls, Z.sub_diag. reflexivity.
    - intros tg. rewrite Hpc. discriminate. }
  destruct (rounds_inv_exec _ _ i sched σ t Hi Hinv)
    as (t' & Hi' & (Hp' & Hle & Hls' & Hw) & Eb).
  exists t'. split; [exact Hi'|]. pose proof (rounds_nonneg (th_prog t')).
  split; [lia|]. split; [exact Hls'|].
  intros target t'' Ew Hi'' Hidle.
  destruct (step_sys_lookup_eq i _ t' Hi') as (m' & t1 & w & Hs & Hi1 & Em).
  rewrite Hi'' in Hi1. injection Hi1 as <-. rewrite Em.
  unfold step_thread in Hs. rewrite Ew in Hs. unfold load_start in Hs.
  destruct (sys_mem (exec sched σ) !! th_b t') as [bar|] eqn:Hm.
  - unfold spin_test in Hs. destruct (start bar <? target) eqn:Hlt;
      injection Hs as <- <- <-.
    + rewrite Ew in Hidle. discriminate.
    + simpl. exists bar. split; [exact Hm|].
      apply Z.ltb_ge in Hlt. rewrite <- (Hw target Ew). exact Hlt.
  - injection Hs as <- <- <-. discriminate.
Qed.

Lemma rounds_advance_localStart_witness :
  let h := mkHandle 0 (mkPtr 1%positive 0) in
  let σ := mkSys {[ 1%positive := mkBarrier 0 0 ]}
             [ mkThread 1%positive 0 h Idle [Arrive 2; Reset 2; Barrier 2];
               mkThread 1%positive 1 h Idle
                 [Arrive 2; WaitAndReset 2; Arrive 2; WaitAndReset 2] ] [] in
  let sched :=
    [1%nat; 1%nat; 1%nat; 0%nat; 0%nat; 0%nat; 1%nat; 1%nat; 1%nat; 1%nat;
     0%nat; 1%nat; 0%nat; 0%nat; 1%nat] in
  ∃ t', sys_threads (exec sched σ) !! 1%nat = Some t' ∧
        localStart (th_h t') = wrap64 ((2 - rounds (th_prog t')) * 2).
Proof.
  intros h σ sched.
  destruct (rounds_advance_localStart 2 sched σ 1%nat
              (mkThread 1%positive 1 h Idle
                 [Arrive 2; WaitAndReset 2; Arrive 2; WaitAndReset 2]))
    as (t' & Hi & _ & Hls & _).
  - reflexivity.
  - reflexivity.
  - reflexivity.
  - repeat first [apply Forall_nil_2
                 | apply Forall_cons_2; [unfold round_call; auto 6|]].
  - exists t'. split; [exact Hi|exact Hls].
Defined.

(** Two producers of a round of two arrivals; the first arrives and
    resets before the second has arrived: it has closed one round,
    [localStart = 1 * 2], and [b.start] is still 0. *)
Lemma Reset_returns_before_start_advances :
  let h := mkHandle 0 (mkPtr 1%positive 0) in
  let σ := mkSys {[ 1%positive := mkBarrier 0 0 ]}
             [ mkThread 1%positive 0 h Idle [Arrive 2; Reset 2];
               mkThread 1%positive 1 h Idle [Arrive 2; Reset 2] ] [] in
  let σ' := exec [0%nat; 0%nat; 0%nat] σ in
  ∃ t bar, sys_threads σ' !! 0%nat = Some t ∧ finished t ∧
           rounds [Arrive 2; Reset 2] = 1 ∧
           localStart (th_h t) = 1 * 2 ∧
           sys_mem σ' !! th_b t = Some bar ∧
           ¬ (start bar >= localStart (th_h t)).
Proof.
  intros h σ σ'.
  exists (mkThread 1%positive 0 (mkHandle 2 (mkPtr 1%positive 0)) Idle []),
         (mkBarrier 0 1).
  split; [reflexivity|]. split; [split; reflexivity|].
  split; [reflexivity|]. split; [reflexivity|]. split; [reflexivity|].
  simpl. lia.
Qed.

(** ** A team of threads at a barrier, round after round *)

Lemma arrivals_left_replicate N k :
  arrivals_left (replicate k (Barrier N)) = Z.of_nat k.
Proof. induction k as [|k IH]; [reflexivity|]. cbn [replicate arrivals_left]. lia. Qed.

Lemma rounds_replicate N k : rounds (replicate k (Barrier N)) = Z.of_nat k.
Proof. induction k as [|k IH]; [reflexivity|]. cbn [replicate rounds]. lia. Qed.

Lemma work_of_replicate N k : work_of (replicate k (Barrier N)) = 4 * Z.of_nat k.
Proof. induction k as [|k IH]; [reflexivity|]. cbn [replicate work_of]. lia. Qed.

Lemma total_le f (l : list thread) B :
  Forall (λ t, f t <= B) l → total f l <= B * Z.of_nat (length l).
Proof.
  induction 1 as [|t l Ht _ IH]; simpl; [lia|].
  replace (Z.pos (Pos.of_succ_nat (length l))) with (Z.of_nat (length l) + 1) by lia.
  lia.
Qed.

Lemma total_ge_all f (l : list thread) B :
  Forall (λ t, B <= f t) l → B * Z.of_nat (length l) <= total f l.
Proof.
  induction 1 as [|t l Ht _ IH]; simpl; [lia|].
  replace (Z.pos (Pos.of_succ_nat (length l))) with (Z.of_nat (length l) + 1) by lia.
  lia.
Qed.

Lemma total_le_at f (l : list thread) B i t :
  Forall (λ t, f t <= B) l → l !! i = Some t →
  total f l <= B * Z.of_nat (length l) - (B - f t).
Proof.
  intros H. revert i. induction H as [|x l Hx Hl IH]; intros [|i] Hi;
    simpl in *; try discriminate.
  - injection Hi as ->. pose proof (total_le f l B Hl).
    replace (Z.pos (Pos.of_succ_nat (length l))) with (Z.of_nat (length l) + 1) by lia.
    lia.
  - specialize (IH i Hi).
    replace (Z.pos (Pos.of_succ_nat (length l))) with (Z.of_nat (length l) + 1) by lia.
    lia.
Qed.

Lemma total_eq_max f (l : list thread) B :
  Forall (λ t, f t <= B) l → total f l = B * Z.of_nat (length l) →
  Forall (λ t, f t = B) l.
Proof.
  induction 1 as [|x l Hx Hl IH]; simpl; intros E; [constructor|].
  pose proof (total_le f l B Hl).
  replace (Z.pos (Pos.of_succ_nat (length l))) with (Z.of_nat (length l) + 1) in E by lia.
  constructor; [lia|]. apply IH. lia.
Qed.

Lemma total_all (f : thread → Z) (l : list thread) B :
  Forall (λ t, f t = B) l → total f l = B * Z.of_nat (length l).
Proof.
  induction 1 as [|x l Hx Hl IH]; simpl; [lia|].
  replace (Z.pos (Pos.of_succ_nat (length l))) with (Z.of_nat (length l) + 1) by lia.
  lia.
Qed.

Lemma pending_publish_nonneg tgt t : 0 <= pending_publish tgt t.
Proof.
  unfold pending_publish. destruct (th_pc t); try lia. destruct (_ =? _); lia.
Qed.

(** What a thread of the team has arrived at, by where it stands. *)
Lemma team_thread_arrived b N R p t :
  team_thread b N R p t →
  p <= arrived (Z.of_nat R) t <= p + 1 ∧ arrived (Z.of_nat R) t <= Z.of_nat R.
Proof.
  unfold arrived.
  intros [Hb Hpc Hp ->|k Hb Hbd Hpc Hp Ea Hls
         |k c a Hb Hbd Hpc Hp Ea Ha H1 Hls Hc0 Hc Hne
         |k a Hb Hbd Hpc Hp Ea Ha H1 Hls
         |k a Hb Hbd Hpc Hp Ea Ha H1 Hls]; rewrite Hp;
    cbn [arrivals_left]; rewrite arrivals_left_replicate; lia.
Qed.

Lemma team_thread_passed b N R p t :
  team_thread b N R p t → passed (Z.of_nat R) t <= p.
Proof.
  unfold passed.
  intros [Hb Hpc Hp ->|k Hb Hbd Hpc Hp Ea Hls
         |k c a Hb Hbd Hpc Hp Ea Ha H1 Hls Hc0 Hc Hne
         |k a Hb Hbd Hpc Hp Ea Ha H1 Hls
         |k a Hb Hbd Hpc Hp Ea Ha H1 Hls]; rewrite Hp, Hpc;
    cbn [rounds]; rewrite rounds_replicate; lia.
Qed.


(** *** The steps of a thread, by where it stands *)

Lemma step_thread_nil m t :
  th_pc t = Idle → th_prog t = [] → step_thread m t = (m, t, None).
Proof. intros Hpc Hp. unfold step_thread. rewrite Hpc, Hp. reflexivity. Qed.

Lemma step_thread_InitInThread m t k :
  th_pc t = Idle → th_prog t = InitInThread :: k →
  step_thread m t =
    (m, mkThread (th_b t) (th_tid t) (mkHandle 0 (mkPtr (th_b t) (th_tid t))) Idle k,
     None).
Proof. intros Hpc Hp. unfold step_thread. rewrite Hpc, Hp. reflexivity. Qed.

Lemma step_thread_Barrier m t n k bar :
  th_pc t = Idle → th_prog t = Barrier n :: k →
  m !! l2_word (localCountPtr (th_h t)) = Some bar →
  step_thread m t =
    (<[l2_word (localCountPtr (th_h t)) :=
         mkBarrier (start bar) (wrap64 (count bar + 1))]> m,
     mkThread (th_b t) (th_tid t) (th_h t) (Arrive_loaded (count bar) n)
       (WaitAndReset n :: k),
     None).
Proof.
  intros Hpc Hp Hm. unfold step_thread. rewrite Hpc, Hp. unfold begin_Arrive.
  rewrite (load_increment_at _ _ _ Hm). reflexivity.
Qed.

Lemma step_thread_Arrive m t n k bar :
  th_pc t = Idle → th_prog t = Arrive n :: k →
  m !! l2_word (localCountPtr (th_h t)) = Some bar →
  step_thread m t =
    (<[l2_word (localCountPtr (th_h t)) :=
         mkBarrier (start bar) (wrap64 (count bar + 1))]> m,
     mkThread (th_b t) (th_tid t) (th_h t) (Arrive_loaded (count bar) n) k,
     None).
Proof.
  intros Hpc Hp Hm. unfold step_thread. rewrite Hpc, Hp. unfold begin_Arrive.
  rewrite (load_increment_at _ _ _ Hm). reflexivity.
Qed.

Lemma step_thread_publish m t c n bar :
  th_pc t = Arrive_loaded c n → m !! th_b t = Some bar →
  step_thread m t =
    if wrap64 (c + 1) =? wrap64 (localStart (th_h t) + n)
    then (<[th_b t := mkBarrier (wrap64 (c + 1)) (count bar)]> m,
          mkThread (th_b t) (th_tid t) (th_h t) Idle (th_prog t),
          Some (wrap64 (c + 1)))
    else (m, mkThread (th_b t) (th_tid t) (th_h t) Idle (th_prog t), None).
Proof.
  intros Hpc Hm. unfold step_thread. rewrite Hpc. unfold Arrive_publish.
  rewrite wrap64_int_to_u64. destruct (_ =? _); [|reflexivity].
  unfold_res. unfold store_start. rewrite Hm. reflexivity.
Qed.

Lemma step_thread_WaitAndReset m t n k :
  th_pc t = Idle → th_prog t = WaitAndReset n :: k →
  step_thread m t =
    (m, mkThread (th_b t) (th_tid t)
          (mkHandle (wrap64 (localStart (th_h t) + n)) (localCountPtr (th_h t)))
          (Waiting (wrap64 (localStart (th_h t) + n))) k,
     None).
Proof.
  intros Hpc Hp. unfold step_thread. rewrite Hpc, Hp. unfold advance_localStart.
  rewrite wrap64_int_to_u64. reflexivity.
Qed.

Lemma step_thread_Reset m t n k :
  th_pc t = Idle → th_prog t = Reset n :: k →
  step_thread m t =
    (m, mkThread (th_b t) (th_tid t)
          (mkHandle (wrap64 (localStart (th_h t) + n)) (localCountPtr (th_h t)))
          Idle k,
     None).
Proof.
  intros Hpc Hp. unfold step_thread. rewrite Hpc, Hp.
  unfold L2_BarrierWithSync_Reset, advance_localStart.
  rewrite wrap64_int_to_u64. reflexivity.
Qed.

Lemma step_thread_Waiting m t target bar :
  th_pc t = Waiting target → m !! th_b t = Some bar →
  step_thread m t =
    if start bar <? target then (m, t, None)
    else (m, mkThread (th_b t) (th_tid t) (th_h t) Idle (th_prog t), None).
Proof.
  intros Hpc Hm. unfold step_thread. rewrite Hpc. unfold load_start, spin_test.
  rewrite Hm. reflexivity.
Qed.

Lemma step_sys_at i σ t m' t' w :
  sys_threads σ !! i = Some t → step_thread (sys_mem σ) t = (m', t', w) →
  step_sys i σ =
    mkSys m' (<[i := t']> (sys_threads σ)) (sys_log σ ++ log_of i (th_b t) w).
Proof. intros Hi Hs. unfold step_sys. rewrite Hi, Hs. reflexivity. Qed.

Lemma step_sys_stutter i σ t :
  sys_threads σ !! i = Some t → step_thread (sys_mem σ) t = (sys_mem σ, t, None) →
  step_sys i σ = σ.
Proof.
  intros Hi Hs. rewrite (step_sys_at _ _ _ _ _ _ Hi Hs). simpl.
  rewrite app_nil_r, list_insert_id by exact Hi. destruct σ; reflexivity.
Qed.

Lemma work_of_nonneg p : 0 <= work_of p.
Proof. induction p as [|[| n | n | n | n] k IH]; simpl; lia. Qed.

Lemma work_left_nonneg t : 0 <= work_left t.
Proof.
  unfold work_left. pose proof (work_of_nonneg (th_prog t)).
  destruct (th_pc t); lia.
Qed.

(** A step that is not a repeated reading, and does not fault, is one of
    the steps counted by [work_left]. *)
Lemma work_left_step m t m' t' w :
  step_thread m t = (m', t', w) → runnable m t = true → th_pc t' ≠ Faulted →
  work_left t' = work_left t - 1.
Proof.
  unfold step_thread, runnable, work_left. intros Hs Hr Hf.
  destruct (th_pc t) as [|c n|target|] eqn:Hpc.
  - destruct (th_prog t) as [|[| n | n | n | n] k] eqn:Hp; try discriminate;
      simpl in Hs; try (injection Hs as <- <- <-; simpl; lia);
      unfold begin_Arrive in Hs;
      (destruct (load_increment m _) as [[c m1]| |];
       injection Hs as <- <- <-; simpl in *; [lia|congruence..]).
  - destruct (Arrive_publish (th_b t) n c (m, th_h t)) as [[[m1 h1] w1]| |];
      injection Hs as <- <- <-; simpl in *; [lia|congruence..].
  - unfold load_start in Hs. destruct (m !! th_b t) as [bar|].
    + destruct (spin_test (start bar) target); [discriminate|].
      injection Hs as <- <- <-. simpl. lia.
    + injection Hs as <- <- <-. simpl in Hf. congruence.
  - discriminate.
Qed.


(** *** The invariant of the team *)

Section Team.
Variables (b : positive) (N : Z) (R : nat).
Hypothesis HN : 1 <= N.
Hypothesis HR : Z.of_nat R * N < 2 ^ 64.

Lemma team_small a : 0 <= a <= Z.of_nat R → wrap64 (a * N) = a * N.
Proof. intros Ha. apply wrap64_small. unfold u64. nia. Qed.

Lemma team_small_le c a :
  0 <= c → c <= a * N → a <= Z.of_nat R → wrap64 c = c.
Proof. intros H0 Hc Ha. apply wrap64_small. unfold u64. nia. Qed.

Lemma team_bounds p σ :
  team_at b N R p σ →
  p * N <= total (arrived (Z.of_nat R)) (sys_threads σ) <= (p + 1) * N.
Proof.
  intros (Hp & Hm & Hlen & Hts & _). rewrite <- Hlen. split.
  - apply total_ge_all. eapply Forall_impl; [exact Hts|].
    intros t Ht. apply (team_thread_arrived _ _ _ _ _ Ht).
  - apply total_le. eapply Forall_impl; [exact Hts|].
    intros t Ht. apply (team_thread_arrived _ _ _ _ _ Ht).
Qed.

(** A step that touches neither the store nor the counts. *)
Lemma team_at_local p σ i t t' :
  team_at b N R p σ → sys_threads σ !! i = Some t →
  team_thread b N R p t' →
  arrived (Z.of_nat R) t' = arrived (Z.of_nat R) t →
  pending_publish ((p + 1) * N) t' = pending_publish ((p + 1) * N) t →
  team_at b N R p (mkSys (sys_mem σ) (<[i := t']> (sys_threads σ)) (sys_log σ ++ [])).
Proof.
  intros (Hp & Hm & Hlen & Hts & Hpend & Hlog & Hlb) Hi Ht' Ea Epend.
  unfold team_at, stored_values. simpl.
  rewrite !(total_insert _ _ _ _ _ Hi), Ea, Epend, length_insert, app_nil_r.
  replace (total (arrived (Z.of_nat R)) (sys_threads σ) - arrived (Z.of_nat R) t +
           arrived (Z.of_nat R) t)
    with (total (arrived (Z.of_nat R)) (sys_threads σ)) by lia.
  replace (total (pending_publish ((p + 1) * N)) (sys_threads σ) -
           pending_publish ((p + 1) * N) t + pending_publish ((p + 1) * N) t)
    with (total (pending_publish ((p + 1) * N)) (sys_threads σ)) by lia.
  split; [exact Hp|]. split; [exact Hm|]. split; [exact Hlen|].
  split; [apply Forall_insert; assumption|]. split; [exact Hpend|].
  split; [exact Hlog|exact Hlb].
Qed.

(** When the round [p + 1] is complete, the threads stand in it as in a
    round just reached. *)
Lemma team_thread_next p t :
  0 <= p → team_thread b N R p t →
  arrived (Z.of_nat R) t = p + 1 → pending_publish ((p + 1) * N) t = 0 →
  team_thread b N R (p + 1) t.
Proof.
  intros Hp0 Ht Ea Epend. pose proof Ea as Ea'. unfold arrived in Ea'.
  destruct Ht as [Hb Hpc Hp ->|k Hb Hbd Hpc Hp Ek Hls
         |k c a Hb Hbd Hpc Hp Ek Ha H1 Hls Hc0 Hc Hne
         |k a Hb Hbd Hpc Hp Ek Ha H1 Hls
         |k a Hb Hbd Hpc Hp Ek Ha H1 Hls];
    rewrite Hp in Ea'; cbn [arrivals_left] in Ea';
    rewrite arrivals_left_replicate in Ea'; try lia.
  - assert (Ea1 : a = p + 1) by lia. revert Ek. subst a. intros Ek.
    apply (tt_loaded b N R (p + 1) t k c (p + 1)); try assumption; try lia.
    intros _ E. unfold pending_publish in Epend. rewrite Hpc in Epend.
    rewrite (team_small_le (c + 1) (p + 1)) in Epend by lia.
    rewrite E, Z.eqb_refl in Epend. discriminate.
  - assert (Ea1 : a = p + 1) by lia. revert Ek. subst a. intros Ek.
    apply (tt_arrived b N R (p + 1) t k (p + 1)); try assumption; lia.
  - assert (Ea1 : a = p + 1) by lia. revert Ek. subst a. intros Ek.
    apply (tt_waiting b N R (p + 1) t k (p + 1)); try assumption; lia.
Qed.

(** In a round just reached nobody holds the value that completes the
    next one. *)
Lemma team_thread_no_pending p t :
  0 <= p → team_thread b N R p t → arrived (Z.of_nat R) t = p →
  pending_publish ((p + 1) * N) t = 0.
Proof.
  intros Hp0 Ht Ea. pose proof Ea as Ea'. unfold arrived in Ea'.
  unfold pending_publish.
  destruct Ht as [Hb Hpc Hp ->|k Hb Hbd Hpc Hp Ek Hls
         |k c a Hb Hbd Hpc Hp Ek Ha H1 Hls Hc0 Hc Hne
         |k a Hb Hbd Hpc Hp Ek Ha H1 Hls
         |k a Hb Hbd Hpc Hp Ek Ha H1 Hls];
    rewrite Hpc; try reflexivity.
  rewrite Hp in Ea'. cbn [arrivals_left] in Ea'.
  rewrite arrivals_left_replicate in Ea'. assert (Ea1 : a = p) by lia. revert Ek. subst a. intros Ek.
  rewrite (team_small_le (c + 1) p) by lia.
  destruct (Z.eqb_spec (c + 1) ((p + 1) * N)) as [E|E]; [nia|reflexivity].
Qed.


Lemma stored_values_snoc σ i v :
  (λ e : event, e.2) <$> (sys_log σ ++ [(i, b, v)]) = stored_values σ ++ [v].
Proof. unfold stored_values. rewrite fmap_app. reflexivity. Qed.

Lemma round_values_snoc p :
  0 <= p →
  (λ q, q * N) <$> seqZ 1 (p + 1) = ((λ q, q * N) <$> seqZ 1 p) ++ [(p + 1) * N].
Proof.
  intros Hp. rewrite (seqZ_app 1 p 1) by lia. rewrite fmap_app.
  rewrite (seqZ_cons (1 + p) 1) by lia.
  rewrite (seqZ_nil (Z.succ (1 + p)) (Z.pred 1)) by lia.
  simpl. do 2 f_equal. lia.
Qed.

Lemma team_step p σ i :
  team_at b N R p σ →
  team_at b N R p (step_sys i σ) ∨ team_at b N R (p + 1) (step_sys i σ).
Proof.
  intros Hinv. pose proof Hinv as (Hp & Hm & Hlen & Hts & Hpend & Hlog & Hlb).
  pose proof (team_bounds p σ Hinv) as HC.
  set (C := total (arrived (Z.of_nat R)) (sys_threads σ)) in *.
  destruct (sys_threads σ !! i) as [t|] eqn:Hi;
    [|left; unfold step_sys; rewrite Hi; exact Hinv].
  pose proof (Forall_lookup_1 _ _ _ _ Hts Hi) as Ht.
  pose proof (team_thread_arrived _ _ _ _ _ Ht) as [Hat HaR].
  assert (HA : Forall (λ t, arrived (Z.of_nat R) t <= p + 1) (sys_threads σ)).
  { eapply Forall_impl; [exact Hts|]. intros x Hx.
    apply (team_thread_arrived _ _ _ _ _ Hx). }
  destruct Ht as [Hb Hpc Hp0 ->|k Hb Hbd Hpc Hprog Ek Hls
         |k c a Hb Hbd Hpc Hprog Ek Ha H1 Hls Hc0 Hc Hne
         |k a Hb Hbd Hpc Hprog Ek Ha H1 Hls
         |k a Hb Hbd Hpc Hprog Ek Ha H1 Hls].
  - (* InitInThread *)
    left. rewrite (step_sys_at _ _ _ _ _ _ Hi (step_thread_InitInThread _ _ _ Hpc Hp0)).
    apply (team_at_local _ _ _ _ _ Hinv Hi).
    + apply (tt_between b N R 0 _ R); simpl; try reflexivity; try assumption; lia.
    + unfold arrived. simpl. rewrite Hp0. reflexivity.
    + unfold pending_publish. simpl. rewrite Hpc. reflexivity.
  - destruct k as [|k].
    + (* all calls made *)
      left. rewrite (step_sys_stutter _ _ _ Hi); [exact Hinv|].
      apply step_thread_nil; assumption.
    + (* the increment of [Barrier] *)
      left. unfold bound_to in Hbd.
      assert (Hm' : sys_mem σ !! l2_word (localCountPtr (th_h t)) =
                    Some (mkBarrier (p * N) C)) by (rewrite Hbd; exact Hm).
      rewrite (step_sys_at _ _ _ _ _ _ Hi
                 (step_thread_Barrier _ _ _ _ _ Hpc Hprog Hm')).
      assert (Eat : arrived (Z.of_nat R) t = p).
      { unfold arrived. rewrite Hprog, arrivals_left_replicate. lia. }
      pose proof (total_le_at _ _ _ _ _ HA Hi) as HCi. fold C in HCi.
      rewrite Hlen, Eat in HCi.
      assert (HC1 : wrap64 (C + 1) = C + 1).
      { apply (team_small_le (C + 1) (p + 1)); nia. }
      cbn [count start]. rewrite HC1, Hbd. name_new_thread t'.
      unfold team_at, stored_values. cbn [sys_mem sys_threads sys_log log_of].
      rewrite !(total_insert _ _ _ _ _ Hi), length_insert, app_nil_r, Eat.
      fold C.
      assert (Eat' : arrived (Z.of_nat R) t' = p + 1).
      { unfold arrived. simpl. rewrite arrivals_left_replicate. lia. }
      rewrite Eat'.
      assert (Ep0 : pending_publish ((p + 1) * N) t = 0).
      { unfold pending_publish. rewrite Hpc. reflexivity. }
      assert (Ep1 : pending_publish ((p + 1) * N) t' =
              if C + 1 =? (p + 1) * N then 1 else 0).
      { unfold pending_publish. simpl. rewrite HC1. reflexivity. }
      rewrite Ep0, Ep1.
      replace (C =? (p + 1) * N) with false in Hpend
        by (symmetry; apply Z.eqb_neq; lia).
      fold C in Hpend.
      split; [exact Hp|]. split.
      { rewrite lookup_insert_eq. do 2 f_equal. lia. }
      split; [exact Hlen|]. split.
      { apply Forall_insert; [exact Hts|].
        apply (tt_loaded b N R p t' k C (p + 1)); simpl; try reflexivity;
          try assumption; try lia. }
      split; [|split; assumption].
      replace (C - p + (p + 1)) with (C + 1) by lia. rewrite Hpend. lia.
  - (* lines 184-189 of [Arrive] *)
    assert (Hmb : sys_mem σ !! th_b t = Some (mkBarrier (p * N) C))
      by (rewrite Hb; exact Hm).
    pose proof (step_thread_publish _ _ _ _ _ Hpc Hmb) as Hs.
    assert (HaR' : a <= Z.of_nat R) by lia.
    rewrite (team_small_le (c + 1) a) in Hs by lia.
    rewrite Hls in Hs. replace ((a - 1) * N + N) with (a * N) in Hs by lia.
    rewrite (team_small a) in Hs by lia.
    assert (Eat : arrived (Z.of_nat R) t = a).
    { unfold arrived. rewrite Hprog. cbn [arrivals_left].
      rewrite arrivals_left_replicate. lia. }
    assert (Ept : pending_publish ((p + 1) * N) t =
                  if c + 1 =? (p + 1) * N then 1 else 0).
    { unfold pending_publish. rewrite Hpc.
      rewrite (team_small_le (c + 1) a) by lia. reflexivity. }
    destruct (Z.eqb_spec (c + 1) (a * N)) as [Ec|Ec].
    + (* the round is complete: [start] advances *)
      right. assert (Ea1 : a = p + 1).
      { destruct (decide (a = p)) as [E|E]; [|lia]. exfalso.
        apply (Hne E). rewrite Ec, E. reflexivity. }
      revert Ek Eat. subst a. intros Ek Eat.
      rewrite Ec, Z.eqb_refl in Ept.
      pose proof (total_ge _ _ _ _ (pending_publish_nonneg ((p + 1) * N)) Hi) as Hge.
      rewrite Ept, Hpend in Hge.
      destruct (Z.eqb_spec C ((p + 1) * N)) as [EC|EC]; [|lia].
      rewrite (step_sys_at _ _ _ _ _ _ Hi Hs). cbn [log_of].
      set (t' := mkThread (th_b t) (th_tid t) (th_h t) Idle (th_prog t)) in *.
      assert (Eat' : arrived (Z.of_nat R) t' = p + 1) by exact Eat.
      assert (Ept' : pending_publish ((p + 1) * N) t' = 0) by reflexivity.
      assert (Ht' : team_thread b N R p t').
      { apply (tt_arrived b N R p t' k (p + 1)); try assumption; try reflexivity; lia. }
      set (l' := <[i := t']> (sys_threads σ)).
      assert (Hl' : Forall (team_thread b N R p) l')
        by (apply Forall_insert; assumption).
      assert (Hlen' : Z.of_nat (length l') = N)
        by (unfold l'; rewrite length_insert; exact Hlen).
      assert (HC' : total (arrived (Z.of_nat R)) l' = C).
      { unfold l'. rewrite (total_insert _ _ _ _ _ Hi), Eat, Eat'. fold C. lia. }
      assert (Hall : Forall (λ t, arrived (Z.of_nat R) t = p + 1) l').
      { apply total_eq_max.
        - eapply Forall_impl; [exact Hl'|]. intros x Hx.
          apply (team_thread_arrived _ _ _ _ _ Hx).
        - rewrite HC', Hlen'. exact EC. }
      assert (Hp' : total (pending_publish ((p + 1) * N)) l' = 0).
      { unfold l'. rewrite (total_insert _ _ _ _ _ Hi), Ept, Ept', Hpend. lia. }
      assert (Hnext : Forall (team_thread b N R (p + 1)) l').
      { apply Forall_forall. intros x Hx.
        apply team_thread_next; [lia| | |].
        - exact (proj1 (Forall_forall _ _) Hl' x Hx).
        - exact (proj1 (Forall_forall _ _) Hall x Hx).
        - exact (total_zero _ _ x (pending_publish_nonneg _) Hp' Hx). }
      unfold team_at. cbn [sys_mem sys_threads sys_log]. fold l'.
      rewrite HC'. split; [lia|]. split.
      { rewrite Hb, lookup_insert_eq. cbn [count]. rewrite Ec. reflexivity. }
      split; [exact Hlen'|]. split; [exact Hnext|]. split.
      { replace (C =? (p + 1 + 1) * N) with false
          by (symmetry; apply Z.eqb_neq; nia).
        replace 0 with (0 * Z.of_nat (length l')) by lia.
        apply total_all. apply Forall_forall. intros x Hx.
        apply team_thread_no_pending; [lia| |].
        - exact (proj1 (Forall_forall _ _) Hnext x Hx).
        - exact (proj1 (Forall_forall _ _) Hall x Hx). }
      split.
      { unfold stored_values. cbn [sys_log]. rewrite Hb, stored_values_snoc, Hlog.
        rewrite round_values_snoc by lia. rewrite Ec. reflexivity. }
      { apply Forall_app. split; [exact Hlb|]. constructor; [exact Hb|constructor]. }
    + (* not the last arrival: nothing is stored *)
      left. rewrite (step_sys_at _ _ _ _ _ _ Hi Hs).
      apply (team_at_local _ _ _ _ _ Hinv Hi).
      * apply (tt_arrived b N R p _ k a); simpl; try assumption; reflexivity.
      * reflexivity.
      * rewrite Ept. unfold pending_publish. simpl.
        destruct (Z.eqb_spec (c + 1) ((p + 1) * N)) as [E|E]; [|reflexivity].
        exfalso. destruct (decide (a = p)) as [E1|E1]; [rewrite E1 in Hc; nia|].
        apply Ec. assert (E2 : a = p + 1) by lia. rewrite E2. exact E.
  - (* the first step of [WaitAndReset] *)
    left. pose proof (step_thread_WaitAndReset (sys_mem σ) _ _ _ Hpc Hprog) as Hs.
    rewrite Hls in Hs. replace ((a - 1) * N + N) with (a * N) in Hs by lia.
    rewrite (team_small a) in Hs by lia.
    rewrite (step_sys_at _ _ _ _ _ _ Hi Hs).
    apply (team_at_local _ _ _ _ _ Hinv Hi).
    + apply (tt_waiting b N R p _ k a); simpl; try assumption; reflexivity.
    + unfold arrived. simpl. rewrite Hprog. reflexivity.
    + unfold pending_publish. simpl. rewrite Hpc. reflexivity.
  - (* one reading of [start] *)
    left. assert (Hmb : sys_mem σ !! th_b t = Some (mkBarrier (p * N) C))
      by (rewrite Hb; exact Hm).
    pose proof (step_thread_Waiting _ _ _ _ Hpc Hmb) as Hs. cbn [start] in Hs.
    destruct (Z.ltb_spec (p * N) (a * N)) as [Hlt|Hge].
    + rewrite (step_sys_stutter _ _ _ Hi Hs). exact Hinv.
    + assert (Ea1 : a = p) by nia. revert Ek. subst a. intros Ek.
      rewrite (step_sys_at _ _ _ _ _ _ Hi Hs).
      apply (team_at_local _ _ _ _ _ Hinv Hi).
      * apply (tt_between b N R p _ k); simpl; try assumption; try reflexivity; lia.
      * reflexivity.
      * unfold pending_publish. simpl. rewrite Hpc. reflexivity.
Qed.


Lemma team_begins_at σ : team_begins b N R σ → team_at b N R 0 σ.
Proof.
  intros (Hm & Hlog & Hlen & Hts).
  assert (Ha : Forall (λ t, arrived (Z.of_nat R) t = 0) (sys_threads σ)).
  { eapply Forall_impl; [exact Hts|]. intros t (_ & _ & Hp).
    unfold arrived. rewrite Hp. cbn [arrivals_left].
    rewrite arrivals_left_replicate. lia. }
  assert (Hpd : Forall (λ t, pending_publish ((0 + 1) * N) t = 0) (sys_threads σ)).
  { eapply Forall_impl; [exact Hts|]. intros t (_ & Hpc & _).
    unfold pending_publish. rewrite Hpc. reflexivity. }
  unfold team_at, stored_values.
  rewrite (total_all _ _ _ Ha), (total_all _ _ _ Hpd), Hlog.
  split; [lia|]. split; [rewrite Hm; do 2 f_equal; lia|]. split; [exact Hlen|].
  split.
  { eapply Forall_impl; [exact Hts|]. intros t (Hb & Hpc & Hp).
    apply tt_init; auto. }
  split.
  { replace (0 * Z.of_nat (length (sys_threads σ)) =? (0 + 1) * N) with false
      by (symmetry; apply Z.eqb_neq; lia). lia. }
  split; [|constructor]. rewrite seqZ_nil by lia. reflexivity.
Qed.

Lemma team_exec sched : ∀ p σ,
  team_at b N R p σ → ∃ p', p <= p' ∧ team_at b N R p' (exec sched σ).
Proof.
  induction sched as [|i sched IH]; intros p σ H.
  - exists p. split; [lia|exact H].
  - simpl. destruct (team_step p σ i H) as [H'|H'].
    + apply (IH p _ H').
    + destruct (IH (p + 1) _ H') as (p' & Hp' & Hat). exists p'. split; [lia|exact Hat].
Qed.

(** *** No deadlock *)

Lemma team_thread_not_faulted p t : team_thread b N R p t → th_pc t ≠ Faulted.
Proof. intros [] E; congruence. Qed.

Lemma team_work_step p σ i t :
  team_at b N R p σ → sys_threads σ !! i = Some t →
  runnable (sys_mem σ) t = true →
  total work_left (sys_threads (step_sys i σ)) =
    total work_left (sys_threads σ) - 1.
Proof.
  intros Hinv Hi Hr.
  assert (Hnew : ∃ p', team_at b N R p' (step_sys i σ)).
  { destruct (team_step p σ i Hinv); eauto. }
  destruct Hnew as (p' & _ & _ & _ & Hts' & _).
  destruct (step_thread (sys_mem σ) t) as [[m' t'] w] eqn:Hs.
  rewrite (step_sys_at _ _ _ _ _ _ Hi Hs) in *. simpl in *.
  rewrite (total_insert _ _ _ _ _ Hi).
  assert (Hi' : <[i := t']> (sys_threads σ) !! i = Some t').
  { apply list_lookup_insert_eq. eapply lookup_lt_Some, Hi. }
  pose proof (team_thread_not_faulted _ _ (Forall_lookup_1 _ _ _ _ Hts' Hi')) as Hf.
  rewrite (work_left_step _ _ _ _ _ Hs Hr Hf). lia.
Qed.

(** When no thread can take a step that counts, all have finished: the
    team is never left waiting for an arrival that will not come. *)
Lemma team_stuck_finished p σ :
  team_at b N R p σ →
  Forall (λ t, runnable (sys_mem σ) t = false) (sys_threads σ) →
  Forall finished (sys_threads σ).
Proof.
  intros (Hp & Hm & Hlen & Hts & Hpend & _) Hstuck.
  assert (Hcase : Forall (λ t, finished t ∧ p = Z.of_nat R ∨
                               (∃ tg, th_pc t = Waiting tg) ∧
                               arrived (Z.of_nat R) t = p + 1 ∧ p < Z.of_nat R)
                         (sys_threads σ)).
  { apply Forall_forall. intros t Hin.
    pose proof (proj1 (Forall_forall _ _) Hts t Hin) as Ht.
    pose proof (proj1 (Forall_forall _ _) Hstuck t Hin) as Hr.
    unfold runnable in Hr.
    destruct Ht as [Hb Hpc Hprog ->|k Hb Hbd Hpc Hprog Ek Hls
         |k c a Hb Hbd Hpc Hprog Ek Ha H1 Hls Hc0 Hc Hne
         |k a Hb Hbd Hpc Hprog Ek Ha H1 Hls
         |k a Hb Hbd Hpc Hprog Ek Ha H1 Hls];
      rewrite Hpc in Hr; try rewrite Hprog in Hr; try discriminate.
    - destruct k as [|k]; [|discriminate]. left. split; [split; assumption|]. lia.
    - right. rewrite Hb, Hm in Hr. cbn [start] in Hr. unfold spin_test in Hr.
      apply negb_false_iff, Z.ltb_lt in Hr.
      split; [eauto|]. unfold arrived. rewrite Hprog, arrivals_left_replicate.
      split; nia. }
  destruct (decide (p = Z.of_nat R)) as [Ep|Ep].
  - eapply Forall_impl; [exact Hcase|]. intros t [[Hf _]|(_ & _ & Hlt)]; [exact Hf|lia].
  - exfalso.
    assert (Hall : Forall (λ t, arrived (Z.of_nat R) t = p + 1) (sys_threads σ)).
    { eapply Forall_impl; [exact Hcase|]. intros t [[_ E]|(_ & E & _)]; [lia|exact E]. }
    assert (Hno : Forall (λ t, pending_publish ((p + 1) * N) t = 0) (sys_threads σ)).
    { eapply Forall_impl; [exact Hcase|]. intros t [[_ E]|((tg & Hpc) & _)]; [lia|].
      unfold pending_publish. rewrite Hpc. reflexivity. }
    rewrite (total_all _ _ _ Hall), (total_all _ _ _ Hno), Hlen, Z.eqb_refl in Hpend.
    lia.
Qed.

Lemma team_can_finish : ∀ (n : nat) p σ,
  team_at b N R p σ → total work_left (sys_threads σ) = Z.of_nat n →
  ∃ sched, Forall finished (sys_threads (exec sched σ)).
Proof.
  induction n as [|n IH]; intros p σ Hinv Hn;
    (destruct (Forall_Exists_dec
                 (λ t, runnable (sys_mem σ) t = false)
                 (λ t, runnable (sys_mem σ) t = true)
                 (λ t, match runnable (sys_mem σ) t as r
                         return ({r = false} + {r = true}) with
                       | true => right eq_refl
                       | false => left eq_refl
                       end)
                 (sys_threads σ)) as [Hstuck|Hrun];
     [exists []; exact (team_stuck_finished p σ Hinv Hstuck)|]);
    apply Exists_exists in Hrun as (t & Hin & Hr);
    apply list_elem_of_lookup in Hin as [i Hi];
    pose proof (team_work_step p σ i t Hinv Hi Hr) as Hw.
  - exfalso.
    pose proof (total_nonneg work_left (sys_threads (step_sys i σ)) work_left_nonneg).
    lia.
  - destruct (team_step p σ i Hinv) as [H'|H'];
      (destruct (IH _ _ H') as [sched Hs]; [lia|]; exists (i :: sched); exact Hs).
Qed.

Lemma team_finished p σ :
  team_at b N R p σ → Forall finished (sys_threads σ) →
  p = Z.of_nat R ∧
  sys_mem σ !! b = Some (mkBarrier (Z.of_nat R * N) (Z.of_nat R * N)) ∧
  Forall (λ t, localStart (th_h t) = Z.of_nat R * N) (sys_threads σ).
Proof.
  intros (Hp & Hm & Hlen & Hts & _) Hfin.
  assert (Hall : Forall (λ t, p = Z.of_nat R ∧ arrived (Z.of_nat R) t = Z.of_nat R ∧
                              localStart (th_h t) = Z.of_nat R * N) (sys_threads σ)).
  { apply Forall_forall. intros t Hin.
    pose proof (proj1 (Forall_forall _ _) Hts t Hin) as Ht.
    pose proof (proj1 (Forall_forall _ _) Hfin t Hin) as [Hpc Hprog].
    unfold arrived.
    destruct Ht as [Hb Hpc' Hprog' ->|k Hb Hbd Hpc' Hprog' Ek Hls
         |k c a Hb Hbd Hpc' Hprog' Ek Ha H1 Hls Hc0 Hc Hne
         |k a Hb Hbd Hpc' Hprog' Ek Ha H1 Hls
         |k a Hb Hbd Hpc' Hprog' Ek Ha H1 Hls]; try congruence.
    destruct k as [|k]; [|rewrite Hprog in Hprog'; discriminate].
    rewrite Hprog. simpl. split; [lia|]. split; [lia|].
    rewrite Hls. f_equal. lia. }
  destruct (sys_threads σ) as [|t0 l] eqn:El; [simpl in Hlen; lia|].
  pose proof (Forall_inv Hall) as (Ep & _ & _).
  split; [exact Ep|]. split.
  - rewrite Hm. do 2 f_equal; [rewrite Ep; reflexivity|].
    rewrite (total_all _ _ (Z.of_nat R)), Hlen; [reflexivity|].
    eapply Forall_impl; [exact Hall|]. intros t (_ & E & _). exact E.
  - eapply Forall_impl; [exact Hall|]. intros t (_ & _ & E). exact E.
Qed.

End Team.


(** A team of [N] threads that each call [Barrier (b, h, N)] [R] times,
    with [R * N < 2^64]: under every schedule no thread has returned from
    more barriers than any thread has arrived at. A thread leaves its
    [r]-th barrier only once all [N] threads have made their [r]-th
    increment of [count]. *)
Theorem team_passes_only_after_all_arrived b N R σ sched i j ti tj :
  1 <= N → Z.of_nat R * N < 2 ^ 64 → team_begins b N R σ →
  sys_threads (exec sched σ) !! i = Some ti →
  sys_threads (exec sched σ) !! j = Some tj →
  passed (Z.of_nat R) ti <= arrived (Z.of_nat R) tj.
Proof.
  intros HN HR Hbegin Hi Hj.
  destruct (team_exec b N R HN HR sched 0 σ (team_begins_at b N R HN σ Hbegin))
    as (p & _ & _ & _ & _ & Hts & _).
  pose proof (team_thread_passed _ _ _ _ _ (Forall_lookup_1 _ _ _ _ Hts Hi)).
  pose proof (team_thread_arrived _ _ _ _ _ (Forall_lookup_1 _ _ _ _ Hts Hj)).
  lia.
Qed.

Lemma team_passes_only_after_all_arrived_witness :
  let h := mkHandle 5 (mkPtr 9%positive 0) in
  let prog := InitInThread :: replicate 2 (Barrier 2) in
  let σ := mkSys {[ 1%positive := mkBarrier 0 0 ]}
             [ mkThread 1%positive 0 h Idle prog; mkThread 1%positive 1 h Idle prog ] [] in
  let sched := [0%nat; 0%nat; 1%nat; 1%nat; 1%nat; 0%nat; 0%nat; 0%nat; 0%nat] in
  ∃ ti tj, sys_threads (exec sched σ) !! 0%nat = Some ti ∧
           sys_threads (exec sched σ) !! 1%nat = Some tj ∧
           passed 2 ti = 1 ∧ arrived 2 tj = 1 ∧
           passed (Z.of_nat 2) ti <= arrived (Z.of_nat 2) tj.
Proof.
  intros h prog σ sched. eexists. eexists.
  split; [vm_compute; reflexivity|]. split; [vm_compute; reflexivity|].
  split; [reflexivity|]. split; [reflexivity|].
  apply (team_passes_only_after_all_arrived 1%positive 2 2 σ sched 0%nat 1%nat).
  - lia.
  - reflexivity.
  - unfold team_begins. split; [reflexivity|]. split; [reflexivity|].
    split; [reflexivity|]. repeat constructor.
  - vm_compute. reflexivity.
  - vm_compute. reflexivity.
Defined.

(** For the same team, under every schedule: [start] has been stored to
    once for each complete round, with the values [N], [2N], ..., [pN] in
    this order; [start = p * N]; and [count], the number of arrivals made,
    is at least [start] and at most [start + N]. *)
Theorem team_rounds_stored_in_order b N R σ sched :
  1 <= N → Z.of_nat R * N < 2 ^ 64 → team_begins b N R σ →
  ∃ p, 0 <= p <= Z.of_nat R ∧
       stored_values (exec sched σ) = (λ q, q * N) <$> seqZ 1 p ∧
       ∃ bar, sys_mem (exec sched σ) !! b = Some bar ∧
              start bar = p * N ∧
              count bar = total (arrived (Z.of_nat R)) (sys_threads (exec sched σ)) ∧
              start bar <= count bar <= start bar + N.
Proof.
  intros HN HR Hbegin.
  destruct (team_exec b N R HN HR sched 0 σ (team_begins_at b N R HN σ Hbegin))
    as (p & _ & Hat).
  pose proof (team_bounds b N R p _ Hat) as HC.
  destruct Hat as (Hp & Hm & _ & _ & _ & Hlog & _).
  exists p. split; [exact Hp|]. split; [exact Hlog|].
  eexists. split; [exact Hm|]. simpl. split; [reflexivity|]. split; [reflexivity|].
  lia.
Qed.

Lemma team_rounds_stored_in_order_witness :
  let h := mkHandle 5 (mkPtr 9%positive 0) in
  let prog := InitInThread :: replicate 2 (Barrier 2) in
  let σ := mkSys {[ 1%positive := mkBarrier 0 0 ]}
             [ mkThread 1%positive 0 h Idle prog; mkThread 1%positive 1 h Idle prog ] [] in
  let sched := [0%nat; 0%nat; 1%nat; 1%nat; 1%nat; 0%nat; 0%nat; 0%nat; 0%nat] in
  stored_values (exec sched σ) = [2] ∧
  ∃ p, 0 <= p <= 2 ∧ stored_values (exec sched σ) = (λ q, q * 2) <$> seqZ 1 p.
Proof.
  intros h prog σ sched. split; [vm_compute; reflexivity|].
  destruct (team_rounds_stored_in_order 1%positive 2 2 σ sched) as (p & Hp & Hv & _).
  - lia.
  - reflexivity.
  - unfold team_begins. split; [reflexivity|]. split; [reflexivity|].
    split; [reflexivity|]. repeat constructor.
  - exists p. split; [exact Hp|exact Hv].
Defined.

(** The same team never deadlocks: after any schedule the threads can go
    on until all have returned from their [R] barriers; and when they all
    have, [start = count = R * N], the values stored to [start] are [N],
    ..., [R * N], and every handle has [localStart = R * N]. *)
Theorem team_never_deadlocks b N R σ sched :
  1 <= N → Z.of_nat R * N < 2 ^ 64 → team_begins b N R σ →
  (∃ more, Forall finished (sys_threads (exec more (exec sched σ)))) ∧
  (Forall finished (sys_threads (exec sched σ)) →
   sys_mem (exec sched σ) !! b =
     Some (mkBarrier (Z.of_nat R * N) (Z.of_nat R * N)) ∧
   stored_values (exec sched σ) = (λ q, q * N) <$> seqZ 1 (Z.of_nat R) ∧
   Forall (λ t, localStart (th_h t) = Z.of_nat R * N) (sys_threads (exec sched σ))).
Proof.
  intros HN HR Hbegin.
  destruct (team_exec b N R HN HR sched 0 σ (team_begins_at b N R HN σ Hbegin))
    as (p & _ & Hat).
  split.
  - apply (team_can_finish b N R HN HR
             (Z.to_nat (total work_left (sys_threads (exec sched σ)))) p _ Hat).
    pose proof (total_nonneg work_left (sys_threads (exec sched σ)) work_left_nonneg).
    lia.
  - intros Hfin. destruct (team_finished b N R HN p _ Hat Hfin) as (Ep & Hm & Hls).
    split; [exact Hm|]. split; [|exact Hls].
    destruct Hat as (_ & _ & _ & _ & _ & Hlog & _). rewrite Hlog, Ep. reflexivity.
Qed.

Lemma team_never_deadlocks_witness :
  let h := mkHandle 5 (mkPtr 9%positive 0) in
  let prog := InitInThread :: replicate 2 (Barrier 2) in
  let σ := mkSys {[ 1%positive := mkBarrier 0 0 ]}
             [ mkThread 1%positive 0 h Idle prog; mkThread 1%positive 1 h Idle prog ] [] in
  let sched :=
    [0%nat; 0%nat; 1%nat; 1%nat; 1%nat; 0%nat; 0%nat; 0%nat; 0%nat;
     1%nat; 1%nat; 1%nat; 1%nat; 1%nat; 1%nat; 0%nat; 0%nat; 0%nat; 0%nat; 1%nat] in
  Forall finished (sys_threads (exec sched σ)) ∧
  sys_mem (exec sched σ) !! 1%positive = Some (mkBarrier (Z.of_nat 2 * 2) (Z.of_nat 2 * 2)) ∧
  stored_values (exec sched σ) = (λ q, q * 2) <$> seqZ 1 (Z.of_nat 2).
Proof.
  intros h prog σ sched.
  assert (Hfin : Forall finished (sys_threads (exec sched σ))).
  { vm_compute. repeat constructor. }
  split; [exact Hfin|].
  destruct (team_never_deadlocks 1%positive 2 2 σ sched) as [_ H].
  - lia.
  - reflexivity.
  - unfold team_begins. split; [reflexivity|]. split; [reflexivity|].
    split; [reflexivity|]. repeat constructor.
  - destruct (H Hfin) as (Hm & Hv & _). split; [exact Hm|exact Hv].
Defined.


(** ** One round with producers and consumers *)

Lemma arrivals_left_nonneg p : 0 <= arrivals_left p.
Proof. induction p as [|[| n | n | n | n] k IH]; simpl; lia. Qed.

Lemma arrivals_to_make_nonneg t : 0 <= arrivals_to_make t.
Proof. apply arrivals_left_nonneg. Qed.

Lemma one_round_cases N p :
  one_round N p = true →
  p = [] ∨ (∃ k, p = Arrive N :: k ∧ one_round N k = true) ∨
  p = [Reset N] ∨ p = [WaitAndReset N] ∨ p = [Barrier N].
Proof.
  destruct p as [|[| n | n | n | n] k]; simpl; intros H; try discriminate.
  - left. reflexivity.
  - apply andb_prop in H as [E H]. apply Z.eqb_eq in E. subst n. right. left. eauto.
  - destruct k; [|discriminate]. apply Z.eqb_eq in H. subst n. auto.
  - destruct k; [|discriminate]. apply Z.eqb_eq in H. subst n. auto.
  - destruct k; [|discriminate]. apply Z.eqb_eq in H. subst n. auto 6.
Qed.

Section MixedRound.
Variables (b : positive) (s N : Z).
Hypothesis Hs : 0 <= s.
Hypothesis HN : 1 <= N.
Hypothesis HsN : s + N < 2 ^ 64.

Lemma mixed_round_begins_inv σ : mixed_round_begins b s N σ → mixed_inv b s N σ.
Proof.
  intros (Hm & Hlog & Hts & Hn). unfold mixed_inv. rewrite Hn, Hlog.
  split; [lia|]. split.
  { eapply Forall_impl; [exact Hts|]. intros t (?&?&?&?&?). apply rt_idle; assumption. }
  split.
  { replace (N =? 0) with false by (symmetry; apply Z.eqb_neq; lia).
    assert (E : Forall (λ t, pending_publish (s + N) t = 0) (sys_threads σ)).
    { eapply Forall_impl; [exact Hts|]. intros t (_&_&_&Hpc&_).
      unfold pending_publish. rewrite Hpc. reflexivity. }
    rewrite (total_all _ _ _ E). simpl. lia. }
  left. split; [reflexivity|]. rewrite Hm. do 2 f_equal. lia.
Qed.

(** A step that touches neither the store nor the counts. *)
Lemma mixed_inv_local σ i t t' :
  mixed_inv b s N σ → sys_threads σ !! i = Some t →
  round_thread b s N t' →
  arrivals_to_make t' = arrivals_to_make t →
  pending_publish (s + N) t' = pending_publish (s + N) t →
  mixed_inv b s N (mkSys (sys_mem σ) (<[i := t']> (sys_threads σ)) (sys_log σ ++ [])).
Proof.
  intros (Hle & Hts & Hsum & Hmem) Hi Ht' Ea Ep. unfold mixed_inv. simpl.
  rewrite !(total_insert _ _ _ _ _ Hi), Ea, Ep, app_nil_r.
  replace (total arrivals_to_make (sys_threads σ) - arrivals_to_make t +
           arrivals_to_make t)
    with (total arrivals_to_make (sys_threads σ)) by lia.
  replace (total (pending_publish (s + N)) (sys_threads σ) -
           pending_publish (s + N) t + pending_publish (s + N) t)
    with (total (pending_publish (s + N)) (sys_threads σ)) by lia.
  split; [exact Hle|]. split; [apply Forall_insert; assumption|].
  split; [exact Hsum|exact Hmem].
Qed.

Lemma mixed_small z : 0 <= z <= s + N → wrap64 z = z.
Proof. intros Hz. apply wrap64_small. unfold u64. lia. Qed.

Lemma mixed_step σ i : mixed_inv b s N σ → mixed_inv b s N (step_sys i σ).
Proof.
  intros Hinv. pose proof Hinv as (Hle & Hts & Hsum & Hmem).
  pose proof (total_nonneg arrivals_to_make (sys_threads σ) arrivals_to_make_nonneg)
    as Hl0.
  set (left := total arrivals_to_make (sys_threads σ)) in *.
  destruct (sys_threads σ !! i) as [t|] eqn:Hi;
    [|unfold step_sys; rewrite Hi; exact Hinv].
  pose proof (total_ge _ _ _ _ arrivals_to_make_nonneg Hi) as Hge. fold left in Hge.
  pose proof (total_ge _ _ _ _ (pending_publish_nonneg (s + N)) Hi) as Hpge.
  destruct (Forall_lookup_1 _ _ _ _ Hts Hi)
    as [Hb Hbd Hls Hpc Hone|c Hb Hbd Hls Hpc Hone Hc0 Hc
       |Hb Hls Hpc Hprog|Hb Hls Hpc Hprog].
  - (* between calls *)
    assert (Ep0 : pending_publish (s + N) t = 0).
    { unfold pending_publish. rewrite Hpc. reflexivity. }
    assert (Hfetch : ∀ k, arrivals_to_make t = 1 + arrivals_left k →
              one_round N k = true →
              mixed_inv b s N
                (mkSys (<[b := mkBarrier s (wrap64 (s + N - left + 1))]> (sys_mem σ))
                   (<[i := mkThread (th_b t) (th_tid t) (th_h t)
                            (Arrive_loaded (s + N - left) N) k]> (sys_threads σ))
                   (sys_log σ ++ [])) ∧
              sys_mem σ !! b = Some (mkBarrier s (s + N - left))).
    { intros k Ea Hk. destruct Hmem as [[Hlog Hm]|(j & _ & E0 & _)];
        [|pose proof (arrivals_left_nonneg k); lia].
      split; [|exact Hm].
      pose proof (arrivals_left_nonneg k) as Hk0.
      rewrite (mixed_small (s + N - left + 1)) by lia.
      unfold mixed_inv. cbn [sys_mem sys_threads sys_log]. name_new_thread t'.
      rewrite !(total_insert _ _ _ _ _ Hi), app_nil_r. fold left.
      assert (Ea' : arrivals_to_make t' = arrivals_left k) by reflexivity.
      assert (Ep1 : pending_publish (s + N) t' =
                    if left - 1 =? 0 then 1 else 0).
      { unfold pending_publish. simpl. rewrite (mixed_small (s + N - left + 1)) by lia.
        destruct (Z.eqb_spec (left - 1) 0) as [E|E];
          destruct (Z.eqb_spec (s + N - left + 1) (s + N)) as [E'|E'];
          try reflexivity; lia. }
      rewrite Ea, Ea', Ep0, Ep1.
      replace (left - (1 + arrivals_left k) + arrivals_left k) with (left - 1) by lia.
      replace (left =? 0) with false in Hsum by (symmetry; apply Z.eqb_neq; lia).
      split; [lia|]. split.
      { apply Forall_insert; [exact Hts|].
        apply (rt_loaded b s N t' (s + N - left)); try assumption; try reflexivity; lia. }
      split; [lia|].
      left. split; [exact Hlog|]. rewrite lookup_insert_eq. do 2 f_equal. lia. }
    unfold bound_to in Hbd.
    destruct (one_round_cases N _ Hone) as [Hp|[(k & Hp & Hk)|[Hp|[Hp|Hp]]]].
    + rewrite (step_sys_stutter _ _ _ Hi); [exact Hinv|].
      apply step_thread_nil; assumption.
    + destruct (Hfetch k) as [Hnew Hm]; [unfold arrivals_to_make; rewrite Hp; reflexivity|exact Hk|].
      rewrite <- Hbd in Hm.
      rewrite (step_sys_at _ _ _ _ _ _ Hi (step_thread_Arrive _ _ _ _ _ Hpc Hp Hm)).
      cbn [count start log_of]. rewrite Hbd. exact Hnew.
    + rewrite (step_sys_at _ _ _ _ _ _ Hi (step_thread_Reset _ _ _ _ Hpc Hp)).
      rewrite Hls, (mixed_small (s + N)) by lia.
      apply (mixed_inv_local _ _ _ _ Hinv Hi).
      * apply rt_done; simpl; try assumption; reflexivity.
      * unfold arrivals_to_make. simpl. rewrite Hp. reflexivity.
      * unfold pending_publish. simpl. rewrite Hpc. reflexivity.
    + rewrite (step_sys_at _ _ _ _ _ _ Hi (step_thread_WaitAndReset _ _ _ _ Hpc Hp)).
      rewrite Hls, (mixed_small (s + N)) by lia.
      apply (mixed_inv_local _ _ _ _ Hinv Hi).
      * apply rt_waiting; simpl; try assumption; reflexivity.
      * unfold arrivals_to_make. simpl. rewrite Hp. reflexivity.
      * unfold pending_publish. simpl. rewrite Hpc. reflexivity.
    + destruct (Hfetch [WaitAndReset N]) as [Hnew Hm];
        [unfold arrivals_to_make; rewrite Hp; reflexivity
        |simpl; apply Z.eqb_refl|].
      rewrite <- Hbd in Hm.
      rewrite (step_sys_at _ _ _ _ _ _ Hi (step_thread_Barrier _ _ _ _ _ Hpc Hp Hm)).
      cbn [count start log_of]. rewrite Hbd. exact Hnew.
  - (* lines 184-189 of [Arrive] *)
    assert (Ept : pending_publish (s + N) t = if c + 1 =? s + N then 1 else 0).
    { unfold pending_publish. rewrite Hpc, (mixed_small (c + 1)) by lia. reflexivity. }
    assert (Hbar : ∃ bar, sys_mem σ !! th_b t = Some bar).
    { rewrite Hb. destruct Hmem as [[_ Hm]|(j & _ & _ & Hm)]; eauto. }
    destruct Hbar as [bar Hbar].
    pose proof (step_thread_publish _ _ _ _ _ Hpc Hbar) as Hstep.
    rewrite Hls, (mixed_small (c + 1)), (mixed_small (s + N)) in Hstep by lia.
    destruct (Z.eqb_spec (c + 1) (s + N)) as [Ec|Ec].
    + (* the last arrival: [start] is stored *)
      assert (Hl : sys_log σ = [] ∧ left = 0).
      { rewrite Ept in Hpge. destruct (Z.eqb_spec left 0) as [E|E]; [|lia].
        split; [|exact E]. destruct (sys_log σ); [reflexivity|simpl in Hsum; lia]. }
      destruct Hl as [Hlog El].
      destruct Hmem as [[_ Hm]|(j & Hj & _)]; [|congruence].
      rewrite Hb, Hm in Hbar. injection Hbar as <-. cbn [count] in Hstep.
      rewrite (step_sys_at _ _ _ _ _ _ Hi Hstep). cbn [log_of].
      unfold mixed_inv. cbn [sys_mem sys_threads sys_log]. name_new_thread t'.
      rewrite !(total_insert _ _ _ _ _ Hi). fold left.
      assert (Ea' : arrivals_to_make t' = arrivals_to_make t) by reflexivity.
      assert (Ep1 : pending_publish (s + N) t' = 0) by reflexivity.
      rewrite Ea', Ep1, Ept, Hlog, El in *. simpl in Hsum. simpl.
      replace (0 - arrivals_to_make t + arrivals_to_make t) with 0 by lia.
      split; [lia|]. split.
      { apply Forall_insert; [exact Hts|]. apply rt_idle; try assumption; reflexivity. }
      split; [simpl; lia|].
      right. exists i. rewrite Hb, Ec, lookup_insert_eq.
      split; [reflexivity|]. split; [reflexivity|]. do 2 f_equal. lia.
    + rewrite (step_sys_at _ _ _ _ _ _ Hi Hstep).
      apply (mixed_inv_local _ _ _ _ Hinv Hi).
      * apply rt_idle; try assumption; reflexivity.
      * reflexivity.
      * rewrite Ept. reflexivity.
  - (* one reading of [start] *)
    destruct Hmem as [[Hlog Hm]|(j & Hj & E0 & Hm)].
    + rewrite (step_sys_stutter _ _ _ Hi); [exact Hinv|].
      rewrite <- Hb in Hm. rewrite (step_thread_Waiting _ _ _ _ Hpc Hm). cbn [start].
      replace (s <? s + N) with true by (symmetry; apply Z.ltb_lt; lia). reflexivity.
    + pose proof Hm as Hm'. rewrite <- Hb in Hm'.
      pose proof (step_thread_Waiting _ _ _ _ Hpc Hm') as Hstep. cbn [start] in Hstep.
      rewrite Z.ltb_irrefl in Hstep.
      rewrite (step_sys_at _ _ _ _ _ _ Hi Hstep).
      apply (mixed_inv_local _ _ _ _ Hinv Hi).
      * apply rt_done; try assumption; reflexivity.
      * reflexivity.
      * unfold pending_publish. simpl. rewrite Hpc. reflexivity.
  - (* the thread has finished *)
    rewrite (step_sys_stutter _ _ _ Hi); [exact Hinv|].
    apply step_thread_nil; assumption.
Qed.

Lemma mixed_exec sched : ∀ σ, mixed_inv b s N σ → mixed_inv b s N (exec sched σ).
Proof.
  induction sched as [|i sched IH]; intros σ H; [exact H|].
  simpl. apply IH, mixed_step, H.
Qed.


Lemma round_thread_not_faulted t : round_thread b s N t → th_pc t ≠ Faulted.
Proof. intros [] E; congruence. Qed.

Lemma mixed_work_step σ i t :
  mixed_inv b s N σ → sys_threads σ !! i = Some t →
  runnable (sys_mem σ) t = true →
  total work_left (sys_threads (step_sys i σ)) =
    total work_left (sys_threads σ) - 1.
Proof.
  intros Hinv Hi Hr.
  pose proof (mixed_step σ i Hinv) as (_ & Hts' & _).
  destruct (step_thread (sys_mem σ) t) as [[m' t'] w] eqn:Hstep.
  rewrite (step_sys_at _ _ _ _ _ _ Hi Hstep) in *. simpl in *.
  rewrite (total_insert _ _ _ _ _ Hi).
  assert (Hi' : <[i := t']> (sys_threads σ) !! i = Some t').
  { apply list_lookup_insert_eq. eapply lookup_lt_Some, Hi. }
  pose proof (round_thread_not_faulted _ (Forall_lookup_1 _ _ _ _ Hts' Hi')) as Hf.
  rewrite (work_left_step _ _ _ _ _ Hstep Hr Hf). lia.
Qed.

(** When no thread can take a step that counts, all have finished: no
    consumer is left waiting. *)
Lemma mixed_stuck_finished σ :
  mixed_inv b s N σ →
  Forall (λ t, runnable (sys_mem σ) t = false) (sys_threads σ) →
  Forall finished (sys_threads σ).
Proof.
  intros (Hle & Hts & Hsum & Hmem) Hstuck.
  assert (Hcase : Forall (λ t, arrivals_to_make t = 0 ∧
                               pending_publish (s + N) t = 0 ∧
                               (finished t ∨ sys_log σ = []))
                         (sys_threads σ)).
  { apply Forall_forall. intros t Hin.
    pose proof (proj1 (Forall_forall _ _) Hts t Hin) as Ht.
    pose proof (proj1 (Forall_forall _ _) Hstuck t Hin) as Hr.
    unfold runnable in Hr. unfold arrivals_to_make, pending_publish, finished.
    destruct Ht as [Hb Hbd Hls Hpc Hone|c Hb Hbd Hls Hpc Hone Hc0 Hc
       |Hb Hls Hpc Hprog|Hb Hls Hpc Hprog]; rewrite Hpc in *; try discriminate.
    - destruct (th_prog t); [|discriminate]. auto.
    - rewrite Hprog. split; [reflexivity|]. split; [reflexivity|].
      destruct Hmem as [[Hlog _]|(j & _ & _ & Hm)]; [auto|].
      rewrite Hb, Hm in Hr. cbn [start] in Hr. unfold spin_test in Hr.
      rewrite Z.ltb_irrefl in Hr. discriminate.
    - rewrite Hprog. auto. }
  destruct (decide (sys_log σ = [])) as [Hlog|Hlog].
  - exfalso.
    assert (E1 : Forall (λ t, arrivals_to_make t = 0) (sys_threads σ)).
    { eapply Forall_impl; [exact Hcase|]. intros t (E & _ & _). exact E. }
    assert (E2 : Forall (λ t, pending_publish (s + N) t = 0) (sys_threads σ)).
    { eapply Forall_impl; [exact Hcase|]. intros t (_ & E & _). exact E. }
    rewrite (total_all _ _ _ E1), (total_all _ _ _ E2), Hlog in Hsum.
    simpl in Hsum. lia.
  - eapply Forall_impl; [exact Hcase|]. intros t (_ & _ & [Hf|E]); [exact Hf|contradiction].
Qed.

Lemma mixed_can_finish : ∀ (n : nat) σ,
  mixed_inv b s N σ → total work_left (sys_threads σ) = Z.of_nat n →
  ∃ sched, Forall finished (sys_threads (exec sched σ)).
Proof.
  induction n as [|n IH]; intros σ Hinv Hn;
    (destruct (Forall_Exists_dec
                 (λ t, runnable (sys_mem σ) t = false)
                 (λ t, runnable (sys_mem σ) t = true)
                 (λ t, match runnable (sys_mem σ) t as r
                         return ({r = false} + {r = true}) with
                       | true => right eq_refl
                       | false => left eq_refl
                       end)
                 (sys_threads σ)) as [Hstuck|Hrun];
     [exists []; exact (mixed_stuck_finished σ Hinv Hstuck)|]);
    apply Exists_exists in Hrun as (t & Hin & Hr);
    apply list_elem_of_lookup in Hin as [i Hi];
    pose proof (mixed_work_step σ i t Hinv Hi Hr) as Hw.
  - exfalso.
    pose proof (total_nonneg work_left (sys_threads (step_sys i σ)) work_left_nonneg).
    lia.
  - destruct (IH _ (mixed_step σ i Hinv)) as [sched Hsched]; [lia|].
    exists (i :: sched). exact Hsched.
Qed.

Lemma mixed_finished σ :
  mixed_inv b s N σ → Forall finished (sys_threads σ) →
  sys_mem σ !! b = Some (mkBarrier (s + N) (s + N)) ∧
  ∃ i, sys_log σ = [(i, b, s + N)].
Proof.
  intros (Hle & Hts & Hsum & Hmem) Hfin.
  destruct Hmem as [[Hlog Hm]|(j & Hj & _ & Hm)]; [|eauto].
  exfalso.
  assert (E1 : Forall (λ t, arrivals_to_make t = 0) (sys_threads σ)).
  { eapply Forall_impl; [exact Hfin|]. intros t [_ Hp].
    unfold arrivals_to_make. rewrite Hp. reflexivity. }
  assert (E2 : Forall (λ t, pending_publish (s + N) t = 0) (sys_threads σ)).
  { eapply Forall_impl; [exact Hfin|]. intros t [Hpc _].
    unfold pending_publish. rewrite Hpc. reflexivity. }
  rewrite (total_all _ _ _ E1), (total_all _ _ _ E2), Hlog in Hsum.
  simpl in Hsum. lia.
Qed.

End MixedRound.


(** One round of [N] arrivals made by producers ([Arrive], then [Reset]
    or nothing), consumers ([WaitAndReset]) and threads that are both
    ([Barrier]), from [start = count = s] with [s + N < 2^64]: under every
    schedule, the step on which a thread leaves the loop of
    [WaitAndReset] is taken when all [N] arrivals are made and
    [start = count = s + N]. *)
Theorem consumer_returns_only_after_all_arrivals b s N σ sched i t t' target :
  0 <= s → 1 <= N → s + N < 2 ^ 64 → mixed_round_begins b s N σ →
  sys_threads (exec sched σ) !! i = Some t → th_pc t = Waiting target →
  sys_threads (step_sys i (exec sched σ)) !! i = Some t' → th_pc t' = Idle →
  total arrivals_to_make (sys_threads (exec sched σ)) = 0 ∧
  sys_mem (exec sched σ) !! b = Some (mkBarrier (s + N) (s + N)) ∧
  localStart (th_h t') = s + N.
Proof.
  intros Hs HN HsN Hbegin Hi Hpc Hi' Hpc'.
  pose proof (mixed_exec b s N Hs HN HsN sched σ
                (mixed_round_begins_inv b s N HN σ Hbegin))
    as (_ & Hts & _ & Hmem).
  destruct (step_sys_lookup_eq i _ t Hi) as (m' & t1 & w & Hstep & Hi1 & _).
  rewrite Hi' in Hi1. injection Hi1 as <-.
  destruct (Forall_lookup_1 _ _ _ _ Hts Hi)
    as [Hb Hbd Hls Hpc1 Hone|c Hb Hbd Hls Hpc1 Hone Hc0 Hc
       |Hb Hls Hpc1 Hprog|Hb Hls Hpc1 Hprog]; try congruence.
  destruct Hmem as [[_ Hm]|(j & _ & E0 & Hm)].
  - exfalso. rewrite <- Hb in Hm.
    rewrite (step_thread_Waiting _ _ _ _ Hpc1 Hm) in Hstep. cbn [start] in Hstep.
    replace (s <? s + N) with true in Hstep by (symmetry; apply Z.ltb_lt; lia).
    injection Hstep as _ <- _. congruence.
  - split; [exact E0|]. split; [exact Hm|].
    pose proof Hm as Hm'. rewrite <- Hb in Hm'.
    rewrite (step_thread_Waiting _ _ _ _ Hpc1 Hm') in Hstep. cbn [start] in Hstep.
    rewrite Z.ltb_irrefl in Hstep. injection Hstep as _ <- _. exact Hls.
Qed.

Lemma consumer_returns_only_after_all_arrivals_witness :
  let h := mkHandle 4 (mkPtr 1%positive 0) in
  let σ := mkSys {[ 1%positive := mkBarrier 4 4 ]}
             [ mkThread 1%positive 0 h Idle [Arrive 2; Reset 2];
               mkThread 1%positive 1 h Idle [Barrier 2];
               mkThread 1%positive 2 h Idle [WaitAndReset 2] ] [] in
  let sched := [2%nat; 0%nat; 2%nat; 1%nat; 0%nat; 2%nat; 1%nat] in
  sys_mem (exec sched σ) !! 1%positive = Some (mkBarrier (4 + 2) (4 + 2)).
Proof.
  intros h σ sched.
  destruct (consumer_returns_only_after_all_arrivals 1%positive 4 2 σ sched 2%nat
              (mkThread 1%positive 2 (mkHandle 6 (mkPtr 1%positive 0)) (Waiting 6) [])
              (mkThread 1%positive 2 (mkHandle 6 (mkPtr 1%positive 0)) Idle [])
              6) as (_ & Hm & _).
  - lia.
  - lia.
  - reflexivity.
  - unfold mixed_round_begins. split; [reflexivity|]. split; [reflexivity|].
    split; [|reflexivity]. unfold joins_round, bound_to. repeat constructor.
  - vm_compute. reflexivity.
  - reflexivity.
  - vm_compute. reflexivity.
  - reflexivity.
  - exact Hm.
Defined.

(** The same round always completes: after any schedule the threads can go
    on until all have made their calls; and when they all have,
    [start = count = s + N] and exactly one store to [start] was made, of
    [s + N]. *)
Theorem mixed_round_completes b s N σ sched :
  0 <= s → 1 <= N → s + N < 2 ^ 64 → mixed_round_begins b s N σ →
  (∃ more, Forall finished (sys_threads (exec more (exec sched σ)))) ∧
  (Forall finished (sys_threads (exec sched σ)) →
   sys_mem (exec sched σ) !! b = Some (mkBarrier (s + N) (s + N)) ∧
   ∃ i, sys_log (exec sched σ) = [(i, b, s + N)]).
Proof.
  intros Hs HN HsN Hbegin.
  pose proof (mixed_exec b s N Hs HN HsN sched σ
                (mixed_round_begins_inv b s N HN σ Hbegin)) as Hinv.
  split.
  - apply (mixed_can_finish b s N Hs HN HsN
             (Z.to_nat (total work_left (sys_threads (exec sched σ)))) _ Hinv).
    pose proof (total_nonneg work_left (sys_threads (exec sched σ)) work_left_nonneg).
    lia.
  - apply (mixed_finished b s N _ Hinv).
Qed.

Lemma mixed_round_completes_witness :
  let h := mkHandle 4 (mkPtr 1%positive 0) in
  let σ := mkSys {[ 1%positive := mkBarrier 4 4 ]}
             [ mkThread 1%positive 0 h Idle [Arrive 2; Reset 2];
               mkThread 1%positive 1 h Idle [Barrier 2];
               mkThread 1%positive 2 h Idle [WaitAndReset 2] ] [] in
  let sched := [2%nat; 0%nat; 2%nat; 1%nat; 0%nat; 2%nat; 1%nat; 2%nat; 0%nat;
                1%nat; 1%nat] in
  Forall finished (sys_threads (exec sched σ)) ∧
  ∃ i, sys_log (exec sched σ) = [(i, 1%positive, 4 + 2)].
Proof.
  intros h σ sched.
  assert (Hfin : Forall finished (sys_threads (exec sched σ))).
  { vm_compute. repeat constructor. }
  split; [exact Hfin|].
  destruct (mixed_round_completes 1%positive 4 2 σ sched) as [_ H].
  - lia.
  - lia.
  - reflexivity.
  - unfold mixed_round_begins. split; [reflexivity|]. split; [reflexivity|].
    split; [|reflexivity]. unfold joins_round, bound_to. repeat constructor.
  - exact (proj2 (H Hfin)).
Defined.


(** ** [WaitAndReset] when the target wraps *)

(** When [localStart + eventNum] passes [2^64 - 1] the target wraps below
    [localStart]: a thread whose barrier has [start >= localStart] (it has
    passed every round so far) returns from [WaitAndReset] at its first
    reading, before any arrival of the round. *)
Theorem WaitAndReset_passes_when_target_wraps env fuel b eventNum m h bar :
  m !! b = Some bar → u64 (localStart h) → 0 <= eventNum < 2 ^ 31 →
  2 ^ 64 <= localStart h + eventNum → localStart h <= start bar →
  L2_BarrierWithSync_WaitAndReset env (S fuel) b eventNum (m, h) =
    Ok (m, mkHandle (localStart h + eventNum - 2 ^ 64) (localCountPtr h)).
Proof.
  intros Hm Hu Hn Hwrap Hstart. unfold u64 in Hu.
  assert (Et : wrap64 (localStart h + eventNum) = localStart h + eventNum - 2 ^ 64).
  { unfold wrap64.
    replace (localStart h + eventNum)
      with (localStart h + eventNum - 2 ^ 64 + 1 * 2 ^ 64) at 1 by lia.
    rewrite Z_mod_plus_full. apply Z.mod_small. lia. }
  unfold L2_BarrierWithSync_WaitAndReset, advance_localStart.
  rewrite wrap64_int_to_u64, Et. cbn [WaitAndReset_spin]. unfold load_start.
  rewrite Hm. unfold_res. unfold spin_test.
  replace (start bar <? localStart h + eventNum - 2 ^ 64) with false
    by (symmetry; apply Z.ltb_ge; lia).
  reflexivity.
Qed.

Lemma WaitAndReset_passes_when_target_wraps_witness :
  let m : gmap positive L2_Barrier_t :=
    {[ 1%positive := mkBarrier (2 ^ 64 - 1) (2 ^ 64 - 1) ]} in
  let h := mkHandle (2 ^ 64 - 1) (mkPtr 1%positive 0) in
  L2_BarrierWithSync_WaitAndReset (λ _ m', m') 1 1%positive 4 (m, h) =
    Ok (m, mkHandle (2 ^ 64 - 1 + 4 - 2 ^ 64) (mkPtr 1%positive 0)).
Proof.
  intros m h.
  apply (WaitAndReset_passes_when_target_wraps (λ _ m', m') 0 1%positive 4 m h
           (mkBarrier (2 ^ 64 - 1) (2 ^ 64 - 1))).
  - reflexivity.
  - unfold u64. simpl. lia.
  - lia.
  - simpl. lia.
  - simpl. lia.
Defined.

(** ** [L2_BarrierWithSync_InitShared] *)

(** [InitShared] returns the block [malloc] gave with both counters 0,
    whatever the block held, and leaves every other barrier as it was: a
    team can begin on it. It does not test the pointer: when [malloc]
    returns the null pointer the call faults in [Init]. *)
Theorem InitShared_gives_fresh_barrier m bb junk N R ts :
  m !! bb = None → Forall (team_member bb N R) ts → Z.of_nat (length ts) = N →
  (∃ m', L2_BarrierWithSync_InitShared (Some (bb, junk)) m = Ok (bb, m') ∧
         m' !! bb = Some (mkBarrier 0 0) ∧
         (∀ a bar, m !! a = Some bar → m' !! a = Some bar) ∧
         team_begins bb N R (mkSys m' ts [])) ∧
  L2_BarrierWithSync_InitShared None m = Fault.
Proof.
  intros Hfresh Hts Hlen. split; [|reflexivity].
  exists (<[bb := mkBarrier 0 0]> m). unfold L2_BarrierWithSync_InitShared.
  unfold L2_BarrierWithSync_Init. rewrite lookup_insert_eq. unfold_res.
  rewrite insert_insert_eq. split; [reflexivity|].
  split; [apply lookup_insert_eq|]. split.
  - intros a bar Ha. rewrite lookup_insert_ne; [exact Ha|]. congruence.
  - split; [apply lookup_insert_eq|]. split; [reflexivity|].
    split; [exact Hlen|exact Hts].
Qed.

Lemma InitShared_gives_fresh_barrier_witness :
  let m : gmap positive L2_Barrier_t := {[ 1%positive := mkBarrier 8 9 ]} in
  let h := mkHandle 5 (mkPtr 9%positive 0) in
  let prog := InitInThread :: replicate 3 (Barrier 2) in
  let ts := [ mkThread 2%positive 0 h Idle prog; mkThread 2%positive 1 h Idle prog ] in
  ∃ m', L2_BarrierWithSync_InitShared (Some (2%positive, mkBarrier 7 3)) m =
          Ok (2%positive, m') ∧
        m' !! 1%positive = Some (mkBarrier 8 9) ∧
        team_begins 2%positive 2 3 (mkSys m' ts []).
Proof.
  intros m h prog ts.
  destruct (InitShared_gives_fresh_barrier m 2%positive (mkBarrier 7 3) 2 3 ts)
    as [(m' & E & _ & Hframe & Hteam) _].
  - reflexivity.
  - unfold team_member. repeat constructor.
  - reflexivity.
  - exists m'. split; [exact E|]. split; [|exact Hteam].
    apply Hframe. reflexivity.
Defined.

(** ** The state vector of [TT06Func.hh] *)

(** The [nGateVar] slots of the state vector from [gateOffset] on are
    within the [nStateVar] slots of [TT06DevState.state] and are exactly
    the slots of the enumerators named as gates, [m_gate] first; the other
    variables come before them, each enumerator at a slot of its own. *)
Theorem TT06_gate_block_layout :
  TT06Func.gateOffset + TT06Func.nGateVar = TT06Func.nStateVar ∧
  TT06Func.index TT06Func.m_gate = TT06Func.gateOffset ∧
  TT06Func.gateFitOffset = TT06Func.gateOffset ∧
  (∀ s, 0 <= TT06Func.index s < TT06Func.nStateVar) ∧
  (∀ s s', TT06Func.index s = TT06Func.index s' → s = s') ∧
  (∀ s, TT06Func.named_gate s = true ↔
        TT06Func.gateOffset <= TT06Func.index s <
          TT06Func.gateOffset + TT06Func.nGateVar) ∧
  (∀ i, 0 <= i < TT06Func.nGateVar →
        ∃ s, TT06Func.index s = TT06Func.gateOffset + i ∧
             TT06Func.named_gate s = true).
Proof.
  unfold TT06Func.gateOffset, TT06Func.nGateVar, TT06Func.nStateVar,
    TT06Func.gateFitOffset.
  split; [reflexivity|]. split; [reflexivity|]. split; [reflexivity|].
  split; [intros []; simpl; lia|].
  split; [intros [] []; simpl; intros E; first [reflexivity | discriminate E]|].
  split.
  - intros []; simpl; split; intros H; first [lia | reflexivity | discriminate H].
  - intros i Hi.
    assert (Hcases : i = 0 ∨ i = 1 ∨ i = 2 ∨ i = 3 ∨ i = 4 ∨ i = 5 ∨ i = 6 ∨
                     i = 7 ∨ i = 8 ∨ i = 9 ∨ i = 10 ∨ i = 11) by lia.
    destruct Hcases as [->|[->|[->|[->|[->|[->|[->|[->|[->|[->|[->| ->]]]]]]]]]]].
    + exists TT06Func.m_gate. split; reflexivity.
    + exists TT06Func.h_gate. split; reflexivity.
    + exists TT06Func.j_gate. split; reflexivity.
    + exists TT06Func.Xr1_gate. split; reflexivity.
    + exists TT06Func.Xr2_gate. split; reflexivity.
    + exists TT06Func.Xs_gate. split; reflexivity.
    + exists TT06Func.r_gate. split; reflexivity.
    + exists TT06Func.d_gate. split; reflexivity.
    + exists TT06Func.f_gate. split; reflexivity.
    + exists TT06Func.f2_gate. split; reflexivity.
    + exists TT06Func.jL_gate. split; reflexivity.
    + exists TT06Func.s_gate. split; reflexivity.
Qed.

Lemma TT06_gate_block_layout_witness :
  ∃ s, TT06Func.index s = TT06Func.gateOffset + 3 ∧ TT06Func.named_gate s = true.
Proof.
  apply (proj2 (proj2 (proj2 (proj2 (proj2 (proj2 TT06_gate_block_layout)))))).
  unfold TT06Func.nGateVar. lia.
Defined.


(** ** What the team's [start] does, and what consumers never do *)

(** For a team of [N] threads at [R] barriers: [start] never goes back.
    Once a reading has found [start >= target], every later reading
    does. *)
Theorem team_start_never_goes_back b N R σ sched more bar bar' :
  1 <= N → Z.of_nat R * N < 2 ^ 64 → team_begins b N R σ →
  sys_mem (exec sched σ) !! b = Some bar →
  sys_mem (exec (sched ++ more) σ) !! b = Some bar' →
  start bar <= start bar'.
Proof.
  intros HN HR Hbegin Hm Hm'.
  destruct (team_exec b N R HN HR sched 0 σ (team_begins_at b N R HN σ Hbegin))
    as (p & _ & Hat).
  destruct (team_exec b N R HN HR more p _ Hat) as (p' & Hpp & Hat').
  unfold exec in Hm'. rewrite fold_left_app in Hm'. fold (exec sched σ) in Hm'.
  fold (exec more (exec sched σ)) in Hm'.
  destruct Hat as (_ & Hmp & _). destruct Hat' as (_ & Hmp' & _).
  rewrite Hmp in Hm. rewrite Hmp' in Hm'.
  injection Hm as <-. injection Hm' as <-. simpl. nia.
Qed.

Lemma team_start_never_goes_back_witness :
  let h := mkHandle 5 (mkPtr 9%positive 0) in
  let prog := InitInThread :: replicate 2 (Barrier 2) in
  let σ := mkSys {[ 1%positive := mkBarrier 0 0 ]}
             [ mkThread 1%positive 0 h Idle prog; mkThread 1%positive 1 h Idle prog ] [] in
  let sched := [0%nat; 0%nat; 1%nat; 1%nat] in
  let more := [1%nat; 0%nat; 0%nat] in
  start (mkBarrier 0 2) <= start (mkBarrier 2 2).
Proof.
  intros h prog σ sched more.
  apply (team_start_never_goes_back 1%positive 2 2 σ sched more).
  - lia.
  - reflexivity.
  - unfold team_begins. split; [reflexivity|]. split; [reflexivity|].
    split; [reflexivity|]. repeat constructor.
  - vm_compute. reflexivity.
  - vm_compute. reflexivity.
Defined.

Lemma never_arrives_step m t m' t' w :
  never_arrives t → step_thread m t = (m', t', w) →
  m' = m ∧ w = None ∧ never_arrives t'.
Proof.
  intros [Ha Hpc] Hstep. unfold never_arrives, arrivals_to_make in *.
  unfold step_thread in Hstep.
  destruct (th_pc t) as [|c n|target|] eqn:Epc.
  - destruct (th_prog t) as [|c k] eqn:Ep.
    + injection Hstep as <- <- <-.
      split; [reflexivity|]. split; [reflexivity|]. rewrite Ep.
      split; [exact Ha|]. intros c' n'. rewrite Epc. discriminate.
    + pose proof (arrivals_left_nonneg k).
      destruct c as [| n | n | n | n]; simpl in Ha; try lia;
        simpl in Hstep; injection Hstep as <- <- <-; simpl;
        (split; [reflexivity|]); (split; [reflexivity|]);
        (split; [exact Ha|]); intros c' n'; discriminate.
  - exfalso. exact (Hpc c n eq_refl).
  - destruct (load_start m (th_b t)) as [v| |];
      [destruct (spin_test v target)|..];
      injection Hstep as <- <- <-; simpl;
      (split; [reflexivity|]); (split; [reflexivity|]);
      (split; [exact Ha|]); intros c' n'; try rewrite Epc; discriminate.
  - injection Hstep as <- <- <-.
    split; [reflexivity|]. split; [reflexivity|]. split; [exact Ha|].
    intros c' n'. rewrite Epc. discriminate.
Qed.

(** Threads that make no arrival ([InitInThread], [Reset] and
    [WaitAndReset] only) never write a barrier: under every schedule the
    store is the one they started with and no store to [start] is made.
    [start] is advanced by arrivals only. *)
Theorem without_arrivals_store_unchanged sched : ∀ σ,
  Forall never_arrives (sys_threads σ) →
  sys_mem (exec sched σ) = sys_mem σ ∧ sys_log (exec sched σ) = sys_log σ.
Proof.
  induction sched as [|i sched IH]; intros σ H; [split; reflexivity|].
  simpl. destruct (sys_threads σ !! i) as [t|] eqn:Hi.
  - destruct (step_thread (sys_mem σ) t) as [[m' t'] w] eqn:Hstep.
    destruct (never_arrives_step _ _ _ _ _ (Forall_lookup_1 _ _ _ _ H Hi) Hstep)
      as (-> & -> & Ht').
    rewrite (step_sys_at _ _ _ _ _ _ Hi Hstep).
    destruct (IH (mkSys (sys_mem σ) (<[i := t']> (sys_threads σ))
                    (sys_log σ ++ log_of i (th_b t) None))) as [E1 E2].
    + simpl. apply Forall_insert; assumption.
    + simpl in *. rewrite !app_nil_r in *. split; assumption.
  - unfold step_sys. rewrite Hi. apply IH, H.
Qed.

Lemma without_arrivals_store_unchanged_witness :
  let h := mkHandle 0 (mkPtr 1%positive 0) in
  let σ := mkSys {[ 1%positive := mkBarrier 2 3 ]}
             [ mkThread 1%positive 0 h Idle [InitInThread; WaitAndReset 2; Reset 2];
               mkThread 1%positive 1 h (Waiting 4) [Reset 4] ] [] in
  let sched := [0%nat; 1%nat; 0%nat; 0%nat; 1%nat; 0%nat] in
  sys_mem (exec sched σ) = sys_mem σ ∧ sys_log (exec sched σ) = sys_log σ.
Proof.
  intros h σ sched. apply (without_arrivals_store_unchanged sched σ).
  unfold never_arrives. repeat constructor; discriminate.
Defined.

(** ** A round with too few arrivals *)

Section ShortRound.
Variables (b : positive) (s N M : Z).
Hypothesis Hs : 0 <= s.
Hypothesis HM : 0 <= M < N.
Hypothesis HsN : s + N < 2 ^ 64.

Lemma short_inv_local σ i t t' :
  short_inv b s N M σ → sys_threads σ !! i = Some t →
  round_thread b s N t' → arrivals_to_make t' = arrivals_to_make t →
  pending_publish (s + N) t' = 0 →
  short_inv b s N M (mkSys (sys_mem σ) (<[i := t']> (sys_threads σ)) (sys_log σ ++ [])).
Proof.
  intros (Hle & Hts & Hpend & Hlog & Hm) Hi Ht' Ea Ep. unfold short_inv. simpl.
  rewrite (total_insert _ _ _ _ _ Hi), Ea, app_nil_r.
  replace (total arrivals_to_make (sys_threads σ) - arrivals_to_make t +
           arrivals_to_make t)
    with (total arrivals_to_make (sys_threads σ)) by lia.
  split; [exact Hle|]. split; [apply Forall_insert; assumption|].
  split; [apply Forall_insert; assumption|]. split; assumption.
Qed.

Lemma short_step σ i : short_inv b s N M σ → short_inv b s N M (step_sys i σ).
Proof.
  intros Hinv. pose proof Hinv as (Hle & Hts & Hpend & Hlog & Hm).
  pose proof (total_nonneg arrivals_to_make (sys_threads σ) arrivals_to_make_nonneg)
    as Hl0.
  set (left := total arrivals_to_make (sys_threads σ)) in *.
  destruct (sys_threads σ !! i) as [t|] eqn:Hi;
    [|unfold step_sys; rewrite Hi; exact Hinv].
  pose proof (total_ge _ _ _ _ arrivals_to_make_nonneg Hi) as Hge. fold left in Hge.
  pose proof (Forall_lookup_1 _ _ _ _ Hpend Hi) as Hpt.
  destruct (Forall_lookup_1 _ _ _ _ Hts Hi)
    as [Hb Hbd Hls Hpc Hone|c Hb Hbd Hls Hpc Hone Hc0 Hc
       |Hb Hls Hpc Hprog|Hb Hls Hpc Hprog].
  - (* between calls *)
    assert (Hfetch : ∀ k, arrivals_to_make t = 1 + arrivals_left k →
              one_round N k = true →
              short_inv b s N M
                (mkSys (<[b := mkBarrier s (wrap64 (s + M - left + 1))]> (sys_mem σ))
                   (<[i := mkThread (th_b t) (th_tid t) (th_h t)
                            (Arrive_loaded (s + M - left) N) k]> (sys_threads σ))
                   (sys_log σ ++ []))).
    { intros k Ea Hk. pose proof (arrivals_left_nonneg k) as Hk0.
      assert (Ew : wrap64 (s + M - left + 1) = s + M - left + 1).
      { apply wrap64_small. unfold u64. lia. }
      rewrite Ew. unfold short_inv. cbn [sys_mem sys_threads sys_log].
      name_new_thread t'.
      rewrite (total_insert _ _ _ _ _ Hi), app_nil_r. fold left.
      assert (Ea' : arrivals_to_make t' = arrivals_left k) by reflexivity.
      rewrite Ea, Ea'.
      replace (left - (1 + arrivals_left k) + arrivals_left k) with (left - 1) by lia.
      split; [lia|]. split.
      { apply Forall_insert; [exact Hts|].
        apply (rt_loaded b s N t' (s + M - left)); try assumption; try reflexivity; lia. }
      split.
      { apply Forall_insert; [exact Hpend|]. unfold pending_publish. simpl.
        rewrite Ew.
        replace (s + M - left + 1 =? s + N) with false
          by (symmetry; apply Z.eqb_neq; lia).
        reflexivity. }
      split; [exact Hlog|]. rewrite lookup_insert_eq. do 2 f_equal. lia. }
    unfold bound_to in Hbd. pose proof Hm as Hm'. rewrite <- Hbd in Hm'.
    destruct (one_round_cases N _ Hone) as [Hp|[(k & Hp & Hk)|[Hp|[Hp|Hp]]]].
    + rewrite (step_sys_stutter _ _ _ Hi); [exact Hinv|].
      apply step_thread_nil; assumption.
    + rewrite (step_sys_at _ _ _ _ _ _ Hi (step_thread_Arrive _ _ _ _ _ Hpc Hp Hm')).
      cbn [count start log_of]. rewrite Hbd. apply Hfetch; [|exact Hk].
      unfold arrivals_to_make. rewrite Hp. reflexivity.
    + rewrite (step_sys_at _ _ _ _ _ _ Hi (step_thread_Reset _ _ _ _ Hpc Hp)).
      rewrite Hls, (wrap64_small (s + N)) by (unfold u64; lia).
      apply (short_inv_local _ _ _ _ Hinv Hi).
      * apply rt_done; simpl; try assumption; reflexivity.
      * unfold arrivals_to_make. simpl. rewrite Hp. reflexivity.
      * reflexivity.
    + rewrite (step_sys_at _ _ _ _ _ _ Hi (step_thread_WaitAndReset _ _ _ _ Hpc Hp)).
      rewrite Hls, (wrap64_small (s + N)) by (unfold u64; lia).
      apply (short_inv_local _ _ _ _ Hinv Hi).
      * apply rt_waiting; simpl; try assumption; reflexivity.
      * unfold arrivals_to_make. simpl. rewrite Hp. reflexivity.
      * reflexivity.
    + rewrite (step_sys_at _ _ _ _ _ _ Hi (step_thread_Barrier _ _ _ _ _ Hpc Hp Hm')).
      cbn [count start log_of]. rewrite Hbd. apply Hfetch.
      * unfold arrivals_to_make. rewrite Hp. reflexivity.
      * simpl. apply Z.eqb_refl.
  - (* lines 184-189 of [Arrive]: never the last arrival *)
    pose proof Hm as Hm'. rewrite <- Hb in Hm'.
    pose proof (step_thread_publish _ _ _ _ _ Hpc Hm') as Hstep.
    unfold pending_publish in Hpt. rewrite Hpc in Hpt.
    rewrite Hls, (wrap64_small (s + N)) in Hstep by (unfold u64; lia).
    destruct (wrap64 (c + 1) =? s + N); [discriminate|].
    rewrite (step_sys_at _ _ _ _ _ _ Hi Hstep).
    apply (short_inv_local _ _ _ _ Hinv Hi).
    + apply rt_idle; try assumption; reflexivity.
    + reflexivity.
    + reflexivity.
  - (* one reading of [start]: still below the target *)
    rewrite (step_sys_stutter _ _ _ Hi); [exact Hinv|].
    pose proof Hm as Hm'. rewrite <- Hb in Hm'.
    rewrite (step_thread_Waiting _ _ _ _ Hpc Hm'). cbn [start].
    replace (s <? s + N) with true by (symmetry; apply Z.ltb_lt; lia). reflexivity.
  - rewrite (step_sys_stutter _ _ _ Hi); [exact Hinv|].
    apply step_thread_nil; assumption.
Qed.

Lemma short_exec sched : ∀ σ, short_inv b s N M σ → short_inv b s N M (exec sched σ).
Proof.
  induction sched as [|i sched IH]; intros σ H; [exact H|].
  simpl. apply IH, short_step, H.
Qed.

(** A thread in the loop of [WaitAndReset] stays there whoever steps. *)
Lemma short_waits_on more : ∀ σ i t target,
  short_inv b s N M σ → sys_threads σ !! i = Some t → th_pc t = Waiting target →
  sys_threads (exec more σ) !! i = Some t.
Proof.
  induction more as [|j more IH]; intros σ i t target Hinv Hi Hpc; [exact Hi|].
  simpl. apply (IH (step_sys j σ) i t target (short_step σ j Hinv)); [|exact Hpc].
  destruct (decide (i = j)) as [<-|Hne];
    [|rewrite step_sys_lookup_ne by exact Hne; exact Hi].
  destruct Hinv as (_ & Hts & _ & _ & Hm).
  destruct (Forall_lookup_1 _ _ _ _ Hts Hi)
    as [Hb Hbd Hls Hpc1 Hone|c Hb Hbd Hls Hpc1 Hone Hc0 Hc
       |Hb Hls Hpc1 Hprog|Hb Hls Hpc1 Hprog]; try congruence.
  rewrite (step_sys_stutter _ _ _ Hi); [exact Hi|].
  rewrite <- Hb in Hm. rewrite (step_thread_Waiting _ _ _ _ Hpc1 Hm). cbn [start].
  replace (s <? s + N) with true by (symmetry; apply Z.ltb_lt; lia). reflexivity.
Qed.

End ShortRound.

(** A round of [N] arrivals in which the threads have fewer than [N]
    arrivals to make between them never completes: under every schedule
    no store to [start] is made, [start] stays at [s], and a thread that
    has entered the loop of [WaitAndReset] is still in it, in the same
    state, after any number of further steps of any threads. *)
Theorem short_round_never_completes b s N σ sched more i t target :
  0 <= s → s + N < 2 ^ 64 →
  sys_mem σ !! b = Some (mkBarrier s s) → sys_log σ = [] →
  Forall (joins_round b s N) (sys_threads σ) →
  total arrivals_to_make (sys_threads σ) < N →
  sys_threads (exec sched σ) !! i = Some t → th_pc t = Waiting target →
  sys_threads (exec (sched ++ more) σ) !! i = Some t ∧
  sys_log (exec (sched ++ more) σ) = [] ∧
  ∃ bar, sys_mem (exec (sched ++ more) σ) !! b = Some bar ∧ start bar = s.
Proof.
  intros Hs HsN Hm Hlog Hts HM Hi Hpc.
  set (M := total arrivals_to_make (sys_threads σ)) in *.
  assert (HM0 : 0 <= M < N).
  { pose proof (total_nonneg arrivals_to_make (sys_threads σ) arrivals_to_make_nonneg).
    fold M in H. lia. }
  assert (Hinv : short_inv b s N M σ).
  { unfold short_inv. fold M. split; [lia|]. split.
    { eapply Forall_impl; [exact Hts|]. intros x (?&?&?&?&?). apply rt_idle; assumption. }
    split.
    { eapply Forall_impl; [exact Hts|]. intros x (_&_&_&Hx&_).
      unfold pending_publish. rewrite Hx. reflexivity. }
    split; [exact Hlog|]. rewrite Hm. do 2 f_equal. lia. }
  pose proof (short_exec b s N M Hs HM0 HsN sched σ Hinv) as Hinv1.
  pose proof (short_exec b s N M Hs HM0 HsN more _ Hinv1) as Hinv2.
  unfold exec at 1 2 3. rewrite !fold_left_app.
  fold (exec sched σ). fold (exec more (exec sched σ)).
  split; [exact (short_waits_on b s N M Hs HM0 HsN more _ i t target Hinv1 Hi Hpc)|].
  destruct Hinv2 as (_ & _ & _ & Hlog2 & Hm2). split; [exact Hlog2|].
  eexists. split; [exact Hm2|]. reflexivity.
Qed.

Lemma short_round_never_completes_witness :
  let h := mkHandle 4 (mkPtr 1%positive 0) in
  let σ := mkSys {[ 1%positive := mkBarrier 4 4 ]}
             [ mkThread 1%positive 0 h Idle [Arrive 3; Reset 3];
               mkThread 1%positive 1 h Idle [Barrier 3] ] [] in
  let sched := [1%nat; 0%nat; 1%nat; 1%nat] in
  let more := [0%nat; 1%nat; 0%nat; 1%nat; 1%nat] in
  sys_threads (exec (sched ++ more) σ) !! 1%nat =
    Some (mkThread 1%positive 1 (mkHandle 7 (mkPtr 1%positive 0)) (Waiting 7) []) ∧
  sys_log (exec (sched ++ more) σ) = [].
Proof.
  intros h σ sched more.
  destruct (short_round_never_completes 1%positive 4 3 σ sched more 1%nat
              (mkThread 1%positive 1 (mkHandle 7 (mkPtr 1%positive 0)) (Waiting 7) [])
              7) as (H1 & H2 & _).
  - lia.
  - reflexivity.
  - reflexivity.
  - reflexivity.
  - unfold joins_round, bound_to. repeat constructor.
  - reflexivity.
  - vm_compute. reflexivity.
  - reflexivity.
  - split; [exact H1|exact H2].
Defined.

(** ** The thread that completes a round *)

Lemma exec_app l1 l2 σ : exec (l1 ++ l2) σ = exec l2 (exec l1 σ).
Proof. unfold exec. apply fold_left_app. Qed.

(** A schedule leaves the threads that do not step in it as they are. *)
Lemma exec_lookup_others more : ∀ σ i,
  Forall (λ j, j ≠ i) more → sys_threads (exec more σ) !! i = sys_threads σ !! i.
Proof.
  induction more as [|j more IH]; intros σ i H; [reflexivity|].
  apply Forall_cons in H as [Hj H]. simpl. rewrite (IH _ _ H).
  apply step_sys_lookup_ne. congruence.
Qed.

Section TeamLast.
Variables (b : positive) (N : Z) (R : nat).
Hypothesis HN : 1 <= N.
Hypothesis HR : Z.of_nat R * N < 2 ^ 64.

(** A thread that has arrived at a round and not left it holds the team
    in that round: no later round is complete. *)
Lemma team_round_of_waiter p t :
  team_thread b N R p t →
  (∀ k, th_pc t = Idle → th_prog t = WaitAndReset N :: k →
        p * N <= localStart (th_h t) + N) ∧
  (∀ tg, th_pc t = Waiting tg → p * N <= tg).
Proof.
  intros [Hb Hpc Hp ->|k Hb Hbd Hpc Hp Ek Hls
         |k c a Hb Hbd Hpc Hp Ek Ha H1 Hls Hc0 Hc Hne
         |k a Hb Hbd Hpc Hp Ek Ha H1 Hls
         |k a Hb Hbd Hpc Hp Ek Ha H1 Hls]; split.
  - intros k' _ Hp'. rewrite Hp in Hp'. discriminate.
  - intros tg Hpc'. rewrite Hpc in Hpc'. discriminate.
  - intros k' _ Hp'. rewrite Hp in Hp'. destruct k; discriminate.
  - intros tg Hpc'. rewrite Hpc in Hpc'. discriminate.
  - intros k' Hpc' _. rewrite Hpc in Hpc'. discriminate.
  - intros tg Hpc'. rewrite Hpc in Hpc'. discriminate.
  - intros k' _ _. rewrite Hls. nia.
  - intros tg Hpc'. rewrite Hpc in Hpc'. discriminate.
  - intros k' Hpc' _. rewrite Hpc in Hpc'. discriminate.
  - intros tg Hpc'. rewrite Hpc in Hpc'. injection Hpc' as <-. nia.
Qed.

Lemma team_others p σ more i t :
  team_at b N R p σ → Forall (λ j, j ≠ i) more →
  sys_threads σ !! i = Some t →
  ∃ p', p <= p' ∧ team_at b N R p' (exec more σ) ∧
        sys_threads (exec more σ) !! i = Some t.
Proof.
  intros Hat Hmore Hi. destruct (team_exec b N R HN HR more p σ Hat) as (p' & Hp' & Hat').
  exists p'. split; [exact Hp'|]. split; [exact Hat'|].
  rewrite (exec_lookup_others more σ i Hmore). exact Hi.
Qed.

Lemma team_step_le p σ i :
  team_at b N R p σ → ∃ p', p <= p' ∧ team_at b N R p' (step_sys i σ).
Proof.
  intros Hat. destruct (team_step b N R HN HR p σ i Hat) as [H|H].
  - exists p. split; [lia|exact H].
  - exists (p + 1). split; [lia|exact H].
Qed.

Lemma team_last_returns p σ i t c n more1 more2 :
  team_at b N R p σ → sys_threads σ !! i = Some t →
  th_pc t = Arrive_loaded c n →
  wrap64 (c + 1) = wrap64 (localStart (th_h t) + int_to_u64 n) →
  Forall (λ j, j ≠ i) more1 → Forall (λ j, j ≠ i) more2 →
  let σ' := exec more2 (step_sys i (exec more1 (step_sys i σ))) in
  (∃ bar, sys_mem σ' !! b = Some bar ∧ start bar = wrap64 (c + 1)) ∧
  sys_threads (step_sys i σ') !! i =
    Some (mkThread (th_b t) (th_tid t)
            (mkHandle (wrap64 (c + 1)) (localCountPtr (th_h t))) Idle
            (tail (th_prog t))).
Proof.
  intros Hat Hi Hpc Htest Hm1 Hm2.
  pose proof Hat as (Hp & Hm & Hlen & Hts & _).
  pose proof (Forall_lookup_1 _ _ _ _ Hts Hi) as Ht.
  destruct Ht as [Hb Hpc' Hprog ->|k Hb Hbd Hpc' Hprog Ek Hls
         |k c' a Hb Hbd Hpc' Hprog Ek Ha H1 Hls Hc0 Hc Hne
         |k a Hb Hbd Hpc' Hprog Ek Ha H1 Hls
         |k a Hb Hbd Hpc' Hprog Ek Ha H1 Hls];
    rewrite Hpc in Hpc'; try discriminate.
  injection Hpc' as <- ->.
  assert (HaR : a <= Z.of_nat R) by lia.
  assert (Ec : wrap64 (c + 1) = c + 1).
  { apply (team_small_le N R HN HR (c + 1) a); lia. }
  assert (Etg : wrap64 (localStart (th_h t) + N) = a * N).
  { rewrite Hls. replace ((a - 1) * N + N) with (a * N) by lia.
    apply (team_small N R HN HR). lia. }
  rewrite wrap64_int_to_u64, Ec, Etg in Htest.
  assert (Eap : a = p + 1).
  { destruct (decide (a = p)) as [E|E]; [|lia]. exfalso. apply (Hne E). rewrite <- E. exact Htest. }
  (* the store of line 188 *)
  pose proof Hm as Hmb. rewrite <- Hb in Hmb.
  pose proof (step_thread_publish _ _ _ _ _ Hpc Hmb) as Hstep.
  rewrite Ec, Etg in Hstep.
  replace (c + 1 =? a * N) with true in Hstep by (symmetry; apply Z.eqb_eq; exact Htest).
  destruct (team_step_le p σ i Hat) as (p1 & Hp1 & Hat1).
  assert (Hi1 : sys_threads (step_sys i σ) !! i =
                Some (mkThread (th_b t) (th_tid t) (th_h t) Idle (th_prog t))).
  { rewrite (step_sys_at _ _ _ _ _ _ Hi Hstep). cbn [sys_threads].
    apply list_lookup_insert_eq. apply (lookup_lt_Some _ _ _ Hi). }
  assert (Ep1 : p1 = a).
  { destruct Hat1 as (_ & Hm1' & _).
    rewrite (step_sys_at _ _ _ _ _ _ Hi Hstep) in Hm1'. cbn [sys_mem] in Hm1'.
    rewrite Hb, lookup_insert_eq in Hm1'. injection Hm1' as E _. nia. }
  subst p1.
  (* the other threads, then line 212 *)
  destruct (team_others a _ more1 i _ Hat1 Hm1 Hi1) as (p2 & Hp2 & Hat2 & Hi2).
  set (σ2 := exec more1 (step_sys i σ)) in *.
  assert (Ep2 : p2 = a).
  { destruct Hat2 as (_ & _ & _ & Hts2 & _).
    destruct (team_round_of_waiter p2 _ (Forall_lookup_1 _ _ _ _ Hts2 Hi2)) as [H _].
    specialize (H _ eq_refl Hprog). cbn [th_h] in H. rewrite Hls in H. nia. }
  subst p2.
  pose proof (step_thread_WaitAndReset (sys_mem σ2)
                (mkThread (th_b t) (th_tid t) (th_h t) Idle (th_prog t)) N _
                eq_refl Hprog) as Hstep2.
  cbn [th_b th_tid th_h] in Hstep2. rewrite Etg in Hstep2.
  destruct (team_step_le a σ2 i Hat2) as (p3 & Hp3 & Hat3).
  assert (Hi3 : sys_threads (step_sys i σ2) !! i =
                Some (mkThread (th_b t) (th_tid t)
                        (mkHandle (a * N) (localCountPtr (th_h t)))
                        (Waiting (a * N)) (replicate k (Barrier N)))).
  { rewrite (step_sys_at _ _ _ _ _ _ Hi2 Hstep2). cbn [sys_threads].
    apply list_lookup_insert_eq. apply (lookup_lt_Some _ _ _ Hi2). }
  (* the other threads, then the first reading of line 215 *)
  destruct (team_others p3 _ more2 i _ Hat3 Hm2 Hi3) as (p4 & Hp4 & Hat4 & Hi4).
  set (σ4 := exec more2 (step_sys i σ2)) in *.
  assert (Ep4 : p4 = a).
  { destruct Hat4 as (_ & _ & _ & Hts4 & _).
    destruct (team_round_of_waiter p4 _ (Forall_lookup_1 _ _ _ _ Hts4 Hi4)) as [_ H].
    specialize (H _ eq_refl). nia. }
  subst p4. cbv zeta. rewrite Ec, Htest.
  pose proof Hat4 as (_ & Hm4 & _).
  split; [eexists; split; [exact Hm4|reflexivity]|].
  assert (Hm4' : sys_mem σ4 !!
                   th_b (mkThread (th_b t) (th_tid t)
                           (mkHandle (a * N) (localCountPtr (th_h t)))
                           (Waiting (a * N)) (replicate k (Barrier N))) =
                 Some (mkBarrier (a * N)
                         (total (arrived (Z.of_nat R)) (sys_threads σ4)))).
  { cbn [th_b]. rewrite Hb. exact Hm4. }
  pose proof (step_thread_Waiting (sys_mem σ4)
                (mkThread (th_b t) (th_tid t)
                   (mkHandle (a * N) (localCountPtr (th_h t)))
                   (Waiting (a * N)) (replicate k (Barrier N))) _ _
                eq_refl Hm4') as Hstep4.
  cbn [start th_b th_tid th_h th_prog] in Hstep4.
  rewrite Z.ltb_irrefl in Hstep4.
  rewrite (step_sys_at _ _ _ _ _ _ Hi4 Hstep4). cbn [sys_threads].
  rewrite Hprog. cbn [tail].
  apply list_lookup_insert_eq. apply (lookup_lt_Some _ _ _ Hi4).
Qed.

End TeamLast.

(** In a team of [N] threads that each call [Barrier (b, h, N)] [R] times,
    with [R * N < 2^64], the thread whose arrival completes a round (its
    fetch-and-increment returned [c] and the test of line 186 holds)
    returns from [Barrier] at its first reading of [start], whatever steps
    the other threads take before its store, between its store and its
    entry in the loop, and between that and its reading: the reading finds
    [start] at the value it stored, [c + 1], which is its new
    [localStart]. *)
Theorem team_last_arrival_returns_at_first_reading
    b N R σ sched i t c n more1 more2 :
  1 <= N → Z.of_nat R * N < 2 ^ 64 → team_begins b N R σ →
  sys_threads (exec sched σ) !! i = Some t →
  th_pc t = Arrive_loaded c n →
  wrap64 (c + 1) = wrap64 (localStart (th_h t) + int_to_u64 n) →
  Forall (λ j, j ≠ i) more1 → Forall (λ j, j ≠ i) more2 →
  (∃ bar, sys_mem (exec (sched ++ [i] ++ more1 ++ [i] ++ more2) σ) !! b = Some bar ∧
          start bar = wrap64 (c + 1)) ∧
  sys_threads (exec (sched ++ [i] ++ more1 ++ [i] ++ more2 ++ [i]) σ) !! i =
    Some (mkThread (th_b t) (th_tid t)
            (mkHandle (wrap64 (c + 1)) (localCountPtr (th_h t))) Idle
            (tail (th_prog t))).
Proof.
  intros HN HR Hbegin Hi Hpc Htest Hm1 Hm2.
  destruct (team_exec b N R HN HR sched 0 σ (team_begins_at b N R HN σ Hbegin))
    as (p & _ & Hat).
  pose proof (team_last_returns b N R HN HR p _ i t c n more1 more2
                Hat Hi Hpc Htest Hm1 Hm2) as H.
  cbv zeta in H.
  replace (sched ++ [i] ++ more1 ++ [i] ++ more2 ++ [i])
    with ((sched ++ [i] ++ more1 ++ [i] ++ more2) ++ [i])
    by (rewrite <- !app_assoc; reflexivity).
  rewrite (exec_app (sched ++ [i] ++ more1 ++ [i] ++ more2) [i]).
  rewrite !exec_app. exact H.
Qed.

Lemma team_last_arrival_returns_at_first_reading_witness :
  let junk := mkHandle 9 (mkPtr 5%positive 0) in
  let σ := mkSys {[ 1%positive := mkBarrier 0 0 ]}
             [ mkThread 1%positive 0 junk Idle [InitInThread; Barrier 2; Barrier 2];
               mkThread 1%positive 1 junk Idle [InitInThread; Barrier 2; Barrier 2] ]
             [] in
  let sched := [0%nat; 1%nat; 0%nat; 0%nat; 0%nat; 1%nat] in
  let more1 := [0%nat; 0%nat] in
  let more2 := [0%nat; 0%nat; 0%nat] in
  (∃ bar, sys_mem (exec (sched ++ [1%nat] ++ more1 ++ [1%nat] ++ more2) σ) !! 1%positive
            = Some bar ∧ start bar = wrap64 (1 + 1)) ∧
  sys_threads (exec (sched ++ [1%nat] ++ more1 ++ [1%nat] ++ more2 ++ [1%nat]) σ)
    !! 1%nat =
    Some (mkThread 1%positive 1 (mkHandle (wrap64 (1 + 1)) (mkPtr 1%positive 1)) Idle
            [Barrier 2]).
Proof.
  intros junk σ sched more1 more2.
  apply (team_last_arrival_returns_at_first_reading 1%positive 2 2 σ sched 1%nat
           (mkThread 1%positive 1 (mkHandle 0 (mkPtr 1%positive 1))
              (Arrive_loaded 1 2) [WaitAndReset 2; Barrier 2]) 1 2 more1 more2).
  - lia.
  - reflexivity.
  - unfold team_begins. split; [reflexivity|]. split; [reflexivity|].
    split; [reflexivity|]. repeat constructor.
  - vm_compute. reflexivity.
  - reflexivity.
  - reflexivity.
  - repeat constructor; discriminate.
  - repeat constructor; discriminate.
Defined.
